(** * MiniGit: object store, references, checkout and merge

    A shallow embedding of the MiniGit sources and the properties of its
    specification.  The repository holds several editions of the tool:

    - [Project]   : [MiniGit-Project.cpp], the edition that fingerprints with
                    SHA-1 and keeps commits under [.minigit/commits];
    - [Simple]    : the edition with [generate_simple_hash], Git-style commit
                    text, [find_lca] and [merge_file_maps];
    - [Branching] : [Branching.cpp], whose commit record has one parent.

    Files are modelled by their contents: every directory of the repository
    is a finite map from a file name to the text of the file, and the working
    tree is a finite map from the path of a regular file to its content.
    The directories of the repository hold files only, so a name stands for
    a file there when it is a file name ([plain_name]: not empty, not [.] or
    [..], no separator); the properties that depend on it say so.  The
    directories that [init] creates exist; in [MiniGit-Project.cpp], where
    [init] does not create [refs/heads], the state records whether that
    directory is there.  A command reads the clock once. *)

From Stdlib Require Import ZArith String Ascii List DecimalString HexadecimalString Lia.
From stdpp Require Import base gmap sets list strings sorting.

Open Scope string_scope.
Open Scope list_scope.

(** ** Text helpers: the [std::string] and stream operations the code uses *)

Module Text.

Definition newline : ascii := "010"%char.
Definition nl : string := String newline "".

(** [s.rfind(p, 0) == 0] *)
Definition starts_with (p s : string) : bool := String.prefix p s.

(** [s.substr(n)], for [n <= s.length()] *)
Fixpoint substr_from (n : nat) (s : string) : string :=
  match n, s with
  | O, _ => s
  | S n', String _ s' => substr_from n' s'
  | S _, EmptyString => EmptyString
  end.

(** [s.substr(0, n)] *)
Fixpoint substr_to (n : nat) (s : string) : string :=
  match n, s with
  | O, _ => EmptyString
  | S n', String c s' => String c (substr_to n' s')
  | S _, EmptyString => EmptyString
  end.

(** [s.find(c)] *)
Fixpoint find_char (c : ascii) (s : string) : option nat :=
  match s with
  | EmptyString => None
  | String a s' => if Ascii.eqb a c then Some O else S <$> find_char c s'
  end.

(** The successive results of [std::getline(in, line, d)] until it fails:
    the text is cut at every [d]; a last piece that is empty is not
    delivered, because the stream is at its end by then. *)
Fixpoint split_on (d : ascii) (s : string) : list string :=
  match s with
  | EmptyString => []
  | String c s' =>
      if Ascii.eqb c d then EmptyString :: split_on d s'
      else match split_on d s' with
           | [] => [String c EmptyString]
           | l :: ls => String c l :: ls
           end
  end.

Definition lines : string → list string := split_on newline.

(** One [std::getline(file, line)] on a freshly opened file. *)
Definition first_line (content : string) : string := hd "" (lines content).

(** [in >> word]: skip white space, then read up to the next white space. *)
Fixpoint skip_ws (s : string) : string :=
  match s with
  | EmptyString => EmptyString
  | String c s' => if Ascii.is_space c then skip_ws s' else s
  end.

Fixpoint take_word (s : string) : string * string :=
  match s with
  | EmptyString => (EmptyString, EmptyString)
  | String c s' =>
      if Ascii.is_space c then (EmptyString, s)
      else let (w, r) := take_word s' in (String c w, r)
  end.

Definition extract (s : string) : string * string := take_word (skip_ws s).

(** [if (!msg.empty() && msg.back() == '\n') msg.pop_back();] *)
Fixpoint pop_newline (m : string) : string :=
  match m with
  | EmptyString => EmptyString
  | String c EmptyString => if Ascii.eqb c newline then EmptyString else m
  | String c m' => String c (pop_newline m')
  end.

(** [std::to_string] of an integer *)
Definition to_string (z : Z) : string :=
  DecimalString.NilZero.string_of_int (Z.to_int z).

(** [out << std::hex << n] *)
Definition to_hex (n : N) : string :=
  HexadecimalString.NilZero.string_of_uint (N.to_hex_uint n).

(** [std::setw(w) << std::setfill('0')] on the next item *)
Definition setw_fill0 (w : nat) (s : string) : string :=
  String.concat "" (replicate (w - String.length s) "0") +:+ s.

(** The two hexadecimal digits of a byte *)
Definition hex2 (b : ascii) : string := setw_fill0 2 (to_hex (N_of_ascii b)).

(** Strings all of whose characters pass a test. *)
Fixpoint all_chars (P : ascii → bool) (s : string) : bool :=
  match s with
  | EmptyString => true
  | String c s' => P c && all_chars P s'
  end.

Definition no_newline (s : string) : bool :=
  all_chars (λ c, negb (Ascii.eqb c newline)) s.

Definition no_space (s : string) : bool :=
  all_chars (λ c, negb (Ascii.is_space c)) s.

(** A [std::map<std::string, std::string>] is a finite map that is iterated
    in the order of its keys. *)
Definition key_le (a b : string * string) : Prop := String.le a.1 b.1.

#[global] Instance key_le_dec : RelDecision key_le.
Proof. intros a b. unfold key_le. apply _. Defined.

Definition items (m : gmap string string) : list (string * string) :=
  merge_sort key_le (map_to_list m).

(** [m.count(k) ? m.at(k) : ""] *)
Definition at_or_empty (m : gmap string string) (k : string) : string :=
  default "" (m !! k).

(** The digits [std::hex] prints. *)
Definition hex_digit (c : ascii) : bool :=
  match find_char c "0123456789abcdef" with
  | Some _ => true
  | None => false
  end.

(** Strings without a given character. *)
Definition free_of (d : ascii) (s : string) : bool :=
  all_chars (λ c, negb (Ascii.eqb c d)) s.

(** Appended to the path of a directory, these names give a directory
    again: the directory itself or its parent. *)
Definition names_directory (name : string) : bool :=
  String.eqb name "" || String.eqb name "." || String.eqb name "..".

(** A file name: appended to the path of a directory it names an entry of
    that directory. *)
Definition plain_name (name : string) : bool :=
  negb (names_directory name) && free_of "/" name.

End Text.

Import Text.

(** Lines printed by a command, with the stream they go to. *)
Inductive stream := cout | cerr.

Definition line : Type := stream * string.

(** ** [MiniGit-Project.cpp] *)

Module Project.

Record CommitNode := mkCommitNode {
  hash : string;
  message : string;
  timestamp : string;
  parent_hash : string;
  parent_hashes : list string;
  tracked_files : gmap string string  (* filename -> blob hash *)
}.

(** What the commands read and write: the files under [.minigit], the
    staging area held by the [MiniGit] object, and the working directory. *)
Record repo := mkRepo {
  HEAD : option string;               (* .minigit/refs/HEAD *)
  heads : gmap string string;         (* .minigit/refs/heads/<branch> *)
  objects : gmap string string;       (* .minigit/objects/<hash> *)
  commits : gmap string string;       (* .minigit/commits/<hash> *)
  index : option string;              (* .minigit/index *)
  staging_area_ : gmap string string;
  worktree : gmap string string;
  has_heads : bool                    (* the directory .minigit/refs/heads exists *)
}.

(** [init] creates [objects], [commits] and [refs], and no command creates
    [refs/heads]: a repository has that directory when something else has
    made it, and only then does it hold branch files. *)

Definition with_HEAD (v : option string) (st : repo) : repo :=
  mkRepo v (heads st) (objects st) (commits st) (index st) (staging_area_ st) (worktree st)
    (has_heads st).
Definition with_heads (v : gmap string string) (st : repo) : repo :=
  mkRepo (HEAD st) v (objects st) (commits st) (index st) (staging_area_ st) (worktree st)
    (has_heads st).
Definition with_objects (v : gmap string string) (st : repo) : repo :=
  mkRepo (HEAD st) (heads st) v (commits st) (index st) (staging_area_ st) (worktree st)
    (has_heads st).
Definition with_commits (v : gmap string string) (st : repo) : repo :=
  mkRepo (HEAD st) (heads st) (objects st) v (index st) (staging_area_ st) (worktree st)
    (has_heads st).
Definition with_index (v : option string) (st : repo) : repo :=
  mkRepo (HEAD st) (heads st) (objects st) (commits st) v (staging_area_ st) (worktree st)
    (has_heads st).
Definition with_staging_area_ (v : gmap string string) (st : repo) : repo :=
  mkRepo (HEAD st) (heads st) (objects st) (commits st) (index st) v (worktree st)
    (has_heads st).
Definition with_worktree (v : gmap string string) (st : repo) : repo :=
  mkRepo (HEAD st) (heads st) (objects st) (commits st) (index st) (staging_area_ st) v
    (has_heads st).

(** The file behind a path relative to [.minigit]. *)
Definition file_at (st : repo) (path : string) : option string :=
  if starts_with "refs/heads/" path then heads st !! substr_from 11 path
  else if starts_with "objects/" path then objects st !! substr_from 8 path
  else if starts_with "commits/" path then commits st !! substr_from 8 path
  else if String.eqb path "refs/HEAD" then HEAD st
  else if String.eqb path "index" then index st
  else None.

(** What [fs::exists] finds at [refs/heads / name], with the text a stream
    opened on it delivers: a branch file, or, for a name that gives a
    directory (when [refs/heads] is there), a directory, from which
    [std::getline] reads nothing.  A name with a separator leads to another
    place, in the repository or out of it; such a name is not followed
    here, and the properties of [checkout] are stated for the other
    names. *)
Definition branch_file (st : repo) (name : string) : option string :=
  if names_directory name then (if has_heads st then Some "" else None)
  else heads st !! name.

Section WithSHA1.

(** OpenSSL's [SHA1]: byte [i] of the digest of a buffer. *)
Variable SHA1 : string → nat → ascii.

(** The order in which a [std::unordered_set] hands out its elements. *)
Variable unordered_order : gset string → list string.

Definition SHA_DIGEST_LENGTH : nat := 20.

Definition computeSHA1 (content : string) : string :=
  String.concat "" (map (λ i, hex2 (SHA1 content i)) (seq 0 SHA_DIGEST_LENGTH)).

Definition calculate_hash (c : CommitNode) : string :=
  computeSHA1
    (message c +:+ timestamp c +:+ parent_hash c
       +:+ String.concat "" (parent_hashes c)
       +:+ String.concat "" (map (λ p : string * string, p.1 +:+ p.2) (items (tracked_files c)))).

(** [CommitNode(msg, parent_h, files_map)]; [now] is the formatted local
    time the constructor reads from the clock. *)
Definition CommitNode_new (now msg parent_h : string)
    (files_map : gmap string string) : CommitNode :=
  let c := mkCommitNode "" msg now parent_h
             (if decide (parent_h = "") then [] else [parent_h]) files_map in
  mkCommitNode (calculate_hash c) msg now parent_h (parent_hashes c) files_map.

Definition add_parent (c : CommitNode) (parent_h : string) : CommitNode :=
  let ps := parent_hashes c ++ [parent_h] in
  mkCommitNode (hash c) (message c) (timestamp c)
    (if decide (length ps = 1) then hd "" ps else parent_hash c)
    ps (tracked_files c).

Definition save_staging_area (st : repo) : repo :=
  with_index
    (Some (String.concat ""
             (map (λ p : string * string, p.1 +:+ " " +:+ p.2 +:+ nl)
                  (items (staging_area_ st))))) st.

Definition save_blob (st : repo) (content : string) : repo * string :=
  let h := computeSHA1 content in
  match objects st !! h with
  | None => (with_objects (<[h := content]> (objects st)) st, h)
  | Some _ => (st, h)
  end.

(** The content of the object [h], for a hash that is not empty.  With an
    empty hash the path is the directory [objects] itself: it exists, and
    in the source the read through [std::istreambuf_iterator] then throws,
    which ends the process.  That outcome has no value here; the properties
    about what is read from a blob are stated for hashes that are not
    empty. *)
Definition read_blob (st : repo) (h : string) : string * list line :=
  if decide (h = "") then ("", [])
  else match objects st !! h with
       | None => ("", [(cerr, "Error: Blob object '" +:+ h +:+ "' not found.")])
       | Some content => (content, [])
       end.

Definition commit_text (c : CommitNode) : string :=
  "hash:" +:+ hash c +:+ nl
  +:+ "message:" +:+ message c +:+ nl
  +:+ "timestamp:" +:+ timestamp c +:+ nl
  +:+ "parent_hash:" +:+ String.concat "," (parent_hashes c) +:+ nl
  +:+ String.concat ""
        (map (λ p : string * string, "file:" +:+ p.1 +:+ ":" +:+ p.2 +:+ nl)
             (items (tracked_files c))).

Definition save_commit_object (st : repo) (c : CommitNode) : repo :=
  with_commits (<[hash c := commit_text c]> (commits st)) st.

(** The locals of [read_commit_object], updated line by line. *)
Record reader := mkReader {
  commit_hash_from_file : string;
  msg : string;
  ts : string;
  p_h_str : string;
  p_hs : list string;
  files_map : gmap string string
}.

Definition read_line (r : reader) (l : string) : reader :=
  if starts_with "hash:" l then
    mkReader (substr_from 5 l) (msg r) (ts r) (p_h_str r) (p_hs r) (files_map r)
  else if starts_with "message:" l then
    mkReader (commit_hash_from_file r) (substr_from 8 l) (ts r) (p_h_str r) (p_hs r) (files_map r)
  else if starts_with "timestamp:" l then
    mkReader (commit_hash_from_file r) (msg r) (substr_from 10 l) (p_h_str r) (p_hs r) (files_map r)
  else if starts_with "parent_hash:" l then
    let ps := p_hs r ++ split_on "," (substr_from 12 l) in
    mkReader (commit_hash_from_file r) (msg r) (ts r)
      (match ps with [] => p_h_str r | p :: _ => p end) ps (files_map r)
  else if starts_with "file:" l then
    let file_info := substr_from 5 l in
    match find_char ":" file_info with
    | Some first_colon =>
        mkReader (commit_hash_from_file r) (msg r) (ts r) (p_h_str r) (p_hs r)
          (<[substr_to first_colon file_info := substr_from (S first_colon) file_info]>
             (files_map r))
    | None => r
    end
  else r.

(** With an empty hash the path is the [commits] directory itself, which
    exists and yields no line. *)
Definition read_commit_object (now : string) (st : repo) (h : string) : CommitNode :=
  if decide (h = "") then mkCommitNode "" "" "" "" [] ∅
  else
    match commits st !! h with
    | None => CommitNode_new now "" "" ∅
    | Some text =>
        let r := foldl read_line (mkReader "" "" "" "" [] ∅) (lines text) in
        mkCommitNode (commit_hash_from_file r) (msg r) (ts r) (p_h_str r) (p_hs r) (files_map r)
    end.

Definition get_head_commit_hash (st : repo) : string :=
  match HEAD st with
  | None => ""
  | Some content =>
      let head_content := first_line content in
      if starts_with "ref: " head_content then
        match file_at st (substr_from 5 head_content) with
        | Some ref => first_line ref
        | None => head_content
        end
      else head_content
  end.

(** The branch file is opened and written without a test: where it cannot
    be opened (no directory [refs/heads], or a name that is not a file
    name) nothing is written and nothing is said. *)
Definition update_head (st : repo) (h : string) : repo :=
  let head_content := match HEAD st with Some content => first_line content | None => "" end in
  if starts_with "ref: refs/heads/" head_content then
    let branch_name := substr_from 16 head_content in
    if has_heads st && plain_name branch_name then
      with_heads (<[branch_name := h +:+ nl]> (heads st)) st
    else st
  else with_HEAD (Some (h +:+ nl)) st.

Definition get_current_branch_name (st : repo) : string :=
  match HEAD st with
  | None => "master"
  | Some content =>
      let head_content := first_line content in
      if starts_with "ref: refs/heads/" head_content then substr_from 16 head_content
      else "detached HEAD"
  end.

(** *** add and commit *)

(** The name is looked up among the regular files of the working
    directory.  (A name that exists as a directory, such as [.], is read
    like [read_blob] reads [objects]: the read throws.  That outcome has no
    value here; the property of [add] is stated for names that are not
    directories.) *)
Definition add (st : repo) (filename : string) : repo * list line :=
  match worktree st !! filename with
  | None => (st, [(cerr, "Error: File '" +:+ filename +:+ "' not found.")])
  | Some content =>
      let (st1, blob_hash) := save_blob st content in
      if decide (blob_hash = "") then
        (st1, [(cerr, "Error: Failed to save blob for " +:+ filename)])
      else
        (save_staging_area
           (with_staging_area_ (<[filename := blob_hash]> (staging_area_ st1)) st1),
         [(cout, "Added '" +:+ filename +:+ "' to staging area. Blob hash: " +:+ blob_hash)])
  end.

Definition commit (now : string) (st : repo) (message : string) : repo * list line :=
  if decide (staging_area_ st = ∅) then
    (st, [(cout, "Nothing to commit, working tree clean.")])
  else
    let parent_hash := get_head_commit_hash st in
    let parent_hash := if starts_with "ref: " parent_hash then "" else parent_hash in
    let new_commit := CommitNode_new now message parent_hash (staging_area_ st) in
    let st1 := save_commit_object st new_commit in
    let st2 := update_head st1 (hash new_commit) in
    (save_staging_area (with_staging_area_ ∅ st2),
     [(cout, "Committed: " +:+ message); (cout, "Commit Hash: " +:+ hash new_commit)]).

(** *** checkout *)

(** Writing the files of a commit (or of a merge result) into the working
    directory, with the diagnostics of [read_blob].  The directory has just
    been emptied, so a path opens when it is a file name; a path through a
    directory of the working tree does not open, and [warning] is what is
    printed then.  The properties are stated for paths that are file
    names. *)
Definition write_files (warning : string) (st : repo) (files : list (string * string))
    (wt : gmap string string) : gmap string string * list line :=
  foldl (λ (acc : gmap string string * list line) (file_pair : string * string),
           let (content, errs) := read_blob st file_pair.2 in
           if plain_name file_pair.1 then
             (<[file_pair.1 := content]> acc.1, acc.2 ++ errs)
           else (acc.1, acc.2 ++ errs ++ [(cerr, warning +:+ file_pair.1)]))
        (wt, []) files.

Definition restore (now : string) (st : repo) (commit_hash_to_checkout : string)
    : repo * list line :=
  if decide (commit_hash_to_checkout = "") then (st, [])
  else
    let st1 := with_worktree ∅ st in
    let commit := read_commit_object now st1 commit_hash_to_checkout in
    if decide (hash commit = "") then
      (st1, [(cerr, "Error: Could not read commit object for checkout.")])
    else
      let (wt, errs) :=
        write_files "Warning: Could not restore file " st1 (items (tracked_files commit)) ∅ in
      (with_worktree wt st1, errs).

Definition checkout (now : string) (st : repo) (target_ref : string) : repo * list line :=
  match branch_file st target_ref with
  | Some branch_text =>
      let commit_hash_to_checkout := first_line branch_text in
      let st1 := with_HEAD (Some ("ref: refs/heads/" +:+ target_ref +:+ nl)) st in
      let (st2, out) := restore now st1 commit_hash_to_checkout in
      (st2, (cout, "Switched to branch '" +:+ target_ref +:+ "'") :: out)
  | None =>
      if decide (String.length target_ref = 2 * SHA_DIGEST_LENGTH
                 ∧ is_Some (commits st !! target_ref)) then
        let st1 := with_HEAD (Some (target_ref +:+ nl)) st in
        let (st2, out) := restore now st1 target_ref in
        (st2, (cout, "Switched to commit '" +:+ target_ref +:+ "' (detached HEAD)") :: out)
      else
        (st, [(cerr, "Error: Reference '" +:+ target_ref +:+ "' not found.")])
  end.

(** *** merge *)

Fixpoint enqueue_parents (ps : list string) (ancestors : gset string) (q : list string)
    : gset string * list string :=
  match ps with
  | [] => (ancestors, q)
  | parent :: ps' =>
      if decide (parent ∈ ancestors) then enqueue_parents ps' ancestors q
      else enqueue_parents ps' ({[parent]} ∪ ancestors) (parent :: q)
  end.

(** The [while (!q.empty())] loop of [getAncestors].  The vector [q] is
    kept with its back at the head of the list; [None] means that the
    fuel ran out before the loop ended. *)
Fixpoint getAncestors_loop (fuel : nat) (now : string) (st : repo)
    (ancestors : gset string) (q : list string) {struct fuel} : option (gset string) :=
  match q with
  | [] => Some ancestors
  | current_hash :: q' =>
      match fuel with
      | O => None
      | S fuel' =>
          let commit := read_commit_object now st current_hash in
          if decide (hash commit = "") then getAncestors_loop fuel' now st ancestors q'
          else
            let (ancestors', q'') := enqueue_parents (parent_hashes commit) ancestors q' in
            getAncestors_loop fuel' now st ancestors' q''
      end
  end.

(** Every hash the traversal from [h] can meet: [h] and the parents named
    by the stored commits. *)
Definition known_hashes (now : string) (st : repo) (h : string) : gset string :=
  {[h]} ∪ ⋃ (map (λ k, list_to_set (parent_hashes (read_commit_object now st k)))
                 (elements (dom (commits st)))).

Definition getAncestors_fuel (now : string) (st : repo) (h : string) : nat :=
  2 * size (known_hashes now st h) + 1.

Definition getAncestors (now : string) (st : repo) (h : string) : option (gset string) :=
  let (ancestors, q) :=
    if decide (h = "") then (∅, []) else ({[h]} : gset string, [h]) in
  getAncestors_loop (getAncestors_fuel now st h) now st ancestors q.

Definition find_common_ancestor (now : string) (st : repo) (hash1 hash2 : string)
    : option CommitNode :=
  ancestors1 ← getAncestors now st hash1;
  ancestors2 ← getAncestors now st hash2;
  Some (match filter (λ anc, anc ∈ ancestors2) (unordered_order ancestors1) with
        | anc :: _ => read_commit_object now st anc
        | [] => CommitNode_new now "" "" ∅
        end).

(** The variables the two loops of [merge] update, together with the
    working directory and the lines printed so far. *)
Record merging := mkMerging {
  merged_files : gmap string string;
  conflict : bool;
  tree : gmap string string;
  printed : list line
}.

Definition conflict_text (current_content incoming_content : string) : string :=
  "<<<<<<< HEAD" +:+ nl +:+ current_content
  +:+ "=======" +:+ nl +:+ incoming_content
  +:+ ">>>>>>> incoming" +:+ nl.

Definition add_conflict_markers (filename current_content incoming_content : string)
    (m : merging) : merging :=
  mkMerging (merged_files m) (conflict m)
    (<[filename := conflict_text current_content incoming_content]> (tree m))
    (printed m ++ [(cout, "Conflict in " +:+ filename +:+ ". Markers added to file.")]).

(** [std::cerr << "CONFLICT ..."; conflict = true; add_conflict_markers(filename,
    read_blob(current_blob_hash), read_blob(target_blob_hash))]; the two
    reads are taken from left to right. *)
Definition report_conflict (st : repo) (what filename current_blob_hash target_blob_hash : string)
    (m : merging) : merging :=
  let (current_content, errs1) := read_blob st current_blob_hash in
  let (incoming_content, errs2) := read_blob st target_blob_hash in
  add_conflict_markers filename current_content incoming_content
    (mkMerging (merged_files m) true (tree m)
       (printed m ++ [(cerr, what)] ++ errs1 ++ errs2)).

Definition set_merged (f : gmap string string → gmap string string) (m : merging) : merging :=
  mkMerging (f (merged_files m)) (conflict m) (tree m) (printed m).

(** The body of the loop over the files of the target branch. *)
Definition merge_target_file (st : repo) (branch_name : string)
    (ancestor_files current_files target_files : gmap string string)
    (m : merging) (target_file_pair : string * string) : merging :=
  let filename := target_file_pair.1 in
  let target_blob_hash := target_file_pair.2 in
  let current_blob_hash := at_or_empty current_files filename in
  let ancestor_blob_hash := at_or_empty ancestor_files filename in
  if decide (current_blob_hash = "" ∧ ancestor_blob_hash = "") then
    set_merged (<[filename := target_blob_hash]>) m
  else if decide (current_blob_hash = "" ∧ ancestor_blob_hash ≠ "") then
    if decide (target_blob_hash ≠ ancestor_blob_hash) then
      report_conflict st
        ("CONFLICT (delete/modify): " +:+ filename
           +:+ " deleted in current, modified in " +:+ branch_name)
        filename current_blob_hash target_blob_hash m
    else set_merged (delete filename) m
  else if decide (current_blob_hash ≠ "" ∧ ancestor_blob_hash = "") then
    if decide (is_Some (target_files !! filename) ∧ target_blob_hash ≠ current_blob_hash) then
      report_conflict st
        ("CONFLICT (add/add): " +:+ filename +:+ " added differently")
        filename current_blob_hash target_blob_hash m
    else m
  else
    if decide (current_blob_hash = target_blob_hash) then m
    else if decide (current_blob_hash = ancestor_blob_hash) then
      set_merged (<[filename := target_blob_hash]>) m
    else if decide (target_blob_hash = ancestor_blob_hash) then m
    else
      report_conflict st ("CONFLICT (content): " +:+ filename)
        filename current_blob_hash target_blob_hash m.

(** The body of the loop over the files of the current commit. *)
Definition merge_current_file (st : repo) (branch_name : string)
    (ancestor_files target_files : gmap string string)
    (m : merging) (current_file_pair : string * string) : merging :=
  let filename := current_file_pair.1 in
  let current_blob_hash := current_file_pair.2 in
  let target_blob_hash := at_or_empty target_files filename in
  let ancestor_blob_hash := at_or_empty ancestor_files filename in
  if decide (target_files !! filename = None ∧ ancestor_blob_hash ≠ ""
             ∧ current_blob_hash = ancestor_blob_hash) then
    set_merged (delete filename) m
  else if decide (target_files !! filename = None ∧ ancestor_blob_hash ≠ ""
                  ∧ current_blob_hash ≠ ancestor_blob_hash) then
    report_conflict st
      ("CONFLICT (delete/modify): " +:+ filename +:+ " deleted in " +:+ branch_name
         +:+ ", modified in current")
      filename current_blob_hash target_blob_hash m
  else m.

Definition merge_loops (st : repo) (branch_name : string)
    (common_ancestor current_head_commit target_head_commit : CommitNode) : merging :=
  let m1 :=
    foldl (merge_target_file st branch_name (tracked_files common_ancestor)
             (tracked_files current_head_commit) (tracked_files target_head_commit))
          (mkMerging (tracked_files current_head_commit) false (worktree st) [])
          (items (tracked_files target_head_commit)) in
  foldl (merge_current_file st branch_name (tracked_files common_ancestor)
           (tracked_files target_head_commit))
        m1 (items (tracked_files current_head_commit)).

(** The hash [merge] takes for the current commit: [get_head_commit_hash],
    read once more through the branch file while it still is a [ref: ]. *)
Definition current_branch_head_hash (st : repo) : string :=
  let h := get_head_commit_hash st in
  if starts_with "ref: " h then
    match file_at st (substr_from 5 h) with
    | Some branch_file => first_line branch_file
    | None => h
    end
  else h.

Definition merge (now : string) (st : repo) (branch_name : string)
    : option (repo * list line) :=
  let current_hash := current_branch_head_hash st in
  match heads st !! branch_name with
  | None => Some (st, [(cerr, "Error: Branch '" +:+ branch_name +:+ "' does not exist.")])
  | Some target_branch_file =>
      let target_hash := first_line target_branch_file in
      if decide (current_hash = target_hash) then
        Some (st, [(cout, "Already up to date.")])
      else
        common_ancestor ← find_common_ancestor now st current_hash target_hash;
        if decide (hash common_ancestor = "") then
          Some (st, [(cerr, "Error: Could not find common ancestor.")])
        else
          let current_head_commit := read_commit_object now st current_hash in
          let target_head_commit := read_commit_object now st target_hash in
          let m := merge_loops st branch_name common_ancestor
                     current_head_commit target_head_commit in
          if conflict m then
            Some (with_worktree (tree m) st,
                  printed m
                    ++ [(cout, "Automatic merge failed; fix conflicts and then commit.")])
          else
            let (wt, errs) :=
              write_files "Warning: Could not write merged file " st
                (items (merged_files m)) ∅ in
            let st1 := with_worktree wt st in
            let merge_message :=
              "Merge branch '" +:+ branch_name +:+ "' into "
                +:+ get_current_branch_name st1 in
            let merge_commit :=
              add_parent
                (add_parent (CommitNode_new now merge_message "" (merged_files m))
                   current_hash)
                target_hash in
            let st2 := save_commit_object st1 merge_commit in
            let st3 := update_head st2 (hash merge_commit) in
            Some (save_staging_area (with_staging_area_ ∅ st3),
                  printed m ++ errs
                    ++ [(cout, "Merge successful. New commit: " +:+ hash merge_commit)])
  end.

(** *** Vocabulary of the properties *)

(** A target that [checkout] takes for a commit hash. *)
Definition is_commit_fingerprint (st : repo) (t : string) : Prop :=
  String.length t = 2 * SHA_DIGEST_LENGTH ∧ is_Some (commits st !! t).

Definition blob_content (st : repo) (h : string) : string := (read_blob st h).1.

(** [h] is the commit hash [checkout] derives from the target. *)
Definition checkout_resolves (st : repo) (target h : string) : Prop :=
  match heads st !! target with
  | Some branch_file => h = first_line branch_file
  | None => is_commit_fingerprint st target ∧ h = target
  end.

(** The text [checkout] writes into [HEAD] for a target. *)
Definition new_head (st : repo) (target : string) : string :=
  match heads st !! target with
  | Some _ => "ref: refs/heads/" +:+ target +:+ nl
  | None => target +:+ nl
  end.

(** The commit object is absent, or what is read from it has no hash. *)
Definition unreadable (now : string) (st : repo) (h : string) : Prop :=
  commits st !! h = None ∨ hash (read_commit_object now st h) = "".

Definition read_failure : line :=
  (cerr, "Error: Could not read commit object for checkout.").

(** A parent link of the stored graph: [p] is listed as a parent in the
    commit read for [x]. *)
Definition parent_link (now : string) (st : repo) (x p : string) : Prop :=
  p ∈ parent_hashes (read_commit_object now st x).

(** Every stored commit file carries its hash. *)
Definition hashes_recorded (now : string) (st : repo) : Prop :=
  ∀ k, is_Some (commits st !! k) → hash (read_commit_object now st k) ≠ "".

(** What the loop of [getAncestors] follows out of [x]. *)
Definition followed (now : string) (st : repo) (x : string) : list string :=
  if decide (hash (read_commit_object now st x) = "") then []
  else parent_hashes (read_commit_object now st x).

(** The invariant of the loop of [getAncestors] started at [h]. *)
Definition loop_inv (now : string) (st : repo) (h : string)
    (anc : gset string) (q : list string) : Prop :=
  h ∈ anc
  ∧ (∀ x, x ∈ q → x ∈ anc)
  ∧ anc ⊆ known_hashes now st h
  ∧ (∀ x, x ∈ anc → rtc (λ a b, b ∈ followed now st a) h x)
  ∧ (∀ x, x ∈ anc → x ∈ q ∨ ∀ p, p ∈ followed now st x → p ∈ anc).

(** The line [add_conflict_markers] prints for a path. *)
Definition marked (filename : string) : line :=
  (cout, "Conflict in " +:+ filename +:+ ". Markers added to file.").

Definition merge_failed : line :=
  (cout, "Automatic merge failed; fix conflicts and then commit.").

(** What the working directory holds for a conflicting path. *)
Definition markers_for (st : repo) (current_files target_files : gmap string string)
    (f : string) : string :=
  conflict_text (blob_content st (at_or_empty current_files f))
                (blob_content st (at_or_empty target_files f)).

(** The invariant of the two loops of [merge]. *)
Definition merging_inv (st : repo) (current_files target_files : gmap string string)
    (m : merging) : Prop :=
  (conflict m = true ↔ ∃ f, marked f ∈ printed m)
  ∧ ∀ f, (marked f ∈ printed m → tree m !! f = Some (markers_for st current_files target_files f))
         ∧ (marked f ∉ printed m → tree m !! f = worktree st !! f).

End WithSHA1.

(** *** The index file, [branch] and [log] *)

(** [while (ifs >> filename >> hash) staging_area_[filename] = hash;] on the
    text of the index.  A turn takes two words out of the text, so a text
    of [fuel] characters is read within [fuel] turns. *)
Fixpoint load_entries (fuel : nat) (text : string) (staging : gmap string string)
    {struct fuel} : gmap string string :=
  match fuel with
  | O => staging
  | S fuel' =>
      let (filename, r1) := extract text in
      if decide (filename = "") then staging
      else
        let (blob_hash, r2) := extract r1 in
        if decide (blob_hash = "") then staging
        else load_entries fuel' r2 (<[filename := blob_hash]> staging)
  end.

(** Called by the constructor of [MiniGit] when [.minigit] exists. *)
Definition load_staging_area (st : repo) : repo :=
  match index st with
  | None => with_staging_area_ ∅ st
  | Some text => with_staging_area_ (load_entries (String.length text) text ∅) st
  end.

(** In [branch] and in [log], as in [get_head_commit_hash], a reference
    that [file_at] does not find is one whose file does not exist: a
    reference names a file, never a directory of the layout.  The new branch
    file is opened and written without a test, as in [update_head]: where it
    cannot be opened nothing is written, and the branch is reported as
    created all the same. *)
Definition branch (st : repo) (branch_name : string) : repo * list line :=
  if decide (is_Some (branch_file st branch_name)) then
    (st, [(cout, "Branch '" +:+ branch_name +:+ "' already exists.")])
  else
    let head_commit_hash := get_head_commit_hash st in
    let head_commit_hash :=
      if starts_with "ref: " head_commit_hash then
        match file_at st (substr_from 5 head_commit_hash) with
        | Some branch_text => first_line branch_text
        | None => ""
        end
      else head_commit_hash in
    if decide (head_commit_hash = "") then
      (st, [(cout, "Cannot create branch: No commits yet.")])
    else
      ((if has_heads st && plain_name branch_name then
          with_heads (<[branch_name := head_commit_hash +:+ nl]> (heads st)) st
        else st),
       [(cout, "Branch '" +:+ branch_name +:+ "' created at " +:+ head_commit_hash)]).

(** The directory a command runs in: without [.minigit], or with it. *)
Inductive directory :=
| no_repository (working_files : gmap string string)
| repository (st : repo).

(** [init] creates [objects], [commits] and [refs] with the file [HEAD],
    and the empty index file; it does not create [refs/heads]. *)
Definition init (d : directory) : repo * list line :=
  match d with
  | repository st => (st, [(cout, "MiniGit repository already initialized.")])
  | no_repository working_files =>
      (save_staging_area
         (mkRepo (Some ("ref: refs/heads/master" +:+ nl)) ∅ ∅ ∅ None ∅ working_files false),
       [(cout, "Initialized empty MiniGit repository in .minigit")])
  end.

Section Log.

Variable SHA1 : string → nat → ascii.

(** What [log] prints for a commit. *)
Definition log_entry (c : CommitNode) : list line :=
  [(cout, "commit " +:+ hash c);
   (cout, "Date: " +:+ timestamp c);
   (cout, "    " +:+ message c);
   (cout, "")].

(** The [while] loop of [log]; [None]: out of fuel. *)
Fixpoint log_loop (fuel : nat) (now : string) (st : repo) (current_commit_hash : string)
    {struct fuel} : option (list line) :=
  if decide (current_commit_hash = "") then Some []
  else
    match fuel with
    | O => None
    | S fuel' =>
        let commit := read_commit_object SHA1 now st current_commit_hash in
        if decide (hash commit = "") then Some []
        else
          match parent_hashes commit with
          | [] => Some (log_entry commit)
          | first_parent :: _ =>
              rest ← log_loop fuel' now st first_parent;
              Some (log_entry commit ++ rest)
          end
    end.

Definition log (fuel : nat) (now : string) (st : repo) : option (list line) :=
  let from (current_commit_hash : string) :=
    if decide (current_commit_hash = "") then Some [(cout, "No commits yet.")]
    else log_loop fuel now st current_commit_hash in
  let current_commit_hash := get_head_commit_hash st in
  if starts_with "ref: " current_commit_hash then
    match file_at st (substr_from 5 current_commit_hash) with
    | Some branch_file => from (first_line branch_file)
    | None => Some [(cout, "No commits yet on this branch.")]
    end
  else from current_commit_hash.

(** A history as [log] walks it from [h]: the record read under [h], then
    the history of its first parent; the last record names no parent. *)
Fixpoint history (now : string) (st : repo) (h : string) (cs : list CommitNode) : Prop :=
  match cs with
  | [] => False
  | c :: cs' =>
      h ≠ "" ∧ c = read_commit_object SHA1 now st h ∧ hash c ≠ ""
      ∧ match cs' with
        | [] => parent_hashes c = []
        | _ :: _ => ∃ p, head (parent_hashes c) = Some p ∧ history now st p cs'
        end
  end.

End Log.

(** *** More vocabulary *)

(** A record that its commit file carries field by field: every field on
    one line, parents not empty and without a comma, paths without a
    colon. *)
Definition storable (c : CommitNode) : Prop :=
  hash c ≠ "" ∧ no_newline (hash c) = true
  ∧ no_newline (message c) = true ∧ no_newline (timestamp c) = true
  ∧ parent_hash c = hd "" (parent_hashes c)
  ∧ Forall (λ p, p ≠ "" ∧ free_of "," p = true ∧ no_newline p = true) (parent_hashes c)
  ∧ map_Forall (λ f h, free_of ":" f = true ∧ no_newline f = true ∧ no_newline h = true)
      (tracked_files c).

(** [HEAD] is attached to a branch: [update_head] writes the branch file. *)
Definition head_attached (st : repo) : Prop :=
  starts_with "ref: refs/heads/"
    (match HEAD st with Some content => first_line content | None => "" end) = true.

(** [update_head] can write: [HEAD] is not attached, or it is attached to a
    branch whose file opens. *)
Definition head_writable (st : repo) : Prop :=
  head_attached st →
  has_heads st = true
  ∧ plain_name (substr_from 16 (match HEAD st with
                                | Some content => first_line content
                                | None => ""
                                end)) = true.

(** Files that can be written back into the emptied working directory from
    blobs that can be read: the paths are file names and no fingerprint is
    empty. *)
Definition restorable (files : gmap string string) : Prop :=
  map_Forall (λ f h, plain_name f = true ∧ h ≠ "") files.


(** The parent [commit] gives to the new record: the hash [HEAD] resolves
    to, or none while the branch has no commit. *)
Definition commit_parent (st : repo) : string :=
  let parent_hash := get_head_commit_hash st in
  if starts_with "ref: " parent_hash then "" else parent_hash.

(** The line of the index file for an entry of the staging area. *)
Definition index_line (p : string * string) : string := p.1 +:+ " " +:+ p.2 +:+ nl.

(** The line of a commit file for an entry of the tree. *)
Definition file_line (p : string * string) : string := "file:" +:+ p.1 +:+ ":" +:+ p.2.

(** The paths the two loops of [merge] report as conflicts. *)
Definition conflicting (ancestor_files current_files target_files : gmap string string)
    (f : string) : Prop :=
  let a := at_or_empty ancestor_files f in
  let c := at_or_empty current_files f in
  match target_files !! f with
  | Some t =>
      (c = "" ∧ a ≠ "" ∧ t ≠ a)
      ∨ (c ≠ "" ∧ a = "" ∧ t ≠ c)
      ∨ (c ≠ "" ∧ a ≠ "" ∧ c ≠ t ∧ c ≠ a ∧ t ≠ a)
  | None => is_Some (current_files !! f) ∧ a ≠ "" ∧ c ≠ a
  end.

#[global] Instance conflicting_dec ancestor_files current_files target_files f :
  Decision (conflicting ancestor_files current_files target_files f).
Proof. unfold conflicting. destruct (target_files !! f); apply _. Defined.





End Project.

(** The clock as a command reads it: seconds since the epoch, and the local
    time formatted with ["%Y-%m-%d %H:%M:%S"]. *)
Record clock := mkClock {
  seconds : Z;
  local_time : string
}.

(** ** The edition with [generate_simple_hash], [find_lca] and [merge_file_maps] *)

Module Simple.

Record CommitNode := mkCommitNode {
  hash : string;
  message : string;
  timestamp : string;
  parent_hashes : list string;
  tracked_files : gmap string string  (* filename -> blob hash *)
}.

(** [CommitNode() = default] *)
Definition CommitNode_default : CommitNode := mkCommitNode "" "" "" [] ∅.

(** [CommitNode(msg, parents, files_map)] *)
Definition CommitNode_new (clk : clock) (msg : string) (parents : list string)
    (files_map : gmap string string) : CommitNode :=
  mkCommitNode "" msg (local_time clk) parents files_map.

Definition with_hash (h : string) (c : CommitNode) : CommitNode :=
  mkCommitNode h (message c) (timestamp c) (parent_hashes c) (tracked_files c).
Definition with_timestamp (t : string) (c : CommitNode) : CommitNode :=
  mkCommitNode (hash c) (message c) t (parent_hashes c) (tracked_files c).

Definition serialize (c : CommitNode) : string :=
  "tree" +:+ nl
  +:+ String.concat ""
        (map (λ p : string * string, "blob " +:+ p.2 +:+ " " +:+ p.1 +:+ nl)
             (items (tracked_files c)))
  +:+ String.concat "" (map (λ p, "parent " +:+ p +:+ nl) (parent_hashes c))
  +:+ "author MiniGit <minigit@example.com> " +:+ timestamp c +:+ nl
  +:+ "committer MiniGit <minigit@example.com> " +:+ timestamp c +:+ nl +:+ nl
  +:+ message c +:+ nl.

(** The locals of [deserialize], updated line by line. *)
Record parser := mkParser {
  msg : string;
  parents : list string;
  files : gmap string string;
  loaded_timestamp : string;
  in_message : bool
}.

Definition parse_line (s : parser) (l : string) : parser :=
  if bool_decide (l = "") && negb (in_message s) then
    mkParser (msg s) (parents s) (files s) (loaded_timestamp s) true
  else if in_message s then
    mkParser (msg s +:+ l +:+ nl) (parents s) (files s) (loaded_timestamp s) true
  else if starts_with "blob " l then
    let (type, r1) := extract l in
    let (blob_hash, r2) := extract r1 in
    let (filename, _) := extract r2 in
    mkParser (msg s) (parents s) (<[filename := blob_hash]> (files s))
      (loaded_timestamp s) false
  else if starts_with "parent " l then
    mkParser (msg s) (parents s ++ [substr_from 7 l]) (files s) (loaded_timestamp s) false
  else if starts_with "author " l then
    if decide (26 ≤ String.length l)%nat then
      mkParser (msg s) (parents s) (files s) (substr_from (String.length l - 19) l) false
    else s
  else s.

Definition deserialize (clk : clock) (hash_from_file content : string) : CommitNode :=
  let s := foldl parse_line (mkParser "" [] ∅ "" false) (lines content) in
  let c := with_hash hash_from_file
             (CommitNode_new clk (pop_newline (msg s)) (parents s) (files s)) in
  if decide (loaded_timestamp s = "") then c else with_timestamp (loaded_timestamp s) c.

Record repo := mkRepo {
  HEAD : option string;               (* .minigit/HEAD *)
  heads : gmap string string;         (* .minigit/refs/heads/<branch> *)
  objects : gmap string string;       (* .minigit/objects/<hash>: blobs and commits *)
  staging_area_ : gmap string string;
  worktree : gmap string string
}.

Definition with_HEAD (v : option string) (st : repo) : repo :=
  mkRepo v (heads st) (objects st) (staging_area_ st) (worktree st).
Definition with_heads (v : gmap string string) (st : repo) : repo :=
  mkRepo (HEAD st) v (objects st) (staging_area_ st) (worktree st).
Definition with_objects (v : gmap string string) (st : repo) : repo :=
  mkRepo (HEAD st) (heads st) v (staging_area_ st) (worktree st).
Definition with_staging_area_ (v : gmap string string) (st : repo) : repo :=
  mkRepo (HEAD st) (heads st) (objects st) v (worktree st).
Definition with_worktree (v : gmap string string) (st : repo) : repo :=
  mkRepo (HEAD st) (heads st) (objects st) (staging_area_ st) v.

(** The file behind a path relative to [.minigit], for reading and for
    writing. *)
Definition file_at (st : repo) (path : string) : option string :=
  if starts_with "refs/heads/" path then heads st !! substr_from 11 path
  else if starts_with "objects/" path then objects st !! substr_from 8 path
  else if String.eqb path "HEAD" then HEAD st
  else None.

Definition write_at (st : repo) (path content : string) : repo :=
  if starts_with "refs/heads/" path then
    with_heads (<[substr_from 11 path := content]> (heads st)) st
  else if starts_with "objects/" path then
    with_objects (<[substr_from 8 path := content]> (objects st)) st
  else if String.eqb path "HEAD" then with_HEAD (Some content) st
  else st.

Section WithHasher.

(** [std::hash<std::string>], a [size_t] *)
Variable hasher : string → N.

(** The order in which a [std::unordered_set] hands out its elements. *)
Variable unordered_order : gset string → list string.

(** The clock is read inside the function: [clk] is what it returns. *)
Definition generate_simple_hash (clk : clock) (content : string) : string :=
  let timestamp := seconds clk in
  let data_to_hash :=
    content +:+ to_string timestamp +:+ to_string (Z.of_N (hasher content)) in
  let content_hash := hasher data_to_hash in
  setw_fill0 16 (to_hex content_hash).

Definition save_blob (clk : clock) (st : repo) (content : string) : repo * string :=
  let h := generate_simple_hash clk content in
  (with_objects (<[h := content]> (objects st)) st, h).

(** The content of the object [h], for a hash that is not empty.  With an
    empty hash the path is the directory [objects] itself: it opens, and in
    the source the read through [std::istreambuf_iterator] then throws,
    which ends the process; that outcome has no value here.
    [merge_file_maps] does not call [read_blob] with an empty hash. *)
Definition read_blob (st : repo) (h : string) : string * list line :=
  if decide (h = "") then ("", [])
  else match objects st !! h with
       | None => ("", [(cerr, "Error: Cannot read blob " +:+ h)])
       | Some content => (content, [])
       end.

Definition save_commit (st : repo) (c : CommitNode) : repo :=
  with_objects (<[hash c := serialize c]> (objects st)) st.

(** With an empty hash the [objects] directory is opened and no byte is
    read from it. *)
Definition read_commit (clk : clock) (st : repo) (h : string) : CommitNode :=
  if decide (h = "") then deserialize clk h ""
  else
    match objects st !! h with
    | None => CommitNode_default
    | Some content => deserialize clk h content
    end.

Definition get_head_hash (st : repo) : string :=
  match HEAD st with
  | None => ""
  | Some content =>
      let l := first_line content in
      if starts_with "ref: " l then
        match file_at st (substr_from 5 l) with
        | None => ""
        | Some ref => first_line ref
        end
      else l
  end.

Definition update_head (st : repo) (new_hash : string) : repo * list line :=
  match HEAD st with
  | None => (st, [(cerr, "Error: HEAD file missing.")])
  | Some content =>
      let l := first_line content in
      if starts_with "ref: " l then (write_at st (substr_from 5 l) (new_hash +:+ nl), [])
      else (with_HEAD (Some (new_hash +:+ nl)) st, [])
  end.

Definition checkout_files (st : repo) (files : gmap string string) : repo * list line :=
  let (wt, errs) :=
    foldl (λ (acc : gmap string string * list line) (p : string * string),
             let (content, e) := read_blob st p.2 in
             (<[p.1 := content]> acc.1, acc.2 ++ e))
          (worktree st, []) (items files) in
  (with_worktree wt st, errs).

(** The first loop of [find_lca]: the queue is read from its front, a
    commit is marked when it is taken out.  [None]: out of fuel. *)
Fixpoint visit_loop (fuel : nat) (clk : clock) (st : repo)
    (visited : gset string) (q : list string) {struct fuel} : option (gset string) :=
  match q with
  | [] => Some visited
  | cur :: q' =>
      match fuel with
      | O => None
      | S fuel' =>
          let visited' := {[cur]} ∪ visited in
          let c := read_commit clk st cur in
          visit_loop fuel' clk st visited'
            (q' ++ filter (λ p, p ≠ "" ∧ p ∉ visited') (parent_hashes c))
      end
  end.

(** The second loop of [find_lca]. *)
Fixpoint search_loop (fuel : nat) (clk : clock) (st : repo)
    (visited : gset string) (q : list string) {struct fuel} : option string :=
  match q with
  | [] => Some ""
  | cur :: q' =>
      match fuel with
      | O => None
      | S fuel' =>
          if decide (cur ∈ visited) then Some cur
          else
            let c := read_commit clk st cur in
            search_loop fuel' clk st visited
              (q' ++ filter (λ p, p ≠ "") (parent_hashes c))
      end
  end.

Definition find_lca (fuel : nat) (clk : clock) (st : repo) (hash1 hash2 : string)
    : option string :=
  if decide (hash1 = "" ∨ hash2 = "") then Some ""
  else
    visited ← visit_loop fuel clk st ∅ [hash1];
    search_loop fuel clk st visited [hash2].

Definition conflict_text (ours theirs : string) : string :=
  "<<<<<<< OURS" +:+ nl +:+ ours +:+ nl +:+ "=======" +:+ nl +:+ theirs +:+ nl
  +:+ ">>>>>>> THEIRS" +:+ nl.

Definition write_conflict_file (st : repo) (filename ours theirs : string) : repo :=
  with_worktree (<[filename := conflict_text ours theirs]> (worktree st)) st.

(** The variables of [merge_file_maps], with the repository (for the
    conflict files) and the lines printed. *)
Record merging := mkMerging {
  merged : gmap string string;
  has_conflict : bool;
  repo_of : repo;
  printed : list line
}.

Definition merge_file (base ours theirs : gmap string string)
    (m : merging) (f : string) : merging :=
  let base_hash := at_or_empty base f in
  let our_hash := at_or_empty ours f in
  let their_hash := at_or_empty theirs f in
  if decide (our_hash = their_hash) then
    mkMerging (<[f := our_hash]> (merged m)) (has_conflict m) (repo_of m) (printed m)
  else if decide (base_hash = our_hash) then
    mkMerging (<[f := their_hash]> (merged m)) (has_conflict m) (repo_of m) (printed m)
  else if decide (base_hash = their_hash) then
    mkMerging (<[f := our_hash]> (merged m)) (has_conflict m) (repo_of m) (printed m)
  else
    let (our_content, e1) :=
      if decide (our_hash = "") then ("", []) else read_blob (repo_of m) our_hash in
    let (their_content, e2) :=
      if decide (their_hash = "") then ("", []) else read_blob (repo_of m) their_hash in
    mkMerging (<[f := ""]> (merged m)) true
      (write_conflict_file (repo_of m) f our_content their_content)
      (printed m ++ e1 ++ e2).

Definition merge_file_maps (st : repo) (base ours theirs : gmap string string) : merging :=
  let all_files : gset string := dom base ∪ dom ours ∪ dom theirs in
  foldl (merge_file base ours theirs) (mkMerging ∅ false st [])
        (unordered_order all_files).

Definition add (clk : clock) (st : repo) (filename : string) : repo * list line :=
  match worktree st !! filename with
  | None => (st, [(cerr, "Error: File not found: " +:+ filename)])
  | Some content =>
      let (st1, blob_hash) := save_blob clk st content in
      if decide (blob_hash = "") then (st1, [])
      else
        (with_staging_area_ (<[filename := blob_hash]> (staging_area_ st1)) st1,
         [(cout, "Staged " +:+ filename +:+ " with blob hash " +:+ blob_hash)])
  end.

Definition commit (clk : clock) (st : repo) (message : string) : repo * list line :=
  if decide (staging_area_ st = ∅) then (st, [(cout, "Nothing to commit.")])
  else
    let parent_hash := get_head_hash st in
    let parents := if decide (parent_hash = "") then [] else [parent_hash] in
    let new_commit := CommitNode_new clk message parents (staging_area_ st) in
    let new_commit := with_hash (generate_simple_hash clk (serialize new_commit)) new_commit in
    let st1 := save_commit st new_commit in
    let (st2, errs) := update_head st1 (hash new_commit) in
    (with_staging_area_ ∅ st2,
     errs ++ [(cout, "Committed: " +:+ substr_to 7 (hash new_commit) +:+ " " +:+ message)]).

Definition merge (fuel : nat) (clk : clock) (st : repo) (branch_name : string)
    : option (repo * list line) :=
  match heads st !! branch_name with
  | None => Some (st, [(cerr, "Branch '" +:+ branch_name +:+ "' does not exist.")])
  | Some branch_file =>
      let current_hash := get_head_hash st in
      if decide (current_hash = "") then
        Some (st, [(cerr, "No commits to merge into.")])
      else
        let their_hash := first_line branch_file in
        lca_hash ← find_lca fuel clk st current_hash their_hash;
        if decide (lca_hash = "") then
          Some (st, [(cerr, "No common ancestor found. Cannot merge.")])
        else
          let base_commit := read_commit clk st lca_hash in
          let our_commit := read_commit clk st current_hash in
          let their_commit := read_commit clk st their_hash in
          let m := merge_file_maps st (tracked_files base_commit)
                     (tracked_files our_commit) (tracked_files their_commit) in
          let out1 :=
            if has_conflict m then [(cout, "Merge has conflicts! Resolve them manually.")]
            else [(cout, "Merge completed without conflicts.")] in
          let merge_commit :=
            CommitNode_new clk ("Merge branch '" +:+ branch_name +:+ "'")
              [current_hash; their_hash] (merged m) in
          let merge_commit :=
            with_hash (generate_simple_hash clk (serialize merge_commit)) merge_commit in
          let st1 := save_commit (repo_of m) merge_commit in
          let (st2, errs2) := update_head st1 (hash merge_commit) in
          let (st3, errs3) := checkout_files st2 (merged m) in
          Some (st3,
                printed m ++ out1 ++ errs2 ++ errs3
                  ++ [(cout, "Merge commit created: " +:+ substr_to 7 (hash merge_commit))])
  end.

(** *** Vocabulary of the properties *)

(** A parent link as [find_lca] follows it: empty names are skipped. *)
Definition parent_link (clk : clock) (st : repo) (x p : string) : Prop :=
  p ∈ parent_hashes (read_commit clk st x) ∧ p ≠ "".

(** Every hash the first loop of [find_lca] can meet from [h]. *)
Definition known_hashes (clk : clock) (st : repo) (h : string) : gset string :=
  {[h]} ∪ ⋃ (map (λ k, list_to_set (parent_hashes (read_commit clk st k)))
                 (elements (dom (objects st)))).

(** The invariant of the first loop of [find_lca] started at [h]. *)
Definition visit_inv (clk : clock) (st : repo) (h : string)
    (visited : gset string) (q : list string) : Prop :=
  (∀ v p, v ∈ visited → parent_link clk st v p → p ∈ visited ∨ p ∈ q)
  ∧ (∀ x, x ∈ visited ∨ x ∈ q → rtc (parent_link clk st) h x)
  ∧ (h ∈ visited ∨ h ∈ q)
  ∧ (∀ x, x ∈ visited ∨ x ∈ q → x ∈ known_hashes clk st h).

(** The queue after one turn of that loop. *)
Definition next_queue (clk : clock) (st : repo) (visited : gset string)
    (cur : string) (q : list string) : list string :=
  q ++ filter (λ p, p ≠ "" ∧ p ∉ {[cur]} ∪ visited) (parent_hashes (read_commit clk st cur)).

(** The paths [merge_file_maps] takes for conflicts. *)
Definition conflicts (base ours theirs : gmap string string) (f : string) : Prop :=
  at_or_empty ours f ≠ at_or_empty theirs f
  ∧ at_or_empty base f ≠ at_or_empty ours f
  ∧ at_or_empty base f ≠ at_or_empty theirs f.

Definition markers_for (st : repo) (ours theirs : gmap string string) (f : string) : string :=
  conflict_text (read_blob st (at_or_empty ours f)).1
                (read_blob st (at_or_empty theirs f)).1.


(** The invariant of the loop of [merge_file_maps], with the paths done. *)
Definition merging_inv (st : repo) (base ours theirs : gmap string string)
    (done : list string) (m : merging) : Prop :=
  objects (repo_of m) = objects st
  ∧ ∀ f, f ∈ done → conflicts base ours theirs f →
         worktree (repo_of m) !! f = Some (markers_for st ours theirs f).

End WithHasher.

(** *** The remaining commands *)

(** The directory a command runs in: without [.minigit], or with it. *)
Inductive directory :=
| no_repository (working_files : gmap string string)
| repository (st : repo).

Definition init (d : directory) : repo * list line :=
  match d with
  | repository st => (st, [(cout, "MiniGit repository already exists.")])
  | no_repository working_files =>
      (mkRepo (Some ("ref: refs/heads/main" +:+ nl)) {[ "main" := "" ]} ∅ ∅ working_files,
       [(cout, "Initialized empty MiniGit repository in .minigit")])
  end.

(** What [log] prints for a commit. *)
Definition log_entry (c : CommitNode) : list line :=
  [(cout, "commit " +:+ hash c);
   (cout, "Date: " +:+ timestamp c);
   (cout, "");
   (cout, "    " +:+ message c);
   (cout, "")].

(** The [while] loop of [log]; [None]: out of fuel. *)
Fixpoint log_loop (fuel : nat) (clk : clock) (st : repo) (current : string)
    {struct fuel} : option (list line) :=
  if decide (current = "") then Some []
  else
    match fuel with
    | O => None
    | S fuel' =>
        let c := read_commit clk st current in
        if decide (hash c = "") then Some []
        else
          match parent_hashes c with
          | [] => Some (log_entry c)
          | first_parent :: _ =>
              rest ← log_loop fuel' clk st first_parent;
              Some (log_entry c ++ rest)
          end
    end.

(** A history as [log] walks it from [h]: the record read under [h], then
    the history of its first parent; the last record names no parent, or an
    empty one. *)
Fixpoint history (clk : clock) (st : repo) (h : string) (cs : list CommitNode) : Prop :=
  match cs with
  | [] => False
  | c :: cs' =>
      h ≠ "" ∧ c = read_commit clk st h ∧ hash c ≠ ""
      ∧ match cs' with
        | [] => head (parent_hashes c) = None ∨ head (parent_hashes c) = Some ""
        | _ :: _ => ∃ p, head (parent_hashes c) = Some p ∧ history clk st p cs'
        end
  end.

Definition log (fuel : nat) (clk : clock) (st : repo) : option (list line) :=
  let current := get_head_hash st in
  if decide (current = "") then Some [(cout, "No commits yet.")]
  else log_loop fuel clk st current.

(** With an empty name the path is the directory [refs/heads] itself, which
    exists.  The branch file is opened and written without a test: a name
    that is not a file name (empty, or with a directory part, which
    [refs/heads] does not have) does not open, so that nothing is written,
    and the branch is reported as created all the same. *)
Definition branch (st : repo) (branch_name : string) : repo * list line :=
  let out :=
    if decide (branch_name = "" ∨ is_Some (heads st !! branch_name)) then
      [(cout, "Branch '" +:+ branch_name +:+ "' already exists. Updating it.")]
    else [] in
  let head_hash := get_head_hash st in
  if decide (head_hash = "") then
    (st, out ++ [(cerr, "No commits yet. Commit before creating branches.")])
  else
    ((if plain_name branch_name then
        with_heads (<[branch_name := head_hash +:+ nl]> (heads st)) st
      else st),
     out ++ [(cout, "Branch '" +:+ branch_name +:+ "' created at " +:+ substr_to 7 head_hash)]).

(** The end of [checkout], once [HEAD] is written. *)
Definition checkout_commit (clk : clock) (st : repo) (name target_commit_hash : string)
    : repo * list line :=
  let commit := read_commit clk st target_commit_hash in
  if decide (hash commit = "") then
    (st, [(cerr, "Failed to read commit " +:+ target_commit_hash)])
  else
    let (st1, errs) := checkout_files st (tracked_files commit) in
    (st1, errs ++ [(cout, "Checked out '" +:+ name +:+ "' at commit "
                            +:+ substr_to 7 target_commit_hash)]).

(** With an empty name the branch path is the directory [refs/heads], from
    which no line is read. *)
Definition checkout (clk : clock) (st : repo) (name : string) : repo * list line :=
  match (if decide (name = "") then Some "" else heads st !! name) with
  | Some branch_file =>
      let target_commit_hash := first_line branch_file in
      if decide (target_commit_hash = "") then
        (st, [(cerr, "Branch " +:+ name +:+ " has no commits yet.")])
      else
        checkout_commit clk (with_HEAD (Some ("ref: refs/heads/" +:+ name +:+ nl)) st)
          name target_commit_hash
  | None =>
      match objects st !! name with
      | None => (st, [(cerr, "Commit or branch '" +:+ name +:+ "' does not exist.")])
      | Some _ => checkout_commit clk (with_HEAD (Some (name +:+ nl)) st) name name
      end
  end.

(** *** [main] *)

Definition usage : list line :=
  [(cout, "Usage: minigit <command> [args]");
   (cout, "Commands:");
   (cout, "  init                   Initialize a new MiniGit repository");
   (cout, "  add <filename>         Add file to staging area");
   (cout, "  commit <message>       Commit staged files with message");
   (cout, "  log                    Show commit history");
   (cout, "  branch <branch_name>   Create a new branch");
   (cout, "  checkout <name>        Checkout branch or commit");
   (cout, "  merge <branch_name>    Merge branch into current branch")].

(** [MiniGit minigit;]: the staging area of a new process is empty. *)
Definition MiniGit_new (d : directory) : directory :=
  match d with
  | no_repository working_files => d
  | repository st => repository (with_staging_area_ ∅ st)
  end.

(** A command other than [init]: in a repository, or where no file under
    [.minigit] can be opened (what it prints then is [outside]). *)
Definition run (d : directory) (inside : repo → option (repo * list line))
    (outside : gmap string string → list line) : option (directory * list line * Z) :=
  match d with
  | repository st =>
      r ← inside st;
      Some (repository r.1, r.2, 0%Z)
  | no_repository working_files => Some (d, outside working_files, 0%Z)
  end.

(** [message] of [main]: the arguments joined by single spaces. *)
Definition join_words (args : list string) : string := String.concat " " args.

Section Main.

Variable hasher : string → N.
Variable unordered_order : gset string → list string.

Definition main (fuel : nat) (clk : clock) (d : directory) (argv : list string)
    : option (directory * list line * Z) :=
  let minigit := MiniGit_new d in
  match argv with
  | [] | [_] => Some (minigit, usage, 1%Z)
  | _ :: command :: args =>
      if decide (command = "init") then
        let (st, out) := init minigit in Some (repository st, out, 0%Z)
      else if decide (command = "add") then
        match args with
        | [] => Some (minigit, [(cerr, "Error: 'add' command requires a filename.")], 1%Z)
        | filename :: _ =>
            run minigit (λ st, Some (add hasher clk st filename))
              (λ working_files,
                 match working_files !! filename with
                 | None => [(cerr, "Error: File not found: " +:+ filename)]
                 | Some _ => [(cerr, "Error: Cannot save blob.")]
                 end)
        end
      else if decide (command = "commit") then
        match args with
        | [] => Some (minigit, [(cerr, "Error: 'commit' command requires a commit message.")], 1%Z)
        | _ =>
            run minigit (λ st, Some (commit hasher clk st (join_words args)))
              (λ _, [(cout, "Nothing to commit.")])
        end
      else if decide (command = "log") then
        run minigit (λ st, out ← log fuel clk st; Some (st, out))
          (λ _, [(cout, "No commits yet.")])
      else if decide (command = "branch") then
        match args with
        | [] => Some (minigit, [(cerr, "Error: 'branch' command requires a branch name.")], 1%Z)
        | branch_name :: _ =>
            run minigit (λ st, Some (branch st branch_name))
              (λ _, [(cerr, "No commits yet. Commit before creating branches.")])
        end
      else if decide (command = "checkout") then
        match args with
        | [] => Some (minigit,
                      [(cerr, "Error: 'checkout' command requires a branch name or commit hash.")],
                      1%Z)
        | name :: _ =>
            run minigit (λ st, Some (checkout clk st name))
              (λ _, [(cerr, "Commit or branch '" +:+ name +:+ "' does not exist.")])
        end
      else if decide (command = "merge") then
        match args with
        | [] => Some (minigit, [(cerr, "Error: 'merge' command requires a branch name.")], 1%Z)
        | branch_name :: _ =>
            run minigit (λ st, merge hasher unordered_order fuel clk st branch_name)
              (λ _, [(cerr, "Branch '" +:+ branch_name +:+ "' does not exist.")])
        end
      else Some (minigit, [(cerr, "Error: Unknown command '" +:+ command +:+ "'.")], 1%Z)
  end.
End Main.

(** *** More vocabulary *)

(** [HEAD] names a branch under [refs/heads], or it holds a hash. *)
Definition plain_HEAD (st : repo) : Prop :=
  ∃ content, HEAD st = Some content
    ∧ (starts_with "ref: " (first_line content) = true →
       starts_with "ref: refs/heads/" (first_line content) = true).

(** The parents [commit] gives to the new record. *)
Definition commit_parents (st : repo) : list string :=
  if decide (get_head_hash st = "") then [] else [get_head_hash st].

(** What [merge_file_maps] puts in the merged map for a path. *)
Definition merged_hash (base ours theirs : gmap string string) (f : string) : string :=
  let base_hash := at_or_empty base f in
  let our_hash := at_or_empty ours f in
  let their_hash := at_or_empty theirs f in
  if decide (our_hash = their_hash) then our_hash
  else if decide (base_hash = our_hash) then their_hash
  else if decide (base_hash = their_hash) then our_hash
  else "".

(** [h] is the commit hash [checkout] derives from a name: the first line
    of the branch file, or the name itself when an object has that name. *)
Definition checkout_resolves (st : repo) (name h : string) : Prop :=
  match heads st !! name with
  | Some branch_file => h = first_line branch_file ∧ h ≠ ""
  | None => is_Some (objects st !! name) ∧ h = name
  end.

(** The text [checkout] writes into [HEAD] then. *)
Definition new_head (st : repo) (name : string) : string :=
  match heads st !! name with
  | Some _ => "ref: refs/heads/" +:+ name +:+ nl
  | None => name +:+ nl
  end.

End Simple.

(** ** [Branching.cpp]: a commit with one parent *)

Module Branching.

Record CommitNode := mkCommitNode {
  hash : string;
  message : string;
  timestamp : string;
  parent_hash : string;
  parent_hashes : list string;   (* declared, never filled in this edition *)
  tracked_files : gmap string string
}.

(** [CommitNode(msg, parent_h, files_map)] *)
Definition CommitNode_new (clk : clock) (msg parent_h : string)
    (files_map : gmap string string) : CommitNode :=
  mkCommitNode "" msg (local_time clk) parent_h [] files_map.

Definition serialize (c : CommitNode) : string :=
  "tree" +:+ nl
  +:+ String.concat ""
        (map (λ p : string * string, "blob " +:+ p.2 +:+ " " +:+ p.1 +:+ nl)
             (items (tracked_files c)))
  +:+ "parent " +:+ parent_hash c +:+ nl
  +:+ "author Your Name <your.email@example.com> " +:+ timestamp c +:+ nl
  +:+ "committer Your Name <your.email@example.com> " +:+ timestamp c +:+ nl
  +:+ nl
  +:+ message c +:+ nl.

(** [s.rfind(c, pos)]: the last index at most [pos] that holds [c]. *)
Fixpoint rfind_char (c : ascii) (pos : nat) (s : string) : option nat :=
  match s with
  | EmptyString => None
  | String a s' =>
      let here := if Ascii.eqb a c then Some O else None in
      match pos with
      | O => here
      | S pos' => match rfind_char c pos' s' with
                  | Some i => Some (S i)
                  | None => here
                  end
      end
  end.

Record parser := mkParser {
  msg : string;
  parent : string;
  files : gmap string string;
  loaded_timestamp : string;
  in_message_block : bool
}.

(** [line.rfind(" ", line.length() - 1 - 19)]: on a line shorter than 20
    characters the unsigned position wraps around and the whole line is
    searched. *)
Definition date_time_start (l : string) : option nat :=
  let len := String.length l in
  rfind_char " " (if decide (len < 20)%nat then len else len - 20) l.

Definition parse_line (s : parser) (l : string) : parser :=
  if bool_decide (l = "") && negb (in_message_block s) then
    mkParser (msg s) (parent s) (files s) (loaded_timestamp s) true
  else if in_message_block s then
    mkParser (msg s +:+ l +:+ nl) (parent s) (files s) (loaded_timestamp s) true
  else if starts_with "blob " l then
    let (type, r1) := extract l in
    let (hash_val, r2) := extract r1 in
    let (filename, _) := extract r2 in
    mkParser (msg s) (parent s) (<[filename := hash_val]> (files s))
      (loaded_timestamp s) false
  else if starts_with "parent " l then
    mkParser (msg s) (substr_from 7 l) (files s) (loaded_timestamp s) false
  else if starts_with "author " l then
    match date_time_start l with
    | Some i =>
        mkParser (msg s) (parent s) (files s) (substr_to 19 (substr_from (S i) l)) false
    | None => s
    end
  else s.

Definition deserialize (clk : clock) (commit_hash_from_filename content : string)
    : CommitNode :=
  let s := foldl parse_line (mkParser "" "" ∅ "" false) (lines content) in
  let commit := CommitNode_new clk (pop_newline (msg s)) (parent s) (files s) in
  mkCommitNode commit_hash_from_filename (message commit)
    (if decide (loaded_timestamp s = "") then timestamp commit else loaded_timestamp s)
    (parent_hash commit) (parent_hashes commit) (tracked_files commit).

(** *** The repository and the commands of [Branching.cpp] *)

Record repo := mkRepo {
  HEAD : option string;               (* .minigit/HEAD *)
  heads : gmap string string;         (* .minigit/refs/heads/<branch> *)
  objects : gmap string string;       (* .minigit/objects/<hash>: blobs and commits *)
  staging_area_ : gmap string string;
  worktree : gmap string string
}.

Definition with_HEAD (v : option string) (st : repo) : repo :=
  mkRepo v (heads st) (objects st) (staging_area_ st) (worktree st).
Definition with_heads (v : gmap string string) (st : repo) : repo :=
  mkRepo (HEAD st) v (objects st) (staging_area_ st) (worktree st).
Definition with_objects (v : gmap string string) (st : repo) : repo :=
  mkRepo (HEAD st) (heads st) v (staging_area_ st) (worktree st).
Definition with_staging_area_ (v : gmap string string) (st : repo) : repo :=
  mkRepo (HEAD st) (heads st) (objects st) v (worktree st).

(** The directory a command runs in: without [.minigit], or with it. *)
Inductive directory :=
| no_repository (working_files : gmap string string)
| repository (st : repo).

(** The file behind a path relative to [.minigit]. *)
Definition file_at (st : repo) (path : string) : option string :=
  if starts_with "refs/heads/" path then heads st !! substr_from 11 path
  else if starts_with "objects/" path then objects st !! substr_from 8 path
  else if String.eqb path "HEAD" then HEAD st
  else None.

(** Opening the file behind a path for writing: a file of a directory of
    the layout can be opened, the directory itself cannot.  The model holds
    the files of the layout only; a path outside of it is treated like one
    that cannot be opened. *)
Definition write_at (st : repo) (path content : string) : option repo :=
  if starts_with "refs/heads/" path then
    if decide (substr_from 11 path = "") then None
    else Some (with_heads (<[substr_from 11 path := content]> (heads st)) st)
  else if starts_with "objects/" path then
    if decide (substr_from 8 path = "") then None
    else Some (with_objects (<[substr_from 8 path := content]> (objects st)) st)
  else if String.eqb path "HEAD" then Some (with_HEAD (Some content) st)
  else None.

Definition init (d : directory) : repo * list line :=
  match d with
  | repository st =>
      (st, [(cout, "Reinitialized existing MiniGit repository in .minigit")])
  | no_repository working_files =>
      (mkRepo (Some ("ref: refs/heads/main" +:+ nl)) {[ "main" := "" ]} ∅ ∅ working_files,
       [(cout, "Initialized empty MiniGit repository in .minigit")])
  end.

Definition get_head_commit_hash (st : repo) : string :=
  match HEAD st with
  | None => ""
  | Some content =>
      let head_content := first_line content in
      if starts_with "ref: " head_content then
        match file_at st (substr_from 5 head_content) with
        | Some ref => first_line ref
        | None => ""
        end
      else head_content
  end.

(** [head_exists] is false for a file without a line. *)
Definition update_head (st : repo) (commit_hash : string) : repo * list line :=
  match (match HEAD st with Some content => head (lines content) | None => None end) with
  | None => (st, [(cerr, "Error: HEAD file not found during update.")])
  | Some head_content =>
      if starts_with "ref: " head_content then
        let ref_path := substr_from 5 head_content in
        match write_at st ref_path (commit_hash +:+ nl) with
        | Some st' => (st', [])
        | None =>
            (st, [(cerr, "Error: Could not update branch ref file: .minigit/" +:+ ref_path)])
        end
      else (with_HEAD (Some (commit_hash +:+ nl)) st, [])
  end.

Definition with_hash (h : string) (c : CommitNode) : CommitNode :=
  mkCommitNode h (message c) (timestamp c) (parent_hash c) (parent_hashes c) (tracked_files c).

Definition save_commit_object (st : repo) (c : CommitNode) : repo :=
  with_objects (<[hash c := serialize c]> (objects st)) st.

(** A file that cannot be opened, or the directory [objects] itself, gives
    no content. *)
Definition read_commit_object (clk : clock) (st : repo) (commit_hash : string) : CommitNode :=
  let content := default "" (objects st !! commit_hash) in
  if decide (content = "") then CommitNode_new clk "" "" ∅
  else deserialize clk commit_hash content.

Section WithHasher.

(** [std::hash<std::string>], a [size_t] *)
Variable hasher : string → N.

Definition generate_simple_hash (clk : clock) (content : string) : string :=
  let timestamp := seconds clk in
  let data_to_hash :=
    content +:+ to_string timestamp +:+ to_string (Z.of_N (hasher content)) in
  let content_hash := hasher data_to_hash in
  setw_fill0 32 (to_hex content_hash).

Definition save_blob (clk : clock) (st : repo) (file_content : string) : repo * string :=
  let h := generate_simple_hash clk file_content in
  (with_objects (<[h := file_content]> (objects st)) st, h).

Definition add (clk : clock) (d : directory) (filename : string) : directory * list line :=
  match d with
  | no_repository _ =>
      (d, [(cerr, "Error: Not a minigit repository. Please run 'minigit init' first.")])
  | repository st =>
      match worktree st !! filename with
      | None => (d, [(cerr, "Error: File '" +:+ filename +:+ "' not found.")])
      | Some content =>
          let (st1, blob_hash) := save_blob clk st content in
          if decide (blob_hash = "") then (repository st1, [])
          else
            (repository
               (with_staging_area_ (<[filename := blob_hash]> (staging_area_ st1)) st1),
             [(cout, "Staged file: " +:+ filename +:+ " with blob hash: " +:+ blob_hash)])
      end
  end.

Definition commit (clk : clock) (d : directory) (message : string) : directory * list line :=
  match d with
  | no_repository _ =>
      (d, [(cerr, "Error: Not a minigit repository (or any of the parent directories): .minigit");
           (cerr, "Please run 'minigit init' first.")])
  | repository st =>
      if decide (staging_area_ st = ∅) then
        (d, [(cout, "Nothing to commit, working tree clean")])
      else
        let parent_commit_hash := get_head_commit_hash st in
        let new_commit := CommitNode_new clk message parent_commit_hash (staging_area_ st) in
        let new_commit :=
          with_hash (generate_simple_hash clk (serialize new_commit)) new_commit in
        let st1 := save_commit_object st new_commit in
        let (st2, errs) := update_head st1 (hash new_commit) in
        (repository (with_staging_area_ ∅ st2),
         errs ++ [(cout, "Committed successfully: " +:+ substr_to 7 (hash new_commit)
                           +:+ " " +:+ message)])
  end.

End WithHasher.

(** What [log] prints for a commit. *)
Definition log_entry (c : CommitNode) : list line :=
  [(cout, "commit " +:+ hash c);
   (cout, "Date:   " +:+ timestamp c);
   (cout, "");
   (cout, "    " +:+ message c);
   (cout, "")].

(** The [while] loop of [log]; [None]: out of fuel. *)
Fixpoint log_loop (fuel : nat) (clk : clock) (st : repo) (current_commit_hash : string)
    {struct fuel} : option (list line) :=
  if decide (current_commit_hash = "") then Some []
  else
    match fuel with
    | O => None
    | S fuel' =>
        let commit := read_commit_object clk st current_commit_hash in
        if decide (hash commit = "") then
          Some [(cerr, "Error: Could not read commit object for hash: "
                         +:+ current_commit_hash)]
        else
          rest ← log_loop fuel' clk st (parent_hash commit);
          Some (log_entry commit ++ rest)
    end.

Definition log (fuel : nat) (clk : clock) (d : directory) : option (list line) :=
  match d with
  | no_repository _ =>
      Some [(cerr, "Error: Not a minigit repository (or any of the parent directories): .minigit")]
  | repository st =>
      let current_commit_hash := get_head_commit_hash st in
      if decide (current_commit_hash = "") then
        Some [(cout, "Commit History:"); (cout, "No commits yet.")]
      else
        rest ← log_loop fuel clk st current_commit_hash;
        Some ((cout, "Commit History:") :: rest)
  end.

(** The branch file opens for a file name.  A name that gives a directory
    ([.], [..]) exists and does not open; a name with a directory part does
    not open either, [refs/heads] having no directory in it. *)
Definition branch (d : directory) (branch_name : string) : directory * list line :=
  match d with
  | no_repository _ =>
      (d, [(cerr, "Error: Not a minigit repository. Please run 'minigit init' first.")])
  | repository st =>
      if decide (branch_name = "") then (d, [(cerr, "Error: Branch name cannot be empty.")])
      else
        let current_commit_hash := get_head_commit_hash st in
        if decide (current_commit_hash = "") then
          (d, [(cerr, "Error: Cannot create a branch when no commits exist. Make an initial commit first.")])
        else
          let out :=
            if decide (names_directory branch_name = true ∨ is_Some (heads st !! branch_name))
            then
              [(cout, "Warning: Branch '" +:+ branch_name
                        +:+ "' already exists. Its reference will be updated.")]
            else [] in
          if plain_name branch_name then
            (repository
               (with_heads (<[branch_name := current_commit_hash +:+ nl]> (heads st)) st),
             out ++ [(cout, "Branch '" +:+ branch_name +:+ "' created, pointing to commit "
                              +:+ substr_to 7 current_commit_hash)])
          else
            (d, out ++ [(cerr, "Error: Could not create branch file for '" +:+ branch_name
                                 +:+ "' at .minigit/refs/heads/" +:+ branch_name)])
  end.

(** *** Vocabulary of the properties *)

(** [HEAD] names a branch under [refs/heads], or it holds a hash. *)
Definition plain_HEAD (st : repo) : Prop :=
  ∃ content l, HEAD st = Some content ∧ head (lines content) = Some l
    ∧ (starts_with "ref: " l = true →
       starts_with "ref: refs/heads/" l = true ∧ substr_from 16 l ≠ "").

(** A history as [log] walks it from [h]: the record read under [h], then
    the history of its parent; the last record has no parent. *)
Fixpoint history (clk : clock) (st : repo) (h : string) (cs : list CommitNode) : Prop :=
  match cs with
  | [] => h = ""
  | c :: cs' =>
      h ≠ "" ∧ c = read_commit_object clk st h ∧ hash c ≠ ""
      ∧ history clk st (parent_hash c) cs'
  end.

End Branching.

(** ** Commit records that the text format can carry *)

(** An entry of the tree: a path and a blob hash, both non-empty and free of
    white space. *)
Definition wf_entry (p : string * string) : Prop :=
  p.1 ≠ "" ∧ p.2 ≠ "" ∧ no_space p.1 = true ∧ no_space p.2 = true.

(** A time stamp [YYYY-MM-DD HH:MM:SS]: nineteen characters on one line. *)
Definition wf_timestamp (t : string) : Prop :=
  String.length t = 19 ∧ no_newline t = true.

Definition simple_well_formed (c : Simple.CommitNode) : Prop :=
  wf_timestamp (Simple.timestamp c)
  ∧ Forall (λ p, no_newline p = true) (Simple.parent_hashes c)
  ∧ map_Forall (λ f h, wf_entry (f, h)) (Simple.tracked_files c).

Definition branching_well_formed (c : Branching.CommitNode) : Prop :=
  wf_timestamp (Branching.timestamp c)
  ∧ no_newline (Branching.parent_hash c) = true
  ∧ map_Forall (λ f h, wf_entry (f, h)) (Branching.tracked_files c).

(** The lines of a serialized commit. *)
Definition blob_line (p : string * string) : string := "blob " +:+ p.2 +:+ " " +:+ p.1.
Definition parent_line (p : string) : string := "parent " +:+ p.
Definition simple_author_line (t : string) : string :=
  "author MiniGit <minigit@example.com> " +:+ t.
Definition simple_committer_line (t : string) : string :=
  "committer MiniGit <minigit@example.com> " +:+ t.
Definition branching_author_line (t : string) : string :=
  "author Your Name <your.email@example.com> " +:+ t.
Definition branching_committer_line (t : string) : string :=
  "committer Your Name <your.email@example.com> " +:+ t.

(** The message block as the parsers rebuild it. *)
Definition unlines (ls : list string) : string :=
  String.concat "" (map (λ l, l +:+ nl) ls).



(** ** Concrete repositories and records *)

Module Sample.

(** FNV-1a on 64 bits, the function one standard library uses for
    [std::hash<std::string>]. *)
Definition fnv1a (s : string) : N :=
  foldl (λ h c, (N.lxor h (N_of_ascii c) * 1099511628211) mod 2 ^ 64)%N
        14695981039346656037%N (list_ascii_of_string s).

(** A stand-in for the digest: twenty bytes drawn from [fnv1a]. *)
Definition digest (content : string) (i : nat) : ascii :=
  ascii_of_N (fnv1a (content +:+ to_string (Z.of_nat i)) mod 256).

Definition elements_order (s : gset string) : list string := elements s.

Definition noon : string := "2024-05-01 12:00:00".
Definition clk1 : clock := mkClock 1714564800 noon.
Definition clk2 : clock := mkClock 1714564801 "2024-05-01 12:00:01".

(** A repository of [MiniGit-Project.cpp] whose branch [main] names a commit
    file without a [hash:] line. *)
Definition broken : Project.repo :=
  Project.mkRepo (Some ("ref: refs/heads/main" +:+ nl))
    {[ "main" := "c1" +:+ nl ]} ∅
    {[ "c1" := "message:first" +:+ nl ]} None ∅ {[ "a.txt" := "hello" ]} true.

(** A repository whose branch [main] names a commit that has no file;
    [HEAD] is on [dev]. *)
Definition dangling : Project.repo :=
  Project.mkRepo (Some ("ref: refs/heads/dev" +:+ nl))
    {[ "dev" := ""; "main" := "c1" +:+ nl ]} ∅ ∅ None ∅ {[ "a.txt" := "hello" ]} true.

(** Two branches that left a common commit: [main] changed [z], [feat]
    changed [z] and [y]; [main] is checked out. *)
Definition base_commit : Project.CommitNode :=
  Project.mkCommitNode "c0" "base" noon "" [] {[ "y" := "h1"; "z" := "hA" ]}.
Definition main_commit : Project.CommitNode :=
  Project.mkCommitNode "c1" "ours" noon "c0" ["c0"] {[ "y" := "h1"; "z" := "hB" ]}.
Definition feat_commit : Project.CommitNode :=
  Project.mkCommitNode "c2" "theirs" noon "c0" ["c0"] {[ "y" := "h2"; "z" := "hC" ]}.

Definition diverged : Project.repo :=
  Project.mkRepo (Some ("ref: refs/heads/main" +:+ nl))
    {[ "main" := "c1" +:+ nl; "feat" := "c2" +:+ nl ]}
    {[ "h1" := "1"; "h2" := "2"; "hA" := "A"; "hB" := "B"; "hC" := "C" ]}
    {[ "c0" := Project.commit_text base_commit;
       "c1" := Project.commit_text main_commit;
       "c2" := Project.commit_text feat_commit ]}
    (Some "") ∅
    {[ "y" := "1"; "z" := "B" ]} true.

(** The other edition right after [init], with one file in the working
    directory, then after [add a.txt] and [commit first]. *)
Definition fresh : Simple.repo :=
  Simple.mkRepo (Some ("ref: refs/heads/main" +:+ nl)) {[ "main" := "" ]} ∅ ∅
    {[ "a.txt" := "hello" +:+ nl ]}.
Definition staged : Simple.repo := (Simple.add fnv1a clk1 fresh "a.txt").1.
Definition committed : Simple.repo := (Simple.commit fnv1a clk1 staged "first").1.

(** The same divergence on [z] in the other edition. *)
Definition simple_base : Simple.CommitNode :=
  Simple.mkCommitNode "s0" "base" noon [] {[ "z" := "hA" ]}.
Definition simple_ours : Simple.CommitNode :=
  Simple.mkCommitNode "s1" "ours" noon ["s0"] {[ "z" := "hB" ]}.
Definition simple_theirs : Simple.CommitNode :=
  Simple.mkCommitNode "s2" "theirs" noon ["s0"] {[ "z" := "hC" ]}.

Definition simple_diverged : Simple.repo :=
  Simple.mkRepo (Some ("ref: refs/heads/main" +:+ nl))
    {[ "main" := "s1" +:+ nl; "feat" := "s2" +:+ nl ]}
    {[ "hA" := "A"; "hB" := "B"; "hC" := "C";
       "s0" := Simple.serialize simple_base;
       "s1" := Simple.serialize simple_ours;
       "s2" := Simple.serialize simple_theirs ]}
    ∅ {[ "z" := "B" ]}.

(** Commit records whose message has several lines, one of them blank. *)
Definition note : Simple.CommitNode :=
  Simple.mkCommitNode "" ("Fix the parser" +:+ nl +:+ nl +:+ "It lost blank lines.") noon
    ["8f483326b13c8cd6"; "258962bdfd33bced"]
    {[ "a.txt" := "5e6a27755fd1610a"; "main.cpp" := "0123456789abcdef" ]}.

Definition branching_note : Branching.CommitNode :=
  Branching.mkCommitNode "" ("Fix the parser" +:+ nl +:+ nl +:+ "It lost blank lines.") noon
    "8f483326b13c8cd6" [] {[ "a.txt" := "5e6a27755fd1610a" ]}.


(** [diverged] after [add y]. *)
Definition diverged_staged : Project.repo := (Project.add digest diverged "y").1.

(** A directory with one file after [init] and [add a.txt] of
    [MiniGit-Project.cpp]. *)
Definition initialized : Project.repo :=
  (Project.init (Project.no_repository {[ "a.txt" := "hello" ]})).1.
Definition initialized_staged : Project.repo := (Project.add digest initialized "a.txt").1.

(** Two branches that left [base_commit] and changed different files:
    [main] changed [y], [feat] changed [z]; [main] is checked out. *)
Definition apart_main : Project.CommitNode :=
  Project.mkCommitNode "c1" "ours" noon "c0" ["c0"] {[ "y" := "h2"; "z" := "hA" ]}.
Definition apart_feat : Project.CommitNode :=
  Project.mkCommitNode "c2" "theirs" noon "c0" ["c0"] {[ "y" := "h1"; "z" := "hC" ]}.

Definition apart : Project.repo :=
  Project.mkRepo (Some ("ref: refs/heads/main" +:+ nl))
    {[ "main" := "c1" +:+ nl; "feat" := "c2" +:+ nl ]}
    {[ "h1" := "1"; "h2" := "2"; "hA" := "A"; "hB" := "B"; "hC" := "C" ]}
    {[ "c0" := Project.commit_text base_commit;
       "c1" := Project.commit_text apart_main;
       "c2" := Project.commit_text apart_feat ]}
    (Some "") ∅
    {[ "y" := "2"; "z" := "A"; "notes.txt" := "not tracked" ]} true.


(** [Branching.cpp]: a directory with one file after [init], after
    [add a.txt], and after a first [commit]. *)
Definition in_repository (d : Branching.directory) : Branching.repo :=
  match d with
  | Branching.repository st => st
  | Branching.no_repository working_files => Branching.mkRepo None ∅ ∅ ∅ working_files
  end.
Definition branching_fresh : Branching.repo :=
  (Branching.init (Branching.no_repository {[ "a.txt" := "hello" ]})).1.
Definition branching_staged : Branching.repo :=
  in_repository (Branching.add fnv1a clk1 (Branching.repository branching_fresh) "a.txt").1.
Definition branching_committed : Branching.repo :=
  in_repository (Branching.commit fnv1a clk1 (Branching.repository branching_staged) "first").1.
(** [branching_staged] after the file [HEAD] was removed. *)
Definition branching_headless : Branching.repo := Branching.with_HEAD None branching_staged.

End Sample.

(** * Properties *)

#[local] Arguments String.append !s1 s2 : simpl nomatch.
#[local] Set Warnings "-clear-no-such-hyp".

(** ** Facts about the text helpers *)

Lemma app_assoc_s (a b c : string) : (a +:+ b) +:+ c = a +:+ (b +:+ c).
Proof. induction a as [|x a IH]; simpl; [done | by f_equal]. Qed.

Lemma app_empty_r (a : string) : a +:+ "" = a.
Proof. induction a as [|x a IH]; simpl; [done | by f_equal]. Qed.

Lemma length_app_s (a b : string) :
  String.length (a +:+ b) = String.length a + String.length b.
Proof. induction a as [|x a IH]; simpl; [done | by f_equal]. Qed.

Lemma app_inv_tail_s (a b c : string) : a +:+ c = b +:+ c → a = b.
Proof.
  revert b. induction a as [|x a IH]; intros [|y b] H; simpl in *.
  - done.
  - apply (f_equal String.length) in H. simpl in H. rewrite length_app_s in H. lia.
  - apply (f_equal String.length) in H. simpl in H. rewrite length_app_s in H. lia.
  - injection H as -> H. f_equal. by apply IH.
Qed.

Lemma substr_from_app (p s : string) : substr_from (String.length p) (p +:+ s) = s.
Proof. induction p as [|x p IH]; simpl; [by destruct s | done]. Qed.

Lemma substr_to_all (s : string) : substr_to (String.length s) s = s.
Proof. induction s as [|x s IH]; simpl; [done | by f_equal]. Qed.

Lemma starts_with_app (p s : string) : starts_with p (p +:+ s) = true.
Proof.
  unfold starts_with. induction p as [|x p IH]; simpl; [by destruct s |].
  destruct (ascii_dec x x); [done | congruence].
Qed.

Lemma split_on_nonempty d (s : string) : split_on d s = [] → s = "".
Proof.
  destruct s as [|c s]; [done |]. simpl.
  destruct (Ascii.eqb c d); [done |]. by destruct (split_on d s).
Qed.

Lemma split_on_line d (l rest : string) :
  all_chars (λ c, negb (Ascii.eqb c d)) l = true →
  split_on d (l +:+ String d rest) = l :: split_on d rest.
Proof.
  induction l as [|c l IH]; simpl; intros H.
  - by rewrite Ascii.eqb_refl.
  - apply andb_prop in H as [Hc Hl]. apply negb_true_iff in Hc. rewrite Hc.
    by rewrite (IH Hl).
Qed.

Lemma lines_line (l rest : string) :
  no_newline l = true → lines (l +:+ nl +:+ rest) = l :: lines rest.
Proof. intros H. by apply split_on_line. Qed.

Lemma first_line_line (l rest : string) :
  no_newline l = true → first_line (l +:+ nl +:+ rest) = l.
Proof. intros H. unfold first_line. by rewrite lines_line. Qed.

Lemma no_space_no_newline (s : string) : no_space s = true → no_newline s = true.
Proof.
  unfold no_space, no_newline. induction s as [|c s IH]; simpl; [done |].
  intros [Hc Hs]%andb_prop. rewrite (IH Hs), andb_true_r.
  destruct (Ascii.eqb_spec c newline) as [->|]; [done | done].
Qed.

Lemma all_chars_app P (a b : string) :
  all_chars P (a +:+ b) = all_chars P a && all_chars P b.
Proof. induction a as [|x a IH]; simpl; [done | by rewrite IH, andb_assoc]. Qed.

(** The message block: joining the lines again gives the text back. *)
Lemma concat_cons_s (x : string) (xs : list string) :
  String.concat "" (x :: xs) = x +:+ String.concat "" xs.
Proof. destruct xs; simpl; [by rewrite app_empty_r | done]. Qed.

Lemma unlines_cons l ls : unlines (l :: ls) = l +:+ nl +:+ unlines ls.
Proof. unfold unlines. rewrite map_cons, concat_cons_s. by rewrite app_assoc_s. Qed.

Lemma unlines_lines (m : string) : unlines (lines (m +:+ nl)) = m +:+ nl.
Proof.
  induction m as [|c m IH]; [done |].
  change (lines (String c m +:+ nl)) with (split_on newline (String c (m +:+ nl))).
  simpl. destruct (Ascii.eqb_spec c newline) as [->|Hc].
  - rewrite unlines_cons. simpl. f_equal. exact IH.
  - fold (lines (m +:+ nl)). destruct (lines (m +:+ nl)) as [|l ls] eqn:E.
    + apply split_on_nonempty in E. by destruct m.
    + rewrite unlines_cons in *. simpl. f_equal. exact IH.
Qed.

Lemma pop_newline_app (m : string) : pop_newline (m +:+ nl) = m.
Proof.
  induction m as [|c m IH]; [done |]. simpl.
  destruct (m +:+ nl) eqn:E; [by destruct m |]. by rewrite IH.
Qed.

Lemma take_word_app (t r : string) :
  no_space t = true →
  (r = "" ∨ ∃ c r', r = String c r' ∧ Ascii.is_space c = true) →
  take_word (t +:+ r) = (t, r).
Proof.
  intros Ht Hr. induction t as [|c t IH]; simpl.
  - destruct Hr as [->|(c & r' & -> & Hc)]; [done |]. simpl. by rewrite Hc.
  - simpl in Ht. apply andb_prop in Ht as [Hc Ht]. apply negb_true_iff in Hc.
    rewrite Hc, (IH Ht). done.
Qed.

Lemma extract_word (t r : string) :
  t ≠ "" → no_space t = true →
  (r = "" ∨ ∃ c r', r = String c r' ∧ Ascii.is_space c = true) →
  extract (" " +:+ t +:+ r) = (t, r).
Proof.
  intros Hne Ht Hr. destruct t as [|c t]; [done |].
  pose proof Ht as Ht'. simpl in Ht'.
  apply andb_prop in Ht' as [Hc _]. apply negb_true_iff in Hc.
  unfold extract. simpl. rewrite Hc.
  change (String c (t +:+ r)) with (String c t +:+ r).
  by apply take_word_app.
Qed.

(** ** Facts about [items] *)

Lemma items_perm (m : gmap string string) : items m ≡ₚ map_to_list m.
Proof. apply merge_sort_Permutation. Qed.

Lemma items_NoDup (m : gmap string string) : NoDup (items m).*1.
Proof. rewrite items_perm. apply NoDup_fst_map_to_list. Qed.

Lemma items_elem (m : gmap string string) f h : (f, h) ∈ items m ↔ m !! f = Some h.
Proof. rewrite items_perm. apply elem_of_map_to_list. Qed.

Lemma items_to_map (m : gmap string string) : list_to_map (items m) = m.
Proof.
  rewrite (list_to_map_proper (items m) (map_to_list m)).
  - apply list_to_map_to_list.
  - apply items_NoDup.
  - apply items_perm.
Qed.

Lemma items_empty : items ∅ = [].
Proof. apply Permutation_nil_r. rewrite items_perm. by rewrite map_to_list_empty. Qed.

Lemma foldl_insert_lookup (g : string → string) (l : list (string * string))
    (acc : gmap string string) (k : string) :
  NoDup l.*1 →
  foldl (λ a p, <[p.1 := g p.2]> a) acc l !! k
  = match (list_to_map l : gmap string string) !! k with
    | Some h => Some (g h)
    | None => acc !! k
    end.
Proof.
  revert acc. induction l as [|[f h] l IH]; intros acc Hnd; simpl; [done |].
  apply NoDup_cons in Hnd as [Hf Hnd]. rewrite (IH _ Hnd).
  destruct (decide (k = f)) as [->|Hne].
  - rewrite lookup_insert_eq.
    assert ((list_to_map l : gmap string string) !! f = None) as ->
      by by apply not_elem_of_list_to_map_1.
    by rewrite lookup_insert_eq.
  - rewrite !lookup_insert_ne by done. done.
Qed.

Lemma foldl_insert_items (g : string → string) (m : gmap string string) :
  foldl (λ a p, <[p.1 := g p.2]> a) ∅ (items m) = g <$> m.
Proof.
  apply map_eq. intros k. rewrite foldl_insert_lookup by apply items_NoDup.
  rewrite items_to_map, lookup_fmap. destruct (m !! k); [done |]. apply lookup_empty.
Qed.

Lemma foldl_inv {A B} (P : A → Prop) (Q : B → Prop) (f : A → B → A) (l : list B) (a : A) :
  (∀ a b, Q b → P a → P (f a b)) → Forall Q l → P a → P (foldl f a l).
Proof.
  intros Hf Hl. revert a. induction Hl as [|b l Hb Hl IH]; intros a Ha; simpl; [done |].
  apply IH. by apply Hf.
Qed.

Lemma filter_none {A} (P : A → Prop) `{!∀ x, Decision (P x)} (l : list A) :
  (∀ x, x ∈ l → ¬ P x) → filter P l = [].
Proof.
  intros Hl. destruct (filter P l) as [|x l'] eqn:E; [done |].
  assert (x ∈ filter P l) as Hx by (rewrite E; apply list_elem_of_here).
  apply list_elem_of_filter in Hx as [HP Hx]. by destruct (Hl x Hx).
Qed.

(** ** The commit text read back *)

Module SimpleText.
Import Simple.

Lemma lines_block {A} (g : A → string) (xs : list A) (rest : string) :
  Forall (λ x, no_newline (g x) = true) xs →
  lines (String.concat "" (map (λ x, g x +:+ nl) xs) +:+ rest) = map g xs ++ lines rest.
Proof.
  induction 1 as [|x xs Hx Hxs IH]; [done |].
  rewrite map_cons, concat_cons_s, !app_assoc_s, lines_line by done.
  simpl. by rewrite IH.
Qed.

Lemma blob_line_no_newline p : wf_entry p → no_newline (blob_line p) = true.
Proof.
  intros (_ & _ & H1 & H2). unfold blob_line, no_newline.
  rewrite !all_chars_app. fold (no_newline p.2) (no_newline p.1).
  rewrite (no_space_no_newline p.2), (no_space_no_newline p.1) by done. done.
Qed.

Lemma simple_serialize_lines (c : CommitNode) :
  Forall wf_entry (items (tracked_files c)) →
  Forall (λ p, no_newline p = true) (parent_hashes c) →
  no_newline (timestamp c) = true →
  lines (serialize c)
  = ["tree"] ++ map blob_line (items (tracked_files c))
      ++ map parent_line (parent_hashes c)
      ++ [simple_author_line (timestamp c); simple_committer_line (timestamp c); ""]
      ++ lines (message c +:+ nl).
Proof.
  intros Hf Hp Ht. unfold serialize.
  rewrite (lines_line "tree") by done. cbn [app]. f_equal.
  rewrite (map_ext _ (λ p, blob_line p +:+ nl)).
  2:{ intros p. unfold blob_line. by rewrite !app_assoc_s. }
  rewrite lines_block.
  2:{ eapply Forall_impl; [exact Hf |]. apply blob_line_no_newline. }
  f_equal.
  rewrite (map_ext _ (λ p, parent_line p +:+ nl)).
  2:{ intros p. unfold parent_line. by rewrite !app_assoc_s. }
  rewrite lines_block.
  2:{ eapply Forall_impl; [exact Hp |]. intros p Hp'. unfold parent_line, no_newline.
      rewrite all_chars_app. fold (no_newline p). by rewrite Hp'. }
  f_equal.
  assert (∀ p, no_newline (p +:+ timestamp c) = no_newline p) as Hnl.
  { intros p. unfold no_newline. rewrite all_chars_app. fold (no_newline (timestamp c)).
    by rewrite Ht, andb_true_r. }
  rewrite <- (app_assoc_s "author MiniGit <minigit@example.com> " (timestamp c)).
  rewrite lines_line by by rewrite Hnl.
  rewrite <- (app_assoc_s "committer MiniGit <minigit@example.com> " (timestamp c)).
  rewrite lines_line by by rewrite Hnl.
  exact (f_equal (λ x, _ :: _ :: x) (lines_line "" (message c +:+ nl) eq_refl)).
Qed.

Lemma extract_blob_line p :
  wf_entry p → extract (blob_line p) = ("blob", " " +:+ p.2 +:+ " " +:+ p.1).
Proof.
  intros (H1 & H2 & H3 & H4). unfold blob_line.
  change ("blob " +:+ ?r) with ("blob" +:+ " " +:+ r).
  unfold extract. change (skip_ws ("blob" +:+ ?r)) with ("blob" +:+ r).
  apply take_word_app; [done |]. right. by exists " "%char, (p.2 +:+ " " +:+ p.1).
Qed.

Lemma simple_parse_blob_line s p :
  in_message s = false → wf_entry p →
  parse_line s (blob_line p)
  = mkParser (msg s) (parents s) (<[p.1 := p.2]> (files s)) (loaded_timestamp s) false.
Proof.
  intros Hs Hp. pose proof Hp as (H1 & H2 & H3 & H4). unfold parse_line. rewrite Hs.
  rewrite extract_blob_line by done.
  rewrite (extract_word p.2 (" " +:+ p.1));
    [| first [done | right; by exists " "%char, p.1] ..].
  rewrite <- (app_empty_r (" " +:+ p.1)), app_assoc_s.
  rewrite (extract_word p.1 ""); [| first [done | by left] ..].
  unfold blob_line. rewrite starts_with_app. done.
Qed.

Lemma simple_parse_blob_lines its : ∀ s,
  in_message s = false → Forall wf_entry its →
  foldl parse_line s (map blob_line its)
  = mkParser (msg s) (parents s) (foldl (λ a p, <[p.1 := id p.2]> a) (files s) its)
      (loaded_timestamp s) false.
Proof.
  induction its as [|p its IH]; intros s Hs Hwf; simpl.
  - destruct s; simpl in *; by subst.
  - apply Forall_cons in Hwf as [Hp Hwf]. rewrite simple_parse_blob_line by done.
    by rewrite IH.
Qed.

Lemma simple_parse_parent_line s p :
  in_message s = false →
  parse_line s (parent_line p)
  = mkParser (msg s) (parents s ++ [p]) (files s) (loaded_timestamp s) false.
Proof.
  intros Hs. unfold parse_line, parent_line. rewrite Hs, (starts_with_app "parent " p).
  simpl. reflexivity.
Qed.

Lemma simple_parse_parent_lines ps : ∀ s,
  in_message s = false →
  foldl parse_line s (map parent_line ps)
  = mkParser (msg s) (parents s ++ ps) (files s) (loaded_timestamp s) false.
Proof.
  induction ps as [|p ps IH]; intros s Hs; simpl.
  - rewrite app_nil_r. destruct s; simpl in *; by subst.
  - rewrite simple_parse_parent_line by done. rewrite IH by done.
    cbn [msg parents files loaded_timestamp]. by rewrite <- app_assoc.
Qed.

Lemma simple_parse_author_line s t :
  in_message s = false → String.length t = 19 →
  parse_line s (simple_author_line t)
  = mkParser (msg s) (parents s) (files s) t false.
Proof.
  intros Hs Ht. unfold parse_line. rewrite Hs.
  assert (String.length (simple_author_line t) = 56) as Hlen
    by (unfold simple_author_line; rewrite length_app_s, Ht; done).
  rewrite Hlen.
  change (56 - 19) with (String.length "author MiniGit <minigit@example.com> ").
  unfold simple_author_line. rewrite substr_from_app.
  simpl. reflexivity.
Qed.

Lemma simple_parse_committer_line s t :
  in_message s = false → parse_line s (simple_committer_line t) = s.
Proof. intros Hs. unfold parse_line, simple_committer_line. rewrite Hs. simpl. reflexivity. Qed.

Lemma simple_parse_message_lines ls : ∀ s,
  in_message s = true →
  foldl parse_line s ls
  = mkParser (msg s +:+ unlines ls) (parents s) (files s) (loaded_timestamp s) true.
Proof.
  induction ls as [|l ls IH]; intros s Hs; simpl.
  - unfold unlines. simpl. rewrite app_empty_r. destruct s; simpl in *; by subst.
  - rewrite IH.
    + unfold parse_line. rewrite Hs, andb_false_r. simpl.
      by rewrite unlines_cons, !app_assoc_s.
    + unfold parse_line. rewrite Hs, andb_false_r. done.
Qed.

Lemma simple_parse_serialized (c : CommitNode) :
  Forall wf_entry (items (tracked_files c)) →
  Forall (λ p, no_newline p = true) (parent_hashes c) →
  wf_timestamp (timestamp c) →
  foldl parse_line (mkParser "" [] ∅ "" false) (lines (serialize c))
  = mkParser (message c +:+ nl) (parent_hashes c) (tracked_files c) (timestamp c) true.
Proof.
  intros Hf Hp [Hlen Ht]. rewrite simple_serialize_lines by done.
  rewrite !foldl_app. simpl foldl at 4.
  rewrite simple_parse_blob_lines by done.
  rewrite simple_parse_parent_lines by done.
  cbn [foldl]. rewrite simple_parse_author_line by done.
  rewrite simple_parse_committer_line by done.
  rewrite simple_parse_message_lines by done.
  cbn [msg parents files loaded_timestamp in_message app].
  rewrite unlines_lines. f_equal.
  rewrite foldl_insert_items. by rewrite map_fmap_id.
Qed.

End SimpleText.

Module BranchingText.
Import Branching.
Import SimpleText.

Lemma branching_serialize_lines (c : CommitNode) :
  Forall wf_entry (items (tracked_files c)) →
  no_newline (parent_hash c) = true →
  no_newline (timestamp c) = true →
  lines (serialize c)
  = ["tree"] ++ map blob_line (items (tracked_files c))
      ++ [parent_line (parent_hash c); branching_author_line (timestamp c);
          branching_committer_line (timestamp c); ""]
      ++ lines (message c +:+ nl).
Proof.
  intros Hf Hp Ht. unfold serialize.
  rewrite (lines_line "tree") by done. cbn [app]. f_equal.
  rewrite (map_ext _ (λ p, blob_line p +:+ nl)).
  2:{ intros p. unfold blob_line. by rewrite !app_assoc_s. }
  rewrite lines_block.
  2:{ eapply Forall_impl; [exact Hf |]. apply blob_line_no_newline. }
  f_equal.
  assert (∀ p t, no_newline t = true → no_newline (p +:+ t) = no_newline p) as Hnl.
  { intros p t H. unfold no_newline. rewrite all_chars_app. fold (no_newline t).
    by rewrite H, andb_true_r. }
  rewrite <- (app_assoc_s "parent " (parent_hash c)).
  rewrite lines_line by by rewrite Hnl.
  rewrite <- (app_assoc_s "author Your Name <your.email@example.com> " (timestamp c)).
  rewrite lines_line by by rewrite Hnl.
  rewrite <- (app_assoc_s "committer Your Name <your.email@example.com> " (timestamp c)).
  rewrite lines_line by by rewrite Hnl.
  exact (f_equal (λ x, _ :: _ :: _ :: x) (lines_line "" (message c +:+ nl) eq_refl)).
Qed.

Lemma branching_parse_blob_line s p :
  in_message_block s = false → wf_entry p →
  parse_line s (blob_line p)
  = mkParser (msg s) (parent s) (<[p.1 := p.2]> (files s)) (loaded_timestamp s) false.
Proof.
  intros Hs Hp. pose proof Hp as (H1 & H2 & H3 & H4). unfold parse_line. rewrite Hs.
  rewrite extract_blob_line by done.
  rewrite (extract_word p.2 (" " +:+ p.1));
    [| first [done | right; by exists " "%char, p.1] ..].
  rewrite <- (app_empty_r (" " +:+ p.1)), app_assoc_s.
  rewrite (extract_word p.1 ""); [| first [done | by left] ..].
  unfold blob_line. rewrite starts_with_app. done.
Qed.

Lemma branching_parse_blob_lines its : ∀ s,
  in_message_block s = false → Forall wf_entry its →
  foldl parse_line s (map blob_line its)
  = mkParser (msg s) (parent s) (foldl (λ a p, <[p.1 := id p.2]> a) (files s) its)
      (loaded_timestamp s) false.
Proof.
  induction its as [|p its IH]; intros s Hs Hwf; simpl.
  - destruct s; simpl in *; by subst.
  - apply Forall_cons in Hwf as [Hp Hwf]. rewrite branching_parse_blob_line by done.
    by rewrite IH.
Qed.

Lemma branching_parse_parent_line s p :
  in_message_block s = false →
  parse_line s (parent_line p)
  = mkParser (msg s) p (files s) (loaded_timestamp s) false.
Proof.
  intros Hs. unfold parse_line, parent_line. rewrite Hs, (starts_with_app "parent " p).
  simpl. reflexivity.
Qed.

Lemma rfind_char_at c (pre rest : string) :
  rfind_char c (String.length pre) (pre +:+ String c rest) = Some (String.length pre).
Proof.
  induction pre as [|a pre IH]; simpl.
  - by rewrite Ascii.eqb_refl.
  - by rewrite IH.
Qed.

Lemma branching_parse_author_line s t :
  in_message_block s = false → String.length t = 19 →
  parse_line s (branching_author_line t)
  = mkParser (msg s) (parent s) (files s) t false.
Proof.
  intros Hs Ht. unfold parse_line. rewrite Hs.
  assert (date_time_start (branching_author_line t) = Some 41) as ->.
  { unfold date_time_start.
    assert (String.length (branching_author_line t) = 61) as ->
      by (unfold branching_author_line; rewrite length_app_s, Ht; done).
    change (if decide (61 < 20)%nat then 61 else 61 - 20)
      with (String.length "author Your Name <your.email@example.com>").
    change (branching_author_line t)
      with ("author Your Name <your.email@example.com>" +:+ String " " t).
    apply rfind_char_at. }
  change (substr_from 42 (branching_author_line t))
    with (substr_from (String.length "author Your Name <your.email@example.com> ")
            ("author Your Name <your.email@example.com> " +:+ t)).
  rewrite substr_from_app. rewrite <- Ht, substr_to_all.
  unfold branching_author_line. simpl. reflexivity.
Qed.

Lemma branching_parse_committer_line s t :
  in_message_block s = false → parse_line s (branching_committer_line t) = s.
Proof. intros Hs. unfold parse_line, branching_committer_line. rewrite Hs. simpl. reflexivity. Qed.

Lemma branching_parse_message_lines ls : ∀ s,
  in_message_block s = true →
  foldl parse_line s ls
  = mkParser (msg s +:+ unlines ls) (parent s) (files s) (loaded_timestamp s) true.
Proof.
  induction ls as [|l ls IH]; intros s Hs; simpl.
  - unfold unlines. simpl. rewrite app_empty_r. destruct s; simpl in *; by subst.
  - rewrite IH.
    + unfold parse_line. rewrite Hs, andb_false_r. simpl.
      by rewrite unlines_cons, !app_assoc_s.
    + unfold parse_line. rewrite Hs, andb_false_r. done.
Qed.

Lemma branching_parse_serialized (c : CommitNode) :
  Forall wf_entry (items (tracked_files c)) →
  no_newline (parent_hash c) = true →
  wf_timestamp (timestamp c) →
  foldl parse_line (mkParser "" "" ∅ "" false) (lines (serialize c))
  = mkParser (message c +:+ nl) (parent_hash c) (tracked_files c) (timestamp c) true.
Proof.
  intros Hf Hp [Hlen Ht]. rewrite branching_serialize_lines by done.
  rewrite !foldl_app. simpl foldl at 3.
  rewrite branching_parse_blob_lines by done.
  cbn [foldl]. rewrite branching_parse_parent_line by done.
  rewrite branching_parse_author_line by done.
  rewrite branching_parse_committer_line by done.
  rewrite branching_parse_message_lines by done.
  cbn [msg parent files loaded_timestamp in_message_block].
  rewrite unlines_lines. f_equal.
  rewrite foldl_insert_items. by rewrite map_fmap_id.
Qed.

End BranchingText.


Lemma items_Forall (P : string * string → Prop) (m : gmap string string) :
  map_Forall (λ f h, P (f, h)) m → Forall P (items m).
Proof.
  intros H. apply Forall_forall. intros [f h] Hin. apply items_elem in Hin. by apply H.
Qed.

Lemma wf_timestamp_nonempty t : wf_timestamp t → t ≠ "".
Proof. intros [H _] ->. done. Qed.

Lemma simple_roundtrip clk h (c : Simple.CommitNode) :
  simple_well_formed c →
  Simple.deserialize clk h (Simple.serialize c)
  = Simple.mkCommitNode h (Simple.message c) (Simple.timestamp c)
      (Simple.parent_hashes c) (Simple.tracked_files c).
Proof.
  intros (Ht & Hp & Hf). unfold Simple.deserialize.
  rewrite SimpleText.simple_parse_serialized; [| by apply items_Forall | done | done].
  cbn [Simple.msg Simple.parents Simple.files Simple.loaded_timestamp].
  rewrite pop_newline_app.
  destruct (decide (Simple.timestamp c = "")) as [E|_]; [by apply wf_timestamp_nonempty in Ht |].
  done.
Qed.

Lemma branching_roundtrip clk h (c : Branching.CommitNode) :
  branching_well_formed c →
  Branching.deserialize clk h (Branching.serialize c)
  = Branching.mkCommitNode h (Branching.message c) (Branching.timestamp c)
      (Branching.parent_hash c) [] (Branching.tracked_files c).
Proof.
  intros (Ht & Hp & Hf). unfold Branching.deserialize.
  rewrite BranchingText.branching_parse_serialized; [| by apply items_Forall | done | done].
  cbn [Branching.msg Branching.parent Branching.files Branching.loaded_timestamp].
  rewrite pop_newline_app.
  destruct (decide (Branching.timestamp c = "")) as [E|_];
    [by apply wf_timestamp_nonempty in Ht |].
  done.
Qed.

(** C3. For every commit record of the data model (a time stamp of nineteen
    characters, parents on one line, tree entries without white space) and
    every message, also one with several lines or blank lines, deserializing
    the serialization gives back the message, the time stamp, the parent list
    (the parent, in the edition with one parent) and the tree map. *)
Theorem commit_text_roundtrip clk h (c : Simple.CommitNode) (c' : Branching.CommitNode) :
  simple_well_formed c → branching_well_formed c' →
  (let d := Simple.deserialize clk h (Simple.serialize c) in
   Simple.message d = Simple.message c
   ∧ Simple.timestamp d = Simple.timestamp c
   ∧ Simple.parent_hashes d = Simple.parent_hashes c
   ∧ Simple.tracked_files d = Simple.tracked_files c)
  ∧ (let d' := Branching.deserialize clk h (Branching.serialize c') in
     Branching.message d' = Branching.message c'
     ∧ Branching.timestamp d' = Branching.timestamp c'
     ∧ Branching.parent_hash d' = Branching.parent_hash c'
     ∧ Branching.tracked_files d' = Branching.tracked_files c').
Proof.
  intros Hc Hc'. cbv zeta.
  rewrite simple_roundtrip, branching_roundtrip by done. done.
Qed.

Lemma note_well_formed : simple_well_formed Sample.note.
Proof.
  split; [done |]. split; [by repeat constructor |].
  unfold Sample.note. cbn [Simple.tracked_files].
  repeat (apply map_Forall_insert_2; [by repeat split |]). apply map_Forall_empty.
Qed.

Lemma branching_note_well_formed : branching_well_formed Sample.branching_note.
Proof.
  split; [done |]. split; [done |].
  unfold Sample.branching_note. cbn [Branching.tracked_files].
  repeat (apply map_Forall_insert_2; [by repeat split |]). apply map_Forall_empty.
Qed.

Lemma commit_text_roundtrip_witness :
  (let d := Simple.deserialize Sample.clk2 "8f483326b13c8cd6" (Simple.serialize Sample.note) in
   Simple.message d = Simple.message Sample.note
   ∧ Simple.timestamp d = Simple.timestamp Sample.note
   ∧ Simple.parent_hashes d = Simple.parent_hashes Sample.note
   ∧ Simple.tracked_files d = Simple.tracked_files Sample.note)
  ∧ (let d' := Branching.deserialize Sample.clk2 "8f483326b13c8cd6"
                 (Branching.serialize Sample.branching_note) in
     Branching.message d' = Branching.message Sample.branching_note
     ∧ Branching.timestamp d' = Branching.timestamp Sample.branching_note
     ∧ Branching.parent_hash d' = Branching.parent_hash Sample.branching_note
     ∧ Branching.tracked_files d' = Branching.tracked_files Sample.branching_note).
Proof.
  apply (commit_text_roundtrip Sample.clk2 "8f483326b13c8cd6" Sample.note Sample.branching_note).
  - exact note_well_formed.
  - exact branching_note_well_formed.
Defined.

(** ** [MiniGit-Project.cpp]: checkout, ancestors, merge *)

Module ProjectFacts.
Import Project.

Section Checkout.
Variable SHA1 : string → nat → ascii.

Lemma plain_name_no_directory name : plain_name name = true → names_directory name = false.
Proof. unfold plain_name. by destruct (names_directory name). Qed.

Lemma branch_file_plain st name :
  plain_name name = true → branch_file st name = heads st !! name.
Proof. intros H. unfold branch_file. by rewrite (plain_name_no_directory name H). Qed.

Lemma write_files_spec warning st (files : gmap string string) :
  map_Forall (λ f _, plain_name f = true) files →
  (write_files warning st (items files) ∅).1 = blob_content st <$> files.
Proof.
  intros Hp. unfold write_files.
  assert (∀ l (acc : gmap string string * list line),
    Forall (λ p : string * string, plain_name p.1 = true) l →
    (foldl (λ (acc : gmap string string * list line) (file_pair : string * string),
              let (content, errs) := read_blob st file_pair.2 in
              if plain_name file_pair.1 then
                (<[file_pair.1 := content]> acc.1, acc.2 ++ errs)
              else (acc.1, acc.2 ++ errs ++ [(cerr, warning +:+ file_pair.1)])) acc l).1
    = foldl (λ a p, <[p.1 := blob_content st p.2]> a) acc.1 l) as H.
  { induction l as [|p l IH]; intros acc Hl; simpl; [done |].
    inversion Hl as [|? ? Hp1 Hl']; subst. rewrite IH by done.
    unfold blob_content. destruct (read_blob st p.2). by rewrite Hp1. }
  rewrite H; [apply foldl_insert_items |].
  apply Forall_forall. intros [f h] Hin. apply items_elem in Hin. exact (Hp f h Hin).
Qed.

Lemma restorable_plain (files : gmap string string) :
  restorable files → map_Forall (λ f _, plain_name f = true) files.
Proof. intros H f h Hf. exact (proj1 (H f h Hf)). Qed.

Lemma restore_HEAD now st h : HEAD (restore SHA1 now st h).1 = HEAD st.
Proof.
  unfold restore. repeat case_decide; try done.
  by destruct (write_files _ _ _ _).
Qed.

Lemma restore_stores now st h :
  let st' := (restore SHA1 now st h).1 in
  heads st' = heads st ∧ objects st' = objects st ∧ commits st' = commits st
  ∧ index st' = index st ∧ staging_area_ st' = staging_area_ st
  ∧ has_heads st' = has_heads st.
Proof.
  unfold restore. repeat case_decide; try done.
  by destruct (write_files _ _ _ _).
Qed.

Lemma read_commit_object_ext now st st' h :
  commits st' = commits st →
  read_commit_object SHA1 now st' h = read_commit_object SHA1 now st h.
Proof. intros E. unfold read_commit_object. by rewrite E. Qed.

Lemma read_blob_ext st st' h : objects st' = objects st → read_blob st' h = read_blob st h.
Proof. intros E. unfold read_blob. by rewrite E. Qed.

Lemma restore_worktree now st h :
  h ≠ "" → hash (read_commit_object SHA1 now st h) ≠ "" →
  restorable (tracked_files (read_commit_object SHA1 now st h)) →
  worktree (restore SHA1 now st h).1
  = blob_content st <$> tracked_files (read_commit_object SHA1 now st h).
Proof.
  intros Hh Hc Hr. unfold restore. rewrite decide_False by done.
  rewrite (read_commit_object_ext now st (with_worktree ∅ st)) by done.
  rewrite decide_False by done.
  pose proof (write_files_spec "Warning: Could not restore file " (with_worktree ∅ st)
                (tracked_files (read_commit_object SHA1 now st h))
                (restorable_plain _ Hr)) as H.
  destruct (write_files _ _ _ _) as [wt errs]. simpl in *. rewrite H.
  apply map_fmap_ext. intros f b _. unfold blob_content. by rewrite (read_blob_ext (with_worktree ∅ st) st).
Qed.

Lemma restore_unreadable now st h :
  h ≠ "" → unreadable SHA1 now st h →
  worktree (restore SHA1 now st h).1 = ∅
  ∧ (hash (read_commit_object SHA1 now st h) = "" →
     (restore SHA1 now st h).2 = [read_failure])
  ∧ (commits st !! h = None → hash (read_commit_object SHA1 now st h) ≠ "" →
     (restore SHA1 now st h).2 = []).
Proof.
  intros Hh Hu. unfold restore. rewrite decide_False by done.
  rewrite (read_commit_object_ext now st (with_worktree ∅ st)) by done.
  destruct (decide (hash (read_commit_object SHA1 now st h) = "")) as [E|E]; [done |].
  assert (commits st !! h = None →
          tracked_files (read_commit_object SHA1 now st h) = ∅) as Hnone
    by (intros Hn; unfold read_commit_object; rewrite decide_False by done; by rewrite Hn).
  destruct Hu as [Hu|Hu]; [| done].
  rewrite (Hnone Hu), items_empty. done.
Qed.

End Checkout.




Section Ancestors.
Variable SHA1 : string → nat → ascii.
Variable now : string.
Variable st : repo.

Local Abbreviation parents x := (parent_hashes (read_commit_object SHA1 now st x)).
Local Abbreviation followed := (Project.followed SHA1 now st).
Local Abbreviation loop_inv := (Project.loop_inv SHA1 now st).

Lemma enqueue_parents_spec ps : ∀ (anc : gset string) q,
  let r := enqueue_parents ps anc q in
  (∀ x, x ∈ r.1 ↔ x ∈ anc ∨ x ∈ ps)
  ∧ (∀ x, x ∈ r.2 → x ∈ q ∨ (x ∈ ps ∧ x ∉ anc))
  ∧ (∀ x, x ∈ q → x ∈ r.2)
  ∧ (∀ x, x ∈ r.1 → x ∉ anc → x ∈ r.2)
  ∧ size r.1 + length q = size anc + length r.2.
Proof.
  induction ps as [|p ps IH]; intros anc q; simpl.
  - split_and!; [set_solver | set_solver | done | done | done].
  - destruct (decide (p ∈ anc)) as [Hp|Hp].
    + destruct (IH anc q) as (H1 & H2 & H3 & H4 & H5). split_and!.
      * intros x. rewrite H1. set_solver.
      * intros x Hx. destruct (H2 x Hx) as [|[? ?]]; set_solver.
      * done.
      * done.
      * done.
    + destruct (IH ({[p]} ∪ anc) (p :: q)) as (H1 & H2 & H3 & H4 & H5). split_and!.
      * intros x. rewrite H1. set_solver.
      * intros x Hx. destruct (H2 x Hx) as [Hq|[? ?]]; [| set_solver].
        apply elem_of_cons in Hq as [->|]; set_solver.
      * intros x Hx. apply H3. set_solver.
      * intros x Hx Hn. destruct (decide (x = p)) as [->|Hne].
        -- apply H3. set_solver.
        -- apply H4; set_solver.
      * rewrite size_union, size_singleton in H5 by set_solver. simpl in H5. lia.
Qed.

Lemma parents_known h x : list_to_set (parents x) ⊆ known_hashes SHA1 now st h.
Proof.
  unfold known_hashes. destruct (commits st !! x) as [text|] eqn:E.
  - intros p Hp. apply elem_of_union_r. apply elem_of_union_list.
    exists (list_to_set (parents x)). split; [| done].
    apply list_elem_of_fmap. exists x. split; [done |].
    apply elem_of_elements, elem_of_dom. by rewrite E.
  - unfold read_commit_object. rewrite E. case_decide; simpl; set_solver.
Qed.

Lemma loop_step fuel anc cur q :
  getAncestors_loop SHA1 (S fuel) now st anc (cur :: q)
  = getAncestors_loop SHA1 fuel now st
      (enqueue_parents (followed cur) anc q).1 (enqueue_parents (followed cur) anc q).2.
Proof.
  simpl. unfold Project.followed. destruct (decide (hash _ = "")); [done |].
  by destruct (enqueue_parents _ _ _).
Qed.

Lemma followed_known h x : list_to_set (followed x) ⊆ known_hashes SHA1 now st h.
Proof.
  unfold Project.followed. case_decide; [set_solver | apply parents_known].
Qed.

Lemma loop_terminates h fuel : ∀ anc q,
  loop_inv h anc q →
  2 * (size (known_hashes SHA1 now st h) - size anc) + length q < fuel →
  ∃ A, getAncestors_loop SHA1 fuel now st anc q = Some A ∧ loop_inv h A [].
Proof.
  induction fuel as [|fuel IH]; intros anc q Hinv Hfuel; [lia |].
  destruct q as [|cur q].
  - exists anc. done.
  - rewrite loop_step.
    destruct Hinv as (Hh & Hq & Hk & Hr & Hc).
    pose proof (enqueue_parents_spec (followed cur) anc q) as (H1 & H2 & H3 & H4 & H5).
    set (r := enqueue_parents (followed cur) anc q) in *.
    assert (r.1 ⊆ known_hashes SHA1 now st h) as Hk'.
    { intros x Hx. apply H1 in Hx as [Hx|Hx]; [by apply Hk |].
      apply (followed_known h cur). set_solver. }
    apply IH.
    + unfold Project.loop_inv. split_and!.
      * apply H1. by left.
      * intros x Hx. apply H2 in Hx as [Hx|[Hx _]]; apply H1; [left | by right].
        apply Hq. set_solver.
      * done.
      * intros x Hx. apply H1 in Hx as [Hx|Hx]; [by apply Hr |].
        apply (rtc_r h cur); [apply Hr, Hq; apply list_elem_of_here | done].
      * intros x Hx. destruct (decide (x ∈ anc)) as [Ha|Ha].
        -- destruct (Hc x Ha) as [Hin|Hcl].
           ++ apply elem_of_cons in Hin as [->|Hin].
              ** right. intros p Hp. apply H1. by right.
              ** left. by apply H3.
           ++ right. intros p Hp. apply H1. left. by apply Hcl.
        -- left. by apply H4.
    + assert (anc ⊆ r.1) as Hsub by (intros x Hx; apply H1; by left).
      pose proof (subseteq_size _ _ Hk'). pose proof (subseteq_size _ _ Hk).
      pose proof (subseteq_size _ _ Hsub).
      simpl in Hfuel. lia.
Qed.

Lemma inv_closed h (A : gset string) :
  loop_inv h A [] → ∀ x, x ∈ A ↔ rtc (λ a b, b ∈ followed a) h x.
Proof.
  intros (Hh & _ & _ & Hr & Hc) x. split; [apply Hr |].
  revert x. apply (rtc_ind_r (λ x, x ∈ A) h); [done |].
  intros a b _ Hab IH.
  destruct (Hc a IH) as [Hin|Hcl]; [by apply elem_of_nil in Hin | by apply Hcl].
Qed.

Lemma hex2_nonempty b : hex2 b ≠ "".
Proof.
  unfold hex2, setw_fill0. destruct (to_hex (N_of_ascii b)) as [|c [|c' s]]; simpl; done.
Qed.

Lemma computeSHA1_nonempty content : computeSHA1 SHA1 content ≠ "".
Proof.
  unfold computeSHA1. change (seq 0 SHA_DIGEST_LENGTH) with (0 :: seq 1 19).
  rewrite map_cons, concat_cons_s.
  pose proof (hex2_nonempty (SHA1 content 0)).
  by destruct (hex2 (SHA1 content 0)).
Qed.

Lemma followed_parents :
  hashes_recorded SHA1 now st → ∀ x, followed x = parents x.
Proof.
  intros Hok x. unfold Project.followed. case_decide as E; [| done].
  destruct (commits st !! x) as [text|] eqn:Ex.
  - exfalso. apply (Hok x); [by rewrite Ex | done].
  - revert E. unfold read_commit_object. rewrite Ex. case_decide; [done |]. simpl.
    intros E. by apply computeSHA1_nonempty in E.
Qed.

End Ancestors.

Lemma getAncestors_loop_mono SHA1 now st fuel : ∀ anc q A,
  getAncestors_loop SHA1 fuel now st anc q = Some A →
  getAncestors_loop SHA1 (S fuel) now st anc q = Some A.
Proof.
  induction fuel as [|fuel IH]; intros anc q A H.
  - destruct q; [done | discriminate].
  - destruct q as [|cur q]; [done |]. rewrite loop_step.
    apply IH. by rewrite <- loop_step.
Qed.

Lemma getAncestors_loop_enough SHA1 now st fuel fuel' anc q A :
  getAncestors_loop SHA1 fuel now st anc q = Some A → (fuel ≤ fuel')%nat →
  getAncestors_loop SHA1 fuel' now st anc q = Some A.
Proof.
  intros H Hle. induction Hle as [|n _ IH]; [done | by apply getAncestors_loop_mono].
Qed.

Lemma getAncestors_reaches SHA1 now (st : repo) (h : string) :
  h ≠ "" → hashes_recorded SHA1 now st →
  ∃ A, getAncestors SHA1 now st h = Some A
       ∧ h ∈ A
       ∧ ∀ x, x ∈ A ↔ rtc (parent_link SHA1 now st) h x.
Proof.
  intros Hh Hok. unfold getAncestors. rewrite decide_False by done.
  destruct (loop_terminates SHA1 now st h (getAncestors_fuel SHA1 now st h) {[h]} [h])
    as (A & HA & Hinv).
  - unfold Project.loop_inv. split_and!.
    + set_solver.
    + set_solver.
    + unfold known_hashes. set_solver.
    + intros x ->%elem_of_singleton. done.
    + intros x ->%elem_of_singleton. left. set_solver.
  - unfold getAncestors_fuel. rewrite size_singleton. simpl.
    assert (1 ≤ size (known_hashes SHA1 now st h))%nat; [| lia].
    rewrite <- (size_singleton (C:=gset string) h). apply subseteq_size.
    unfold known_hashes. set_solver.
  - exists A. split; [done |]. split; [exact (proj1 Hinv) |].
    intros x. rewrite (inv_closed SHA1 now st h A Hinv).
    assert (∀ a b, b ∈ followed SHA1 now st a ↔ parent_link SHA1 now st a b) as Heq.
    { intros a b. unfold parent_link. by rewrite followed_parents. }
    split; intros H; (eapply rtc_subrel; [| exact H]); intros a b; apply Heq.
Qed.

Lemma marked_inj f g : marked f = marked g → f = g.
Proof.
  unfold marked. intros H. injection H as H. by apply app_inv_tail_s in H.
Qed.

Lemma read_blob_cerr st h l : l ∈ (read_blob st h).2 → l.1 = cerr.
Proof.
  unfold read_blob. case_decide; [by intros ?%elem_of_nil |].
  destruct (objects st !! h); simpl; [by intros ?%elem_of_nil |].
  by intros ->%list_elem_of_singleton.
Qed.

Section Merge.
Variable st : repo.
Variable branch_name : string.
Variables ancestor_files current_files target_files : gmap string string.

Local Abbreviation markers_for := (Project.markers_for st current_files target_files).
Local Abbreviation merging_inv := (Project.merging_inv st current_files target_files).

Lemma set_merged_inv g m : merging_inv m → merging_inv (set_merged g m).
Proof. done. Qed.

Lemma report_conflict_inv what f m :
  merging_inv m →
  merging_inv (report_conflict st what f (at_or_empty current_files f)
                 (at_or_empty target_files f) m).
Proof.
  intros [Hc Hf]. unfold report_conflict.
  pose proof (read_blob_cerr st (at_or_empty current_files f)) as He1.
  pose proof (read_blob_cerr st (at_or_empty target_files f)) as He2.
  assert (markers_for f
          = conflict_text (read_blob st (at_or_empty current_files f)).1
                          (read_blob st (at_or_empty target_files f)).1) as Hmk by done.
  destruct (read_blob st (at_or_empty current_files f)) as [c1 e1].
  destruct (read_blob st (at_or_empty target_files f)) as [c2 e2].
  unfold add_conflict_markers, Project.merging_inv.
  cbn [merged_files conflict tree printed fst snd] in *.
  assert (∀ g, marked g ∈ (printed m ++ [(cerr, what)] ++ e1 ++ e2) ++ [marked f]
               ↔ marked g ∈ printed m ∨ g = f) as Hin.
  { intros g. rewrite !elem_of_app, list_elem_of_singleton. split.
    - intros [[?|[H|[H|H]]]|H]; [by left | | | | right; by apply marked_inj].
      + by apply list_elem_of_singleton in H.
      + by apply He1 in H.
      + by apply He2 in H.
    - intros [?|Hg]; [left; by left | subst g; by right]. }
  fold (marked f). split.
  - split; [intros _; exists f; apply Hin; by right | done].
  - intros g. rewrite Hin. split.
    + intros [Hg|Hg]; [| subst g].
      * destruct (decide (g = f)) as [->|Hne]; [by rewrite lookup_insert_eq, Hmk |].
        rewrite lookup_insert_ne by done. by apply Hf.
      * by rewrite lookup_insert_eq, Hmk.
    + intros Hn. rewrite lookup_insert_ne by (intros ->; apply Hn; by right).
      apply Hf. intros ?. apply Hn. by left.
Qed.

Lemma merge_target_file_inv m p :
  target_files !! p.1 = Some p.2 → merging_inv m →
  merging_inv (merge_target_file st branch_name ancestor_files current_files target_files m p).
Proof.
  intros Hp Hm. unfold merge_target_file.
  assert (p.2 = at_or_empty target_files p.1) as Ht by (unfold at_or_empty; by rewrite Hp).
  repeat case_decide; try (by apply set_merged_inv); try done;
    rewrite Ht; by apply report_conflict_inv.
Qed.

Lemma merge_current_file_inv m p :
  current_files !! p.1 = Some p.2 → merging_inv m →
  merging_inv (merge_current_file st branch_name ancestor_files target_files m p).
Proof.
  intros Hp Hm. unfold merge_current_file.
  assert (p.2 = at_or_empty current_files p.1) as Ht by (unfold at_or_empty; by rewrite Hp).
  repeat case_decide; try (by apply set_merged_inv); try done;
    rewrite Ht; by apply report_conflict_inv.
Qed.

End Merge.

Lemma merge_loops_inv st branch_name (ca cur tgt : CommitNode) :
  merging_inv st (tracked_files cur) (tracked_files tgt)
    (merge_loops st branch_name ca cur tgt).
Proof.
  unfold merge_loops.
  apply (foldl_inv _ (λ p, tracked_files cur !! p.1 = Some p.2)).
  - intros m p Hp Hm. by apply merge_current_file_inv.
  - apply Forall_forall. intros [f h] Hin. by apply items_elem.
  - apply (foldl_inv _ (λ p, tracked_files tgt !! p.1 = Some p.2)).
    + intros m p Hp Hm. by apply merge_target_file_inv.
    + apply Forall_forall. intros [f h] Hin. by apply items_elem.
    + split; [| intros f; split; [by intros ?%elem_of_nil | done]].
      split; [done | by intros [f ?%elem_of_nil]].
Qed.


Section MergeOutcome.
Variable SHA1 : string → nat → ascii.
Variable unordered_order : gset string → list string.


End MergeOutcome.

Lemma conflicting_keys (A C T : gmap string string) (f : string) :
  conflicting A C T f → f ∈ dom T ∪ dom C.
Proof.
  unfold conflicting. destruct (T !! f) eqn:E.
  - intros _. apply elem_of_union_l, elem_of_dom. by eexists.
  - intros [Hc _]. by apply elem_of_union_r, elem_of_dom.
Qed.





End ProjectFacts.

(** ** The edition with [find_lca] and [merge_file_maps] *)

Module SimpleFacts.
Import Simple.

Section Visit.
Variable clk : clock.
Variable st : repo.
Variable h : string.

Local Abbreviation link := (Simple.parent_link clk st).
Local Abbreviation known := (Simple.known_hashes clk st h).
Local Abbreviation visit_inv := (Simple.visit_inv clk st h).
Local Abbreviation next_queue := (Simple.next_queue clk st).

Lemma simple_parents_known x p : link x p → p ∈ known.
Proof.
  intros [Hp _]. unfold known_hashes.
  destruct (objects st !! x) as [text|] eqn:E.
  - apply elem_of_union_r, elem_of_union_list.
    exists (list_to_set (parent_hashes (read_commit clk st x))). split; [| set_solver].
    apply list_elem_of_fmap. exists x. split; [done |].
    apply elem_of_elements, elem_of_dom. by rewrite E.
  - unfold read_commit in Hp. rewrite E in Hp.
    case_decide; simpl in Hp; by apply elem_of_nil in Hp.
Qed.

Lemma visit_step fuel visited cur q :
  visit_loop (S fuel) clk st visited (cur :: q)
  = visit_loop fuel clk st ({[cur]} ∪ visited) (next_queue visited cur q).
Proof. reflexivity. Qed.

Lemma visit_inv_step visited cur q :
  visit_inv visited (cur :: q) →
  visit_inv ({[cur]} ∪ visited) (next_queue visited cur q).
Proof.
  intros (Ha & Hb & Hc & Hd). unfold Simple.visit_inv, Simple.next_queue. split_and!.
  - intros v p Hv Hl.
    destruct (decide (p ∈ {[cur]} ∪ visited)) as [|Hn]; [by left |]. right.
    apply elem_of_union in Hv as [->%elem_of_singleton|Hv].
    + apply elem_of_app. right. apply list_elem_of_filter. destruct Hl. done.
    + destruct (Ha v p Hv Hl) as [|Hq]; [set_solver |].
      apply elem_of_cons in Hq as [->|Hq]; [set_solver |].
      apply elem_of_app. by left.
  - intros x [Hx|Hx].
    + apply elem_of_union in Hx as [->%elem_of_singleton|Hx]; apply Hb; [right | by left].
      apply list_elem_of_here.
    + apply elem_of_app in Hx as [Hx|Hx].
      * apply Hb. right. by apply list_elem_of_further.
      * apply list_elem_of_filter in Hx as [[Hne _] Hx].
        apply (rtc_r h cur); [apply Hb; right; apply list_elem_of_here | done].
  - destruct Hc as [Hc|Hc]; [left; set_solver |].
    apply elem_of_cons in Hc as [->|Hc]; [left; set_solver |].
    right. apply elem_of_app. by left.
  - intros x [Hx|Hx].
    + apply elem_of_union in Hx as [->%elem_of_singleton|Hx]; apply Hd; [right | by left].
      apply list_elem_of_here.
    + apply elem_of_app in Hx as [Hx|Hx].
      * apply Hd. right. by apply list_elem_of_further.
      * apply list_elem_of_filter in Hx as [[Hne _] Hx].
        by apply (simple_parents_known cur).
Qed.

Lemma split_visited (visited : gset string) (q : list string) :
  ∃ pre rest, q = pre ++ rest ∧ Forall (λ x, x ∈ visited) pre
              ∧ (rest = [] ∨ ∃ c r, rest = c :: r ∧ c ∉ visited).
Proof.
  induction q as [|x q (pre & rest & -> & Hpre & Hrest)].
  - exists [], []. split_and!; [done | done | by left].
  - destruct (decide (x ∈ visited)) as [Hx|Hx].
    + exists (x :: pre), rest. split_and!; [done | by constructor | done].
    + exists [], (x :: pre ++ rest). split_and!; [done | done |]. right. by exists x, (pre ++ rest).
Qed.

Lemma visit_terminates k : ∀ visited,
  size known - size visited = k →
  ∀ pre rest,
    Forall (λ x, x ∈ visited) pre →
    (rest = [] ∨ ∃ c r, rest = c :: r ∧ c ∉ visited) →
    visit_inv visited (pre ++ rest) →
    ∃ fuel A, visit_loop fuel clk st visited (pre ++ rest) = Some A ∧ visit_inv A [].
Proof.
  induction k as [k IHk] using (well_founded_induction lt_wf).
  intros visited Hk pre. induction pre as [|c pre IH]; intros rest Hpre Hrest Hinv.
  - destruct Hrest as [->|(c & r & -> & Hc)].
    + exists 0, visited. done.
    + (* a commit met for the first time: fewer hashes remain unvisited *)
      pose proof (visit_inv_step _ _ _ Hinv) as Hinv'.
      destruct (split_visited ({[c]} ∪ visited) (next_queue visited c r))
        as (pre' & rest' & Hq & Hpre' & Hrest').
      rewrite Hq in Hinv'.
      destruct (IHk (size known - size ({[c]} ∪ visited)))
        with (visited := {[c]} ∪ visited) (pre := pre') (rest := rest')
        as (fuel & A & HA & HI); [| done | done | done | done |].
      { destruct Hinv' as (_ & _ & _ & Hd).
        assert ({[c]} ∪ visited ⊆ known) as Hsub by (intros x Hx; apply Hd; by left).
        apply subseteq_size in Hsub.
        rewrite size_union, size_singleton in * by set_solver. lia. }
      exists (S fuel), A. split; [| done].
      cbn [app]. rewrite visit_step, Hq. done.
  - (* a commit taken out once more: the first unvisited entry moves forward *)
    apply Forall_cons in Hpre as [Hc Hpre].
    rewrite <- app_comm_cons in Hinv |- *.
    pose proof (visit_inv_step _ _ _ Hinv) as Hinv'.
    assert ({[c]} ∪ visited = visited) as Hv by set_solver.
    rewrite Hv in Hinv'. unfold Simple.next_queue in Hinv'. rewrite Hv in Hinv'.
    destruct Hrest as [->|(c' & r & -> & Hc')].
    + assert (filter (λ p, p ≠ "" ∧ p ∉ visited) (parent_hashes (read_commit clk st c)) = [])
        as Hnew.
      { apply filter_none. intros p Hp [Hne Hnv].
        destruct Hinv as (Ha & _). destruct (Ha c p Hc) as [|Hq]; [done | done |].
        rewrite app_nil_r in Hq. apply elem_of_cons in Hq as [->|Hq]; [done |].
        rewrite Forall_forall in Hpre. by apply Hnv, Hpre. }
      rewrite Hnew, app_nil_r in Hinv'.
      destruct (IH [] Hpre (or_introl eq_refl) Hinv') as (fuel & A & HA & HI).
      exists (S fuel), A. split; [| done].
      rewrite visit_step. unfold Simple.next_queue. rewrite Hv, Hnew. by rewrite app_nil_r.
    + set (new := filter _ _) in Hinv'. rewrite <- app_assoc in Hinv'.
      destruct (IH ((c' :: r) ++ new) Hpre) as (fuel & A & HA & HI).
      { right. by exists c', (r ++ new). }
      { done. }
      exists (S fuel), A. split; [| done].
      rewrite visit_step. unfold Simple.next_queue. rewrite Hv.
      fold new. by rewrite <- app_assoc.
Qed.

Lemma visit_inv_closed (A : gset string) :
  visit_inv A [] → ∀ x, x ∈ A ↔ rtc link h x.
Proof.
  intros (Ha & Hb & Hc & _) x. split; [intros Hx; apply Hb; by left |].
  revert x. apply (rtc_ind_r (λ x, x ∈ A) h).
  - destruct Hc as [|Hc]; [done | by apply elem_of_nil in Hc].
  - intros a b _ Hab IH. destruct (Ha a b IH Hab) as [|Hq]; [done | by apply elem_of_nil in Hq].
Qed.

End Visit.

Lemma visit_loop_mono clk st fuel : ∀ visited q A,
  visit_loop fuel clk st visited q = Some A →
  visit_loop (S fuel) clk st visited q = Some A.
Proof.
  induction fuel as [|fuel IH]; intros visited q A H.
  - destruct q; [done | discriminate].
  - destruct q as [|cur q]; [done |]. rewrite visit_step.
    apply IH. by rewrite <- visit_step.
Qed.

Lemma visit_loop_enough clk st fuel fuel' visited q A :
  visit_loop fuel clk st visited q = Some A → (fuel ≤ fuel')%nat →
  visit_loop fuel' clk st visited q = Some A.
Proof.
  intros H Hle. induction Hle as [|n _ IH]; [done | by apply visit_loop_mono].
Qed.

Lemma find_lca_visits clk (st : repo) (h : string) :
  h ≠ "" →
  ∃ fuel A, visit_loop fuel clk st ∅ [h] = Some A
            ∧ h ∈ A
            ∧ ∀ x, x ∈ A ↔ rtc (parent_link clk st) h x.
Proof.
  intros Hh.
  destruct (visit_terminates clk st h _ ∅ eq_refl [] [h]) as (fuel & A & HA & HI).
  - constructor.
  - right. exists h, []. split; [done | set_solver].
  - unfold Simple.visit_inv. split_and!.
    + set_solver.
    + intros x [Hx|Hx]; [set_solver |]. apply list_elem_of_singleton in Hx as ->. done.
    + right. apply list_elem_of_here.
    + intros x [Hx|Hx]; [set_solver |]. apply list_elem_of_singleton in Hx as ->.
      unfold known_hashes. set_solver.
  - exists fuel, A. split; [done |].
    pose proof (visit_inv_closed clk st h A HI) as Hcl.
    split; [by apply Hcl | done].
Qed.

Section SimpleConflicts.
Variable unordered_order : gset string → list string.
Variable st : Simple.repo.
Variables base ours theirs : gmap string string.

Local Abbreviation simple_conflicts := (Simple.conflicts base ours theirs).
Local Abbreviation simple_markers_for := (Simple.markers_for st ours theirs).
Local Abbreviation simple_merging_inv := (Simple.merging_inv st base ours theirs).




End SimpleConflicts.

End SimpleFacts.

(** The hypotheses on the record are needed.  A path with a space is cut at
    the space when the tree line is read back. *)
Lemma spaced_path_is_not_read_back :
  Simple.tracked_files
    (Simple.deserialize Sample.clk2 ""
       (Simple.serialize
          (Simple.mkCommitNode "" "note" Sample.noon [] {[ "my file" := "5e6a27755fd1610a" ]})))
  = {[ "my" := "5e6a27755fd1610a" ]}.
Proof. vm_compute. reflexivity. Qed.

(** The commit file of [MiniGit-Project.cpp] is not that format: it holds one
    [message:] line, and only the first line of a message is read back. *)
Lemma project_commit_file_keeps_first_message_line :
  let c := Project.mkCommitNode "c9" ("first line" +:+ nl +:+ "second line") Sample.noon
             "" [] ∅ in
  Project.message
    (Project.read_commit_object Sample.digest Sample.noon
       (Project.save_commit_object Sample.diverged c) "c9")
  = "first line".
Proof. vm_compute. reflexivity. Qed.

(** ** Both editions *)

(** C7. With an empty staging area [commit] returns the repository as it
    found it (no commit object, no reference, no index changed) and reports
    that there is nothing to commit. *)
Theorem commit_empty_index SHA1 hasher now clk
    (st : Project.repo) (st2 : Simple.repo) (msg : string) :
  Project.staging_area_ st = ∅ → Simple.staging_area_ st2 = ∅ →
  Project.commit SHA1 now st msg = (st, [(cout, "Nothing to commit, working tree clean.")])
  ∧ Simple.commit hasher clk st2 msg = (st2, [(cout, "Nothing to commit.")]).
Proof.
  intros H1 H2. unfold Project.commit, Simple.commit.
  by rewrite !decide_True by done.
Qed.

Lemma commit_empty_index_witness :
  Project.commit Sample.digest Sample.noon Sample.diverged "again"
  = (Sample.diverged, [(cout, "Nothing to commit, working tree clean.")])
  ∧ Simple.commit Sample.fnv1a Sample.clk2 Sample.committed "again"
    = (Sample.committed, [(cout, "Nothing to commit.")]).
Proof.
  apply (commit_empty_index Sample.digest Sample.fnv1a Sample.noon Sample.clk2
           Sample.diverged Sample.committed "again"); reflexivity.
Defined.


(** When the commit a target resolves to cannot be read, [checkout] has
    rewritten [HEAD] and emptied the working directory when it returns.  The
    failure is reported, last, only when a file was read that has no hash;
    when the file is missing, [read_commit_object] returns a record built by
    the constructor, whose hash is not empty, and nothing is reported. *)
Lemma checkout_unreadable_commit SHA1 now (st : Project.repo) (target h : string) :
  plain_name target = true →
  Project.checkout_resolves st target h → h ≠ "" → Project.unreadable SHA1 now st h →
  let st' := (Project.checkout SHA1 now st target).1 in
  let out := (Project.checkout SHA1 now st target).2 in
  Project.HEAD st' = Some (Project.new_head st target)
  ∧ Project.worktree st' = ∅
  ∧ (Project.hash (Project.read_commit_object SHA1 now st h) = "" →
     last out = Some Project.read_failure)
  ∧ (Project.commits st !! h = None → Forall (λ l : line, l.1 = cout) out).
Proof.
  unfold Project.checkout_resolves, Project.new_head, Project.checkout.
  intros Hplain Hres Hh Hu. rewrite (ProjectFacts.branch_file_plain st target Hplain).
  assert (∀ st1, Project.commits st1 = Project.commits st →
            Project.HEAD (Project.restore SHA1 now st1 h).1 = Project.HEAD st1
            ∧ Project.worktree (Project.restore SHA1 now st1 h).1 = ∅
            ∧ (Project.hash (Project.read_commit_object SHA1 now st h) = "" →
               (Project.restore SHA1 now st1 h).2 = [Project.read_failure])
            ∧ (Project.commits st !! h = None → (Project.restore SHA1 now st1 h).2 = []))
    as Hrestore.
  { intros st1 E.
    assert (Project.unreadable SHA1 now st1 h) as Hu1.
    { unfold Project.unreadable.
      rewrite (ProjectFacts.read_commit_object_ext SHA1 now st st1) by done.
      by rewrite E. }
    destruct (ProjectFacts.restore_unreadable SHA1 now st1 h Hh Hu1) as (H1 & H2 & H3).
    rewrite (ProjectFacts.read_commit_object_ext SHA1 now st st1) in H2, H3 by done.
    rewrite E in H3.
    split; [apply ProjectFacts.restore_HEAD |]. split; [exact H1 |]. split; [exact H2 |].
    intros Hn. apply H3; [exact Hn |].
    unfold Project.read_commit_object. rewrite decide_False by done. rewrite Hn.
    apply ProjectFacts.computeSHA1_nonempty. }
  destruct (Project.heads st !! target) as [branch_text|] eqn:Hb.
  - subst h. set (st1 := Project.with_HEAD _ st).
    destruct (Hrestore st1 eq_refl) as (HH & HW & HE & HN).
    destruct (Project.restore SHA1 now st1 (first_line branch_text)) as [st2 o].
    cbn [fst snd] in *.
    split_and!; [exact HH | exact HW | |].
    + intros E. by rewrite (HE E).
    + intros Hn. rewrite (HN Hn). by repeat constructor.
  - destruct Hres as [Hfp ->]. rewrite decide_True by exact Hfp.
    set (st1 := Project.with_HEAD _ st).
    destruct (Hrestore st1 eq_refl) as (HH & HW & HE & HN).
    destruct (Project.restore SHA1 now st1 target) as [st2 o]. cbn [fst snd] in *.
    split_and!; [exact HH | exact HW | |].
    + intros E. by rewrite (HE E).
    + intros Hn. rewrite (HN Hn). by repeat constructor.
Qed.

(** C10. [checkout main] where the branch names a commit that has no file:
    [HEAD] is rewritten and the working directory is emptied, and the
    command reports the switch and no failure. *)
Theorem checkout_of_missing_commit_reports_no_failure :
  Project.heads Sample.dangling !! "main" = Some ("c1" +:+ nl)
  ∧ Project.commits Sample.dangling !! "c1" = None
  ∧ Project.HEAD Sample.dangling = Some ("ref: refs/heads/dev" +:+ nl)
  ∧ Project.worktree Sample.dangling = {[ "a.txt" := "hello" ]}
  ∧ Project.checkout Sample.digest Sample.noon Sample.dangling "main"
    = (Project.with_worktree ∅
         (Project.with_HEAD (Some ("ref: refs/heads/main" +:+ nl)) Sample.dangling),
       [(cout, "Switched to branch 'main'")]).
Proof. split_and!; reflexivity. Qed.

(** Where a commit file is read that has no hash line, the failure is
    reported after both changes. *)
Lemma checkout_of_broken_commit_reports_last :
  let r := Project.checkout Sample.digest Sample.noon Sample.broken "main" in
  Project.HEAD r.1 = Some ("ref: refs/heads/main" +:+ nl)
  ∧ Project.worktree r.1 = ∅
  ∧ r.2 = [(cout, "Switched to branch 'main'"); Project.read_failure].
Proof. split_and!; reflexivity. Qed.

(** C9. From every non-empty hash the traversal ends and returns exactly the
    hashes reachable along parent links, the start included: [getAncestors]
    within the fuel it is given, on a store whose commit files carry their
    hash; the first loop of [find_lca] with any fuel above some bound. *)
Theorem ancestors_terminate_and_cover :
  (∀ SHA1 now (st : Project.repo) (h : string),
     h ≠ "" → Project.hashes_recorded SHA1 now st →
     ∃ A, Project.getAncestors SHA1 now st h = Some A
          ∧ (∀ fuel, (Project.getAncestors_fuel SHA1 now st h ≤ fuel)%nat →
               Project.getAncestors_loop SHA1 fuel now st {[h]} [h] = Some A)
          ∧ h ∈ A
          ∧ ∀ x, x ∈ A ↔ rtc (Project.parent_link SHA1 now st) h x)
  ∧ (∀ clk (st : Simple.repo) (h : string),
       h ≠ "" →
       ∃ fuel A, (∀ fuel', (fuel ≤ fuel')%nat →
                    Simple.visit_loop fuel' clk st ∅ [h] = Some A)
                 ∧ h ∈ A
                 ∧ ∀ x, x ∈ A ↔ rtc (Simple.parent_link clk st) h x).
Proof.
  split.
  - intros SHA1 now st h Hh Hok.
    destruct (ProjectFacts.getAncestors_reaches SHA1 now st h Hh Hok) as (A & HA & Hin & Hreach).
    exists A. split_and!; try done.
    intros fuel Hle. unfold Project.getAncestors in HA. rewrite decide_False in HA by done.
    by apply (ProjectFacts.getAncestors_loop_enough SHA1 now st
                (Project.getAncestors_fuel SHA1 now st h)).
  - intros clk st h Hh.
    destruct (SimpleFacts.find_lca_visits clk st h Hh) as (fuel & A & HA & Hin & Hreach).
    exists fuel, A. split; [| done].
    intros fuel' Hle. by apply (SimpleFacts.visit_loop_enough clk st fuel).
Qed.

Lemma hashes_recorded_by_list SHA1 now st :
  Forall (λ k, Project.hash (Project.read_commit_object SHA1 now st k) ≠ "")
         (elements (dom (Project.commits st))) →
  Project.hashes_recorded SHA1 now st.
Proof.
  intros H k Hk. rewrite Forall_forall in H. apply H.
  by apply elem_of_elements, elem_of_dom.
Qed.

Lemma ancestors_terminate_and_cover_witness :
  (∃ A, Project.getAncestors Sample.digest Sample.noon Sample.diverged "c1" = Some A
        ∧ (∀ fuel, (Project.getAncestors_fuel Sample.digest Sample.noon Sample.diverged "c1"
                      ≤ fuel)%nat →
             Project.getAncestors_loop Sample.digest fuel Sample.noon Sample.diverged
               {["c1"]} ["c1"] = Some A)
        ∧ "c1" ∈ A
        ∧ ∀ x, x ∈ A ↔ rtc (Project.parent_link Sample.digest Sample.noon Sample.diverged) "c1" x)
  ∧ (∃ fuel A, (∀ fuel', (fuel ≤ fuel')%nat →
                  Simple.visit_loop fuel' Sample.clk2 Sample.simple_diverged ∅ ["s1"] = Some A)
               ∧ "s1" ∈ A
               ∧ ∀ x, x ∈ A ↔ rtc (Simple.parent_link Sample.clk2 Sample.simple_diverged) "s1" x).
Proof.
  split.
  - apply (proj1 ancestors_terminate_and_cover).
    + discriminate.
    + apply hashes_recorded_by_list. apply (bool_decide_unpack _). vm_compute. exact I.
  - apply (proj2 ancestors_terminate_and_cover). discriminate.
Defined.



(** In the other edition the same conflict does not stop the merge: a merge
    commit is stored, [main] moves to it, and the file that held the markers
    is written over with nothing. *)
Lemma simple_merge_commits_despite_conflict :
  let r := Simple.merge Sample.fnv1a Sample.elements_order 10 Sample.clk2
             Sample.simple_diverged "feat" in
  (λ x : Simple.repo * list line, x.2) <$> r
  = Some [(cout, "Merge has conflicts! Resolve them manually.");
          (cout, "Merge commit created: 3cbf517")]
  ∧ (λ x : Simple.repo * list line, Simple.heads x.1 !! "main") <$> r
    = Some (Some ("3cbf5175681e1cfe" +:+ nl))
  ∧ (λ x : Simple.repo * list line, Simple.worktree x.1 !! "z") <$> r = Some (Some "").
Proof. vm_compute. done. Qed.

(** C1. [generate_simple_hash] reads the clock: the same bytes fingerprinted
    one second apart get two fingerprints. *)
Theorem simple_hash_depends_on_clock :
  Simple.generate_simple_hash Sample.fnv1a Sample.clk1 "Hello, MiniGit!" = "5c9c295cdc47babb"
  ∧ Simple.generate_simple_hash Sample.fnv1a Sample.clk2 "Hello, MiniGit!" = "490dc9494fceb36c".
Proof. vm_compute. done. Qed.

(** [computeSHA1] has no input but the content, and [save_blob] of
    [MiniGit-Project.cpp] stores a content once: the second call changes
    nothing and returns the same hash. *)
Lemma project_save_blob_idempotent SHA1 (st : Project.repo) (content : string) :
  let r1 := Project.save_blob SHA1 st content in
  let r2 := Project.save_blob SHA1 r1.1 content in
  r2.1 = r1.1 ∧ r2.2 = r1.2 ∧ r1.2 = Project.computeSHA1 SHA1 content
  ∧ is_Some (Project.objects r1.1 !! Project.computeSHA1 SHA1 content).
Proof.
  cbv zeta.
  assert (∀ st', Project.objects st' !! Project.computeSHA1 SHA1 content = None →
            Project.save_blob SHA1 st' content
            = (Project.with_objects
                 (<[Project.computeSHA1 SHA1 content := content]> (Project.objects st')) st',
               Project.computeSHA1 SHA1 content)) as Hnew
    by (intros st' E; unfold Project.save_blob; by rewrite E).
  assert (∀ st', is_Some (Project.objects st' !! Project.computeSHA1 SHA1 content) →
            Project.save_blob SHA1 st' content = (st', Project.computeSHA1 SHA1 content)) as Hold
    by (intros st' [old E]; unfold Project.save_blob; by rewrite E).
  destruct (Project.objects st !! Project.computeSHA1 SHA1 content) as [old|] eqn:E.
  - rewrite (Hold st) by by rewrite E. cbn [fst snd]. rewrite (Hold st) by by rewrite E.
    split_and!; done.
  - rewrite (Hnew st E). cbn [fst snd].
    assert (is_Some (Project.objects
              (Project.with_objects
                 (<[Project.computeSHA1 SHA1 content := content]> (Project.objects st)) st)
              !! Project.computeSHA1 SHA1 content)) as Hs
      by (cbn [Project.objects Project.with_objects]; by rewrite lookup_insert_eq).
    rewrite Hold by exact Hs. done.
Qed.

(** C4. [save_blob] of the edition with [generate_simple_hash], called twice
    on the same content one second apart, returns two hashes and leaves two
    objects with that content. *)
Theorem simple_save_blob_twice_keeps_two :
  let r1 := Simple.save_blob Sample.fnv1a Sample.clk1 Sample.fresh ("hello" +:+ nl) in
  let r2 := Simple.save_blob Sample.fnv1a Sample.clk2 r1.1 ("hello" +:+ nl) in
  r1.2 = "5e6a27755fd1610a" ∧ r2.2 = "6c87331f7e50c15d"
  ∧ Simple.objects r2.1 !! "5e6a27755fd1610a" = Some ("hello" +:+ nl)
  ∧ Simple.objects r2.1 !! "6c87331f7e50c15d" = Some ("hello" +:+ nl)
  ∧ size (Simple.objects r2.1) = 2.
Proof. vm_compute. done. Qed.

(** [merge] of [MiniGit-Project.cpp] on a branch that names the current
    commit changes nothing and says so. *)
Lemma project_merge_same_commit_noop SHA1 ord now (st : Project.repo) (b tf : string) :
  Project.heads st !! b = Some tf →
  Project.current_branch_head_hash st = first_line tf →
  Project.merge SHA1 ord now st b = Some (st, [(cout, "Already up to date.")]).
Proof.
  intros Hb Hc. unfold Project.merge. rewrite Hb. by rewrite decide_True.
Qed.

(** C8. [merge] of the edition with [find_lca], asked to merge [main] while
    [HEAD] is on [main], stores a merge commit whose two parents are the
    current commit, moves [main] to it, and does not report that the branch
    is up to date. *)
Theorem simple_merge_into_itself_commits :
  let st := Sample.committed in
  let r := Simple.merge Sample.fnv1a Sample.elements_order 10 Sample.clk2 st "main" in
  Simple.get_head_hash st = "8f483326b13c8cd6"
  ∧ Simple.heads st !! "main" = Some ("8f483326b13c8cd6" +:+ nl)
  ∧ Simple.objects st !! "258962bdfd33bced" = None
  ∧ (λ x : Simple.repo * list line, x.2) <$> r
    = Some [(cout, "Merge completed without conflicts.");
            (cout, "Merge commit created: 258962b")]
  ∧ (λ x : Simple.repo * list line, Simple.heads x.1 !! "main") <$> r
    = Some (Some ("258962bdfd33bced" +:+ nl))
  ∧ (λ x : Simple.repo * list line,
       Simple.parent_hashes (Simple.read_commit Sample.clk2 x.1 "258962bdfd33bced")) <$> r
    = Some ["8f483326b13c8cd6"; "8f483326b13c8cd6"].
Proof. vm_compute. done. Qed.

(** * The remaining commands *)

(** ** More facts about the text helpers *)

Lemma all_chars_impl (P Q : ascii → bool) (s : string) :
  (∀ c, P c = true → Q c = true) → all_chars P s = true → all_chars Q s = true.
Proof.
  intros HPQ. induction s as [|c s IH]; simpl; [done |].
  intros [Hc Hs]%andb_prop. by rewrite (HPQ c Hc), IH.
Qed.

Lemma hex_digit_cases (c : ascii) :
  hex_digit c = true →
  Ascii.is_space c = false ∧ Ascii.eqb c newline = false
  ∧ Ascii.eqb c ":" = false ∧ Ascii.eqb c "," = false.
Proof.
  destruct c as [[] [] [] [] [] [] [] []]; vm_compute; intros H;
    try discriminate H; done.
Qed.

Lemma hex_no_space (s : string) : all_chars hex_digit s = true → no_space s = true.
Proof.
  apply all_chars_impl. intros c Hc.
  by destruct (hex_digit_cases c Hc) as (-> & _).
Qed.

Lemma hex_free_of (d : ascii) (s : string) :
  hex_digit d = false → all_chars hex_digit s = true → free_of d s = true.
Proof.
  intros Hd. apply all_chars_impl. intros c Hc.
  destruct (Ascii.eqb_spec c d) as [->|]; [congruence | done].
Qed.

Lemma hex_no_newline (s : string) : all_chars hex_digit s = true → no_newline s = true.
Proof. intros H. by apply no_space_no_newline, hex_no_space. Qed.

Lemma plain_name_nonempty (s : string) : plain_name s = true → s ≠ "".
Proof. by intros H ->. Qed.

Lemma hex_plain_name (s : string) :
  s ≠ "" → all_chars hex_digit s = true → plain_name s = true.
Proof.
  intros Hs Hh. unfold plain_name. rewrite (hex_free_of "/" s eq_refl Hh).
  destruct s as [|c s]; [done |]. simpl in Hh. apply andb_prop in Hh as [Hc _].
  assert (Ascii.eqb c "." = false) as Hdot
    by (destruct c as [[] [] [] [] [] [] [] []]; vm_compute in Hc |- *; done).
  unfold names_directory. simpl. by rewrite Hdot.
Qed.

Lemma hex2_shape (b : ascii) :
  String.length (hex2 b) = 2 ∧ all_chars hex_digit (hex2 b) = true.
Proof. destruct b as [[] [] [] [] [] [] [] []]; vm_compute; done. Qed.

Lemma concat_hex (l : list string) :
  Forall (λ s, all_chars hex_digit s = true) l →
  all_chars hex_digit (String.concat "" l) = true.
Proof.
  induction 1 as [|s l Hs _ IH]; [done |].
  rewrite concat_cons_s, all_chars_app. by rewrite Hs, IH.
Qed.

Lemma concat_length (n : nat) (l : list string) :
  Forall (λ s, String.length s = n) l →
  String.length (String.concat "" l) = (n * length l)%nat.
Proof.
  induction 1 as [|s l Hs _ IH]; [simpl; lia |].
  rewrite concat_cons_s, length_app_s, Hs, IH. simpl. lia.
Qed.

Lemma uint_hex (d : Hexadecimal.uint) :
  all_chars hex_digit (HexadecimalString.NilEmpty.string_of_uint d) = true.
Proof. induction d; simpl; try done; by rewrite IHd. Qed.

Lemma to_hex_shape (n : N) : to_hex n ≠ "" ∧ all_chars hex_digit (to_hex n) = true.
Proof.
  unfold to_hex, HexadecimalString.NilZero.string_of_uint.
  destruct (N.to_hex_uint n) eqn:E; (split; [discriminate | try done]);
    rewrite <- E; try apply uint_hex.
  all: rewrite E; apply (uint_hex _).
Qed.

Lemma first_line_no_newline (s : string) : no_newline (first_line s) = true.
Proof.
  unfold first_line, lines.
  assert (Forall (λ l, no_newline l = true) (split_on newline s)) as H.
  { induction s as [|c s IH]; simpl; [constructor |].
    destruct (Ascii.eqb c newline) eqn:E; [by constructor |].
    destruct (split_on newline s) as [|l ls].
    - constructor; [| constructor]. unfold no_newline. simpl. by rewrite E.
    - inversion IH as [|? ? Hl Hls]; subst. constructor; [| done].
      unfold no_newline in *. simpl. by rewrite E, Hl. }
  destruct H; done.
Qed.

Lemma first_line_nl (l : string) : no_newline l = true → first_line (l +:+ nl) = l.
Proof. intros H. rewrite <- (app_empty_r nl). by apply first_line_line. Qed.

Lemma skip_ws_word (t r : string) : t ≠ "" → no_space t = true → skip_ws (t +:+ r) = t +:+ r.
Proof.
  destruct t as [|c t]; [done |]. intros _ H. simpl in *.
  apply andb_prop in H as [Hc _]. by destruct (Ascii.is_space c).
Qed.

Lemma extract_first (t r : string) :
  t ≠ "" → no_space t = true →
  (r = "" ∨ ∃ c r', r = String c r' ∧ Ascii.is_space c = true) →
  extract (t +:+ r) = (t, r).
Proof.
  intros Ht Hs Hr. unfold extract. rewrite skip_ws_word by done. by apply take_word_app.
Qed.

Lemma find_char_app (d : ascii) (f r : string) :
  free_of d f = true → find_char d (f +:+ String d r) = Some (String.length f).
Proof.
  induction f as [|c f IH]; simpl.
  - by rewrite Ascii.eqb_refl.
  - intros [Hc Hf]%andb_prop. apply negb_true_iff in Hc. rewrite Hc.
    by rewrite (IH Hf).
Qed.

Lemma substr_to_app (p s : string) : substr_to (String.length p) (p +:+ s) = p.
Proof. induction p as [|c p IH]; simpl; [by destruct s | by rewrite IH]. Qed.

Lemma split_on_single (d : ascii) (l : string) :
  l ≠ "" → free_of d l = true → split_on d l = [l].
Proof.
  induction l as [|c l IH]; [done |]. intros _ [Hc Hl]%andb_prop.
  apply negb_true_iff in Hc. simpl. rewrite Hc.
  destruct l as [|c' l']; [done |].
  rewrite IH; done.
Qed.

Lemma concat_sep_cons (sep x y : string) (l : list string) :
  String.concat sep (x :: y :: l) = x +:+ sep +:+ String.concat sep (y :: l).
Proof. reflexivity. Qed.

Lemma split_on_concat (d : ascii) (ps : list string) :
  Forall (λ p, p ≠ "" ∧ free_of d p = true) ps →
  split_on d (String.concat (String d "") ps) = ps.
Proof.
  induction 1 as [|p ps [Hp Hd] Hps IH]; [done |].
  destruct ps as [|q ps].
  - simpl. by apply split_on_single.
  - rewrite concat_sep_cons. change (String d "" +:+ ?r) with (String d r).
    rewrite split_on_line by exact Hd. by rewrite IH.
Qed.

Lemma concat_sep_free (P : ascii → bool) (sep : string) (ps : list string) :
  all_chars P sep = true → Forall (λ p, all_chars P p = true) ps →
  all_chars P (String.concat sep ps) = true.
Proof.
  intros Hsep. induction 1 as [|p ps Hp Hps IH]; [done |].
  destruct ps as [|q ps]; [done |].
  rewrite concat_sep_cons, !all_chars_app. by rewrite Hp, Hsep, IH.
Qed.

(** ** [MiniGit-Project.cpp]: object names, the index and the commit files *)

Module ProjectStore.
Import Project.

Section Names.
Variable SHA1 : string → nat → ascii.

Lemma computeSHA1_shape content :
  String.length (computeSHA1 SHA1 content) = 40
  ∧ all_chars hex_digit (computeSHA1 SHA1 content) = true.
Proof.
  unfold computeSHA1. split.
  - rewrite (concat_length 2).
    + by rewrite length_map, length_seq.
    + apply Forall_map, Forall_forall. intros i _. apply hex2_shape.
  - apply concat_hex, Forall_map, Forall_forall. intros i _. apply hex2_shape.
Qed.

End Names.

(** *** The index file *)

Lemma skip_ws_index_lines (l : list (string * string)) :
  Forall wf_entry l →
  skip_ws (String.concat "" (map index_line l)) = String.concat "" (map index_line l).
Proof.
  destruct 1 as [|p l (H1 & _ & H3 & _) _]; [done |].
  cbn [map]. rewrite concat_cons_s. unfold index_line at 1 3.
  rewrite !app_assoc_s. by apply skip_ws_word.
Qed.

Lemma load_entries_index_lines (l : list (string * string)) : ∀ fuel text acc,
  Forall wf_entry l → (length l ≤ fuel)%nat →
  skip_ws text = String.concat "" (map index_line l) →
  load_entries fuel text acc = foldl (λ a p, <[p.1 := id p.2]> a) acc l.
Proof.
  induction l as [|p l IH]; intros fuel text acc Hwf Hfuel Htext.
  - destruct fuel as [|fuel]; [done |]. cbn [load_entries]. unfold extract. rewrite Htext.
    done.
  - destruct fuel as [|fuel]; [simpl in Hfuel; lia |].
    inversion Hwf as [|? ? (H1 & H2 & H3 & H4) Hwf']; subst.
    cbn [load_entries]. unfold extract at 1. rewrite Htext.
    cbn [map]. rewrite concat_cons_s. unfold index_line at 1. rewrite !app_assoc_s.
    rewrite take_word_app; [| done | right; by eexists _, _].
    rewrite decide_False by done.
    rewrite extract_word; [| done | done | right; by exists newline, (String.concat "" (map index_line l))].
    rewrite decide_False by done.
    cbn [foldl]. apply IH; [done | simpl in Hfuel; lia |].
    change (nl +:+ ?r) with (String newline r). cbn [skip_ws]. simpl.
    by apply skip_ws_index_lines.
Qed.

Lemma extract_shorter (s : string) :
  (String.length (extract s).1 + String.length (extract s).2 ≤ String.length s)%nat.
Proof.
  unfold extract.
  assert (∀ t, String.length (take_word t).1 + String.length (take_word t).2
               = String.length t) as Ht.
  { induction t as [|c t IH]; [done |]. simpl. destruct (Ascii.is_space c); [done |].
    destruct (take_word t). simpl in *. lia. }
  assert (String.length (skip_ws s) ≤ String.length s)%nat as Hs.
  { induction s as [|c s IH]; [done |]. simpl. destruct (Ascii.is_space c); simpl; lia. }
  rewrite Ht. exact Hs.
Qed.

Lemma load_entries_fuel : ∀ fuel1 fuel2 text acc,
  (String.length text ≤ fuel1)%nat → (String.length text ≤ fuel2)%nat →
  load_entries fuel1 text acc = load_entries fuel2 text acc.
Proof.
  assert (∀ fuel acc, load_entries fuel "" acc = acc) as Hempty
    by (intros [|fuel] acc; done).
  induction fuel1 as [|fuel1 IH]; intros fuel2 text acc H1 H2.
  - destruct text; [| simpl in H1; lia]. by rewrite Hempty.
  - destruct fuel2 as [|fuel2].
    { destruct text; [| simpl in H2; lia]. by rewrite !Hempty. }
    cbn [load_entries].
    pose proof (extract_shorter text) as E1.
    destruct (extract text) as [filename r1]. cbn [fst snd] in E1.
    destruct (decide (filename = "")) as [?|Hf]; [done |].
    pose proof (extract_shorter r1) as E2.
    destruct (extract r1) as [blob_hash r2]. cbn [fst snd] in E2.
    destruct (decide (blob_hash = "")); [done |].
    assert (0 < String.length filename)%nat by (destruct filename; [done | simpl; lia]).
    apply IH; lia.
Qed.

Lemma save_load_staging_area (st : repo) :
  map_Forall (λ f h, wf_entry (f, h)) (staging_area_ st) →
  load_staging_area (save_staging_area st) = save_staging_area st.
Proof.
  intros Hwf. unfold load_staging_area, save_staging_area.
  cbn [index with_index staging_area_].
  fold index_line.
  rewrite (load_entries_index_lines (items (staging_area_ st))).
  - rewrite foldl_insert_items, map_fmap_id. by destruct st.
  - by apply items_Forall.
  - generalize (items (staging_area_ st)). intros l.
    induction l as [|p l IH]; [simpl; lia |].
    cbn [map length]. rewrite concat_cons_s, length_app_s. unfold index_line at 1.
    rewrite !length_app_s. simpl. lia.
  - apply skip_ws_index_lines. by apply items_Forall.
Qed.

(** *** The commit files *)

Lemma no_newline_app (a b : string) :
  no_newline (a +:+ b) = no_newline a && no_newline b.
Proof. apply all_chars_app. Qed.

Lemma commit_text_lines (c : CommitNode) :
  no_newline (hash c) = true → no_newline (message c) = true →
  no_newline (timestamp c) = true →
  Forall (λ p, no_newline p = true) (parent_hashes c) →
  Forall (λ p, no_newline (file_line p) = true) (items (tracked_files c)) →
  lines (commit_text c)
  = ["hash:" +:+ hash c; "message:" +:+ message c; "timestamp:" +:+ timestamp c;
     "parent_hash:" +:+ String.concat "," (parent_hashes c)]
      ++ map file_line (items (tracked_files c)).
Proof.
  intros Hh Hm Ht Hp Hf. unfold commit_text.
  rewrite <- (app_assoc_s "hash:" (hash c)).
  rewrite lines_line by (rewrite no_newline_app, Hh; done).
  rewrite <- (app_assoc_s "message:" (message c)).
  rewrite lines_line by (rewrite no_newline_app, Hm; done).
  rewrite <- (app_assoc_s "timestamp:" (timestamp c)).
  rewrite lines_line by (rewrite no_newline_app, Ht; done).
  rewrite <- (app_assoc_s "parent_hash:" (String.concat "," (parent_hashes c))).
  rewrite lines_line.
  2:{ rewrite no_newline_app. apply andb_true_intro. split; [done |].
      by apply concat_sep_free. }
  cbn [app]. do 4 f_equal.
  rewrite (map_ext _ (λ p, file_line p +:+ nl)).
  2:{ intros p. unfold file_line. by rewrite !app_assoc_s. }
  rewrite <- (app_empty_r (String.concat "" _)).
  rewrite SimpleText.lines_block by done. by rewrite app_nil_r.
Qed.

Lemma read_file_line (r : reader) (p : string * string) :
  free_of ":" p.1 = true →
  read_line r (file_line p)
  = mkReader (commit_hash_from_file r) (msg r) (ts r) (p_h_str r) (p_hs r)
      (<[p.1 := p.2]> (files_map r)).
Proof.
  intros Hp. unfold read_line, file_line.
  change (starts_with "hash:" ("file:" +:+ ?x)) with false.
  change (starts_with "message:" ("file:" +:+ ?x)) with false.
  change (starts_with "timestamp:" ("file:" +:+ ?x)) with false.
  change (starts_with "parent_hash:" ("file:" +:+ ?x)) with false.
  rewrite starts_with_app. cbv iota.
  change 5 with (String.length "file:"). rewrite substr_from_app.
  change (":" +:+ p.2) with (String ":" p.2).
  rewrite find_char_app by done.
  rewrite substr_to_app.
  assert (∀ a b, substr_from (S (String.length a)) (a +:+ String ":" b) = b) as E.
  { intros a b. induction a as [|x a IH]; simpl; [done | exact IH]. }
  by rewrite E.
Qed.

Lemma read_file_lines (its : list (string * string)) : ∀ r,
  Forall (λ p, free_of ":" p.1 = true) its →
  foldl read_line r (map file_line its)
  = mkReader (commit_hash_from_file r) (msg r) (ts r) (p_h_str r) (p_hs r)
      (foldl (λ a p, <[p.1 := id p.2]> a) (files_map r) its).
Proof.
  induction its as [|p its IH]; intros r Hwf; simpl.
  - by destruct r.
  - apply Forall_cons in Hwf as [Hp Hwf]. rewrite read_file_line by done.
    by rewrite IH.
Qed.

Lemma read_header_lines (c : CommitNode) :
  Forall (λ p, p ≠ "" ∧ free_of "," p = true) (parent_hashes c) →
  foldl read_line (mkReader "" "" "" "" [] ∅)
    ["hash:" +:+ hash c; "message:" +:+ message c; "timestamp:" +:+ timestamp c;
     "parent_hash:" +:+ String.concat "," (parent_hashes c)]
  = mkReader (hash c) (message c) (timestamp c) (hd "" (parent_hashes c))
      (parent_hashes c) ∅.
Proof.
  intros Hps. cbn [foldl].
  assert (∀ r x, read_line r ("hash:" +:+ x)
                 = mkReader x (msg r) (ts r) (p_h_str r) (p_hs r) (files_map r)) as E1.
  { intros r x. unfold read_line. rewrite starts_with_app.
    change 5 with (String.length "hash:"). by rewrite substr_from_app. }
  assert (∀ r x, read_line r ("message:" +:+ x)
                 = mkReader (commit_hash_from_file r) x (ts r) (p_h_str r) (p_hs r)
                     (files_map r)) as E2.
  { intros r x. unfold read_line.
    change (starts_with "hash:" ("message:" +:+ x)) with false. cbv iota.
    rewrite starts_with_app.
    change 8 with (String.length "message:"). by rewrite substr_from_app. }
  assert (∀ r x, read_line r ("timestamp:" +:+ x)
                 = mkReader (commit_hash_from_file r) (msg r) x (p_h_str r) (p_hs r)
                     (files_map r)) as E3.
  { intros r x. unfold read_line.
    change (starts_with "hash:" ("timestamp:" +:+ x)) with false.
    change (starts_with "message:" ("timestamp:" +:+ x)) with false. cbv iota.
    rewrite starts_with_app.
    change 10 with (String.length "timestamp:"). by rewrite substr_from_app. }
  assert (∀ r x, read_line r ("parent_hash:" +:+ x)
                 = let ps := p_hs r ++ split_on "," x in
                   mkReader (commit_hash_from_file r) (msg r) (ts r)
                     (match ps with [] => p_h_str r | p :: _ => p end) ps (files_map r)) as E4.
  { intros r x. unfold read_line.
    change (starts_with "hash:" ("parent_hash:" +:+ x)) with false.
    change (starts_with "message:" ("parent_hash:" +:+ x)) with false.
    change (starts_with "timestamp:" ("parent_hash:" +:+ x)) with false. cbv iota.
    rewrite starts_with_app.
    change 12 with (String.length "parent_hash:"). by rewrite substr_from_app. }
  rewrite E1, E2, E3, E4. cbn [commit_hash_from_file msg ts p_h_str p_hs files_map app].
  rewrite (split_on_concat "," (parent_hashes c)) by done.
  cbv zeta. by destruct (parent_hashes c).
Qed.

Lemma storable_read_back SHA1 now (st : repo) (c : CommitNode) :
  storable c → read_commit_object SHA1 now (save_commit_object st c) (hash c) = c.
Proof.
  intros (Hne & Hh & Hm & Ht & Hph & Hps & Hfs).
  unfold read_commit_object, save_commit_object. rewrite decide_False by done.
  cbn [commits with_commits]. rewrite lookup_insert_eq.
  assert (Forall (λ p : string * string,
            free_of ":" p.1 = true ∧ no_newline p.1 = true ∧ no_newline p.2 = true)
            (items (tracked_files c))) as Hits.
  { apply (items_Forall (λ p, free_of ":" p.1 = true ∧ no_newline p.1 = true
                              ∧ no_newline p.2 = true)). exact Hfs. }
  rewrite commit_text_lines; try done.
  2:{ eapply Forall_impl; [exact Hps |]. by intros p (_ & _ & ?). }
  2:{ eapply Forall_impl; [exact Hits |]. intros p (_ & H1 & H2).
      unfold file_line. rewrite !no_newline_app, H1, H2. done. }
  rewrite foldl_app, read_header_lines.
  2:{ eapply Forall_impl; [exact Hps |]. by intros p (? & ? & _). }
  rewrite read_file_lines.
  2:{ eapply Forall_impl; [exact Hits |]. by intros p (? & _). }
  cbn [commit_hash_from_file msg ts p_h_str p_hs files_map].
  rewrite foldl_insert_items, map_fmap_id.
  destruct c as [h m t ph phs tf]. cbn in *. by subst ph.
Qed.

End ProjectStore.


(** ** [MiniGit-Project.cpp]: [add], [commit], [branch] and [log] *)

Module ProjectCommands.
Import Project.

Lemma starts_with_split (p s : string) :
  starts_with p s = true → s = p +:+ substr_from (String.length p) s.
Proof.
  unfold starts_with. revert s. induction p as [|c p IH]; intros s; [done |].
  destruct s as [|c' s]; [done |]. simpl.
  destruct (ascii_dec c c') as [->|]; [| done]. intros H. f_equal. by apply IH.
Qed.

Section Commands.
Variable SHA1 : string → nat → ascii.

Lemma computeSHA1_no_ref content : starts_with "ref: " (computeSHA1 SHA1 content) = false.
Proof.
  destruct (starts_with "ref: " (computeSHA1 SHA1 content)) eqn:E; [| done].
  apply starts_with_split in E.
  destruct (ProjectStore.computeSHA1_shape SHA1 content) as [_ H].
  rewrite E in H. discriminate H.
Qed.

Lemma computeSHA1_line content : first_line (computeSHA1 SHA1 content +:+ nl) = computeSHA1 SHA1 content.
Proof.
  apply first_line_nl, hex_no_newline, ProjectStore.computeSHA1_shape.
Qed.

Lemma computeSHA1_plain content : plain_name (computeSHA1 SHA1 content) = true.
Proof.
  apply hex_plain_name; [apply ProjectFacts.computeSHA1_nonempty |].
  apply ProjectStore.computeSHA1_shape.
Qed.

(** [update_head] followed by [get_head_commit_hash], for a fingerprint. *)
Lemma update_head_resolves (st : repo) (content : string) idx stg :
  head_writable st →
  get_head_commit_hash
    (with_index idx (with_staging_area_ stg (update_head st (computeSHA1 SHA1 content))))
  = computeSHA1 SHA1 content.
Proof.
  unfold head_writable, head_attached, update_head. intros Hw.
  destruct (starts_with "ref: refs/heads/"
              match HEAD st with Some c => first_line c | None => "" end) eqn:E.
  - destruct (Hw eq_refl) as [-> ->]. cbn [andb].
    destruct (HEAD st) as [c|] eqn:EH; [| done].
    unfold get_head_commit_hash. cbn [HEAD with_heads with_index with_staging_area_]. rewrite EH.
    apply starts_with_split in E.
    set (x := substr_from (String.length "ref: refs/heads/") (first_line c)) in E.
    rewrite E.
    change (starts_with "ref: " ("ref: refs/heads/" +:+ ?x)) with true. cbv iota.
    change (substr_from 5 ("ref: refs/heads/" +:+ ?x)) with ("refs/heads/" +:+ x).
    unfold file_at. rewrite starts_with_app.
    change (substr_from 11 ("refs/heads/" +:+ x)) with x.
    change (substr_from 16 ("ref: refs/heads/" +:+ x)) with x.
    cbn [heads with_heads with_index with_staging_area_]. rewrite lookup_insert_eq.
    apply computeSHA1_line.
  - unfold get_head_commit_hash. cbn [HEAD with_HEAD with_index with_staging_area_].
    rewrite computeSHA1_line, computeSHA1_no_ref. done.
Qed.

(** *** [add] *)

Lemma add_found (st : repo) (filename content : string) :
  worktree st !! filename = Some content →
  let h := computeSHA1 SHA1 content in
  add SHA1 st filename
  = (save_staging_area
       (with_staging_area_ (<[filename := h]> (staging_area_ st))
          (save_blob SHA1 st content).1),
     [(cout, "Added '" +:+ filename +:+ "' to staging area. Blob hash: " +:+ h)]).
Proof.
  intros Hf. unfold add. rewrite Hf.
  assert ((save_blob SHA1 st content).2 = computeSHA1 SHA1 content
          ∧ staging_area_ (save_blob SHA1 st content).1 = staging_area_ st) as [E1 E2]
    by (unfold save_blob; destruct (objects st !! computeSHA1 SHA1 content); done).
  destruct (save_blob SHA1 st content) as [st1 blob_hash]. cbn [fst snd] in *. subst blob_hash.
  rewrite decide_False by apply ProjectFacts.computeSHA1_nonempty.
  by rewrite E2.
Qed.

Lemma save_blob_objects (st : repo) (content : string) :
  let st1 := (save_blob SHA1 st content).1 in
  objects st1 !! computeSHA1 SHA1 content
  = Some (default content (objects st !! computeSHA1 SHA1 content))
  ∧ (∀ k, k ≠ computeSHA1 SHA1 content → objects st1 !! k = objects st !! k)
  ∧ HEAD st1 = HEAD st ∧ heads st1 = heads st ∧ commits st1 = commits st
  ∧ index st1 = index st ∧ staging_area_ st1 = staging_area_ st
  ∧ worktree st1 = worktree st.
Proof.
  unfold save_blob. destruct (objects st !! computeSHA1 SHA1 content) eqn:E;
    cbn [fst objects HEAD heads commits index staging_area_ worktree with_objects default].
  - by rewrite E.
  - rewrite lookup_insert_eq. split_and!; try done.
    intros k Hk. by rewrite lookup_insert_ne.
Qed.


(** X2. Adding the same file a second time changes nothing more and prints the
    same line. *)
Theorem add_twice_is_add_once (st : repo) (filename : string) :
  add SHA1 (add SHA1 st filename).1 filename = add SHA1 st filename.
Proof.
  destruct (worktree st !! filename) as [content|] eqn:Hf.
  - rewrite (add_found st filename content Hf). cbn [fst].
    set (st1 := (save_blob SHA1 st content).1).
    set (h := computeSHA1 SHA1 content).
    destruct (save_blob_objects st content) as (H1 & H2 & H3 & H4 & H5 & H6 & H7 & H8).
    fold st1 h in H1, H2, H3, H4, H5, H6, H7, H8.
    set (st2 := save_staging_area (with_staging_area_ (<[filename := h]> (staging_area_ st)) st1)).
    assert (worktree st2 !! filename = Some content) as Hf2 by (cbn; by rewrite H8).
    rewrite (add_found st2 filename content Hf2). fold h. f_equal.
    assert ((save_blob SHA1 st2 content).1 = st2) as ->.
    { unfold save_blob. fold h. cbn [objects st2 save_staging_area with_index with_staging_area_].
      by rewrite H1. }
    unfold st2, save_staging_area.
    cbn [staging_area_ with_staging_area_ with_index index objects HEAD heads commits worktree].
    by rewrite insert_insert_eq.
  - unfold add. rewrite Hf. cbn [fst]. by rewrite Hf.
Qed.

(** *** [commit] *)

Lemma get_head_commit_hash_line (st : repo) : no_newline (get_head_commit_hash st) = true.
Proof.
  unfold get_head_commit_hash. destruct (HEAD st) as [content|]; [| done].
  destruct (starts_with "ref: " (first_line content)); [| apply first_line_no_newline].
  destruct (file_at st _); apply first_line_no_newline.
Qed.

Lemma commit_parent_line (st : repo) : no_newline (commit_parent st) = true.
Proof.
  unfold commit_parent. destruct (starts_with _ _); [done | apply get_head_commit_hash_line].
Qed.

Lemma commit_made (now : string) (st : repo) (message : string) :
  staging_area_ st ≠ ∅ →
  let new_commit := CommitNode_new SHA1 now message (commit_parent st) (staging_area_ st) in
  commit SHA1 now st message
  = (save_staging_area
       (with_staging_area_ ∅ (update_head (save_commit_object st new_commit) (hash new_commit))),
     [(cout, "Committed: " +:+ message); (cout, "Commit Hash: " +:+ hash new_commit)]).
Proof. intros Hs. unfold commit. by rewrite decide_False. Qed.

Lemma update_head_frame (st : repo) (h : string) :
  let st' := update_head st h in
  objects st' = objects st ∧ commits st' = commits st ∧ index st' = index st
  ∧ staging_area_ st' = staging_area_ st ∧ worktree st' = worktree st
  ∧ has_heads st' = has_heads st.
Proof.
  unfold update_head. destruct (starts_with _ _); [| done].
  by destruct (has_heads st && plain_name _).
Qed.

(** Without [refs/heads] the branch file of an attached [HEAD] is not
    written. *)
Lemma update_head_without_heads (st : repo) (h : string) :
  head_attached st → has_heads st = false → update_head st h = st.
Proof. unfold head_attached, update_head. by intros -> ->. Qed.

Lemma new_commit_storable (now m parent_h : string) (files : gmap string string) :
  no_newline m = true → no_newline now = true →
  no_newline parent_h = true → free_of "," parent_h = true →
  map_Forall (λ f h, free_of ":" f = true ∧ no_newline f = true ∧ no_newline h = true) files →
  storable (CommitNode_new SHA1 now m parent_h files).
Proof.
  intros Hm Hn Hp Hc Hf. unfold storable, CommitNode_new.
  cbn [hash message timestamp parent_hash parent_hashes tracked_files].
  split_and!; try done.
  - apply ProjectFacts.computeSHA1_nonempty.
  - apply hex_no_newline, ProjectStore.computeSHA1_shape.
  - by destruct (decide (parent_h = "")) as [->|].
  - destruct (decide (parent_h = "")); [constructor |]. by repeat constructor.
Qed.

Lemma commit_moves_head_aux (now : string) (st : repo) (message : string) :
  staging_area_ st ≠ ∅ →
  let new_commit := CommitNode_new SHA1 now message (commit_parent st) (staging_area_ st) in
  let st' := (commit SHA1 now st message).1 in
  (head_writable st → get_head_commit_hash st' = hash new_commit)
  ∧ String.length (hash new_commit) = 40
  ∧ commits st' = <[hash new_commit := commit_text new_commit]> (commits st)
  ∧ staging_area_ st' = ∅ ∧ index st' = Some ""
  ∧ objects st' = objects st ∧ worktree st' = worktree st
  ∧ has_heads st' = has_heads st.
Proof.
  intros Hs. cbv zeta. rewrite commit_made by done. cbn [fst].
  set (new_commit := CommitNode_new SHA1 now message (commit_parent st) (staging_area_ st)).
  set (st1 := save_commit_object st new_commit).
  destruct (update_head_frame st1 (hash new_commit)) as (H1 & H2 & H3 & H4 & H5 & H6).
  unfold save_staging_area.
  cbn [staging_area_ with_staging_area_ with_index index objects commits worktree has_heads].
  rewrite items_empty. split_and!; try done.
  - intros Hw. by apply (update_head_resolves st1).
  - apply ProjectStore.computeSHA1_shape.
Qed.

(** X3. A commit stores the new record under its hash, which has forty
    characters, empties the staging area and the index file, and leaves
    blobs and working files untouched.  When [HEAD] is detached, or attached
    to a branch whose file can be written, [HEAD] resolves to the new record
    afterwards.  When [HEAD] is attached and there is no directory
    [refs/heads], as in a repository that [init] has made, no reference is
    written: [HEAD] and what it resolves to are as before. *)
Theorem commit_moves_head (now : string) (st : repo) (message : string) :
  staging_area_ st ≠ ∅ →
  let new_commit := CommitNode_new SHA1 now message (commit_parent st) (staging_area_ st) in
  let st' := (commit SHA1 now st message).1 in
  String.length (hash new_commit) = 40
  ∧ commits st' = <[hash new_commit := commit_text new_commit]> (commits st)
  ∧ staging_area_ st' = ∅ ∧ index st' = Some ""
  ∧ objects st' = objects st ∧ worktree st' = worktree st
  ∧ (head_writable st → get_head_commit_hash st' = hash new_commit)
  ∧ (head_attached st → has_heads st = false →
     HEAD st' = HEAD st ∧ heads st' = heads st
     ∧ get_head_commit_hash st' = get_head_commit_hash st).
Proof.
  intros Hs. cbv zeta.
  destruct (commit_moves_head_aux now st message Hs) as (H1 & H2 & H3 & H4 & H5 & H6 & H7 & _).
  split_and!; try done.
  clear H1 H2 H3 H4 H5 H6 H7.
  intros Ha Hh. rewrite commit_made by done. cbn [fst].
  rewrite update_head_without_heads by done.
  unfold save_staging_area, get_head_commit_hash, file_at.
  cbn [HEAD heads with_index with_staging_area_ save_commit_object with_commits].
  split; [done |]. split; [done |].
  unfold head_attached in Ha.
  destruct (HEAD st) as [content|]; [| done].
  apply starts_with_split in Ha.
  set (x := substr_from (String.length "ref: refs/heads/") (first_line content)) in Ha.
  rewrite Ha.
  change (starts_with "ref: " ("ref: refs/heads/" +:+ x)) with true. cbv iota.
  change (substr_from 5 ("ref: refs/heads/" +:+ x)) with ("refs/heads/" +:+ x).
  by rewrite starts_with_app.
Qed.

Lemma commit_read_back (now later : string) (st : repo) (message : string) :
  staging_area_ st ≠ ∅ →
  no_newline message = true → no_newline now = true →
  free_of "," (commit_parent st) = true →
  map_Forall (λ f h, free_of ":" f = true ∧ no_newline f = true ∧ no_newline h = true)
    (staging_area_ st) →
  let new_commit := CommitNode_new SHA1 now message (commit_parent st) (staging_area_ st) in
  read_commit_object SHA1 later (commit SHA1 now st message).1 (hash new_commit) = new_commit.
Proof.
  intros Hs Hm Hn Hc Hf. cbv zeta. rewrite commit_made by done. cbn [fst].
  set (new_commit := CommitNode_new SHA1 now message (commit_parent st) (staging_area_ st)).
  set (st1 := save_commit_object st new_commit).
  destruct (update_head_frame st1 (hash new_commit)) as (H1 & H2 & H3 & H4 & H5 & H6).
  rewrite (ProjectFacts.read_commit_object_ext SHA1 later st1).
  - apply ProjectStore.storable_read_back.
    apply new_commit_storable; try done. apply commit_parent_line.
  - unfold save_staging_area. cbn [commits with_index with_staging_area_]. exact H2.
Qed.

(** X4. Where [update_head] can write, a commit made by [commit] reads back
    through [HEAD] as it was built: the message (one line), the time, the
    files as they were staged, and for parent the commit that [HEAD]
    named. *)
Theorem commit_is_read_back (now later : string) (st : repo) (message : string) :
  staging_area_ st ≠ ∅ → head_writable st →
  no_newline message = true → no_newline now = true →
  free_of "," (commit_parent st) = true →
  map_Forall (λ f h, free_of ":" f = true ∧ no_newline f = true ∧ no_newline h = true)
    (staging_area_ st) →
  let st' := (commit SHA1 now st message).1 in
  let c := read_commit_object SHA1 later st' (get_head_commit_hash st') in
  Project.message c = message ∧ timestamp c = now
  ∧ tracked_files c = staging_area_ st
  ∧ parent_hashes c = (if decide (commit_parent st = "") then [] else [commit_parent st]).
Proof.
  intros Hs Hw Hm Hn Hc Hf. cbv zeta.
  destruct (commit_moves_head_aux now st message Hs) as [Hhead _].
  rewrite (Hhead Hw). by rewrite commit_read_back.
Qed.

(** X5. Checking out the hash of a commit just made rebuilds the working
    directory from the files that were staged, and from nothing else: a
    working file that was not staged for this commit is removed.  The
    staged paths are file names with a fingerprint, and [update_head] can
    write. *)
Theorem commit_then_checkout_restores_staged (now later : string) (st : repo)
    (message : string) :
  staging_area_ st ≠ ∅ → head_writable st →
  no_newline message = true → no_newline now = true →
  free_of "," (commit_parent st) = true →
  map_Forall (λ f h, free_of ":" f = true ∧ no_newline f = true ∧ no_newline h = true)
    (staging_area_ st) →
  restorable (staging_area_ st) →
  let st1 := (commit SHA1 now st message).1 in
  let h := get_head_commit_hash st1 in
  heads st1 !! h = None →
  let st2 := (checkout SHA1 later st1 h).1 in
  HEAD st2 = Some (h +:+ nl)
  ∧ worktree st2 = blob_content st <$> staging_area_ st.
Proof.
  intros Hs Hw Hm Hn Hc Hf Hr. cbv zeta.
  destruct (commit_moves_head_aux now st message Hs) as (Hhead & Hlen & Hcs & _ & _ & Hobj & _).
  rewrite (Hhead Hw).
  pose proof (commit_read_back now later st message Hs Hm Hn Hc Hf) as Hread.
  cbv zeta in Hread.
  set (new_commit := CommitNode_new SHA1 now message (commit_parent st) (staging_area_ st)) in *.
  set (st1 := (commit SHA1 now st message).1) in *.
  intros Hb. unfold checkout.
  rewrite (ProjectFacts.branch_file_plain st1 (hash new_commit)) by apply computeSHA1_plain.
  rewrite Hb.
  rewrite decide_True.
  2:{ split; [exact Hlen |]. rewrite Hcs, lookup_insert_eq. by eexists. }
  set (st1' := with_HEAD (Some (hash new_commit +:+ nl)) st1).
  pose proof (ProjectFacts.restore_HEAD SHA1 later st1' (hash new_commit)) as HH.
  pose proof (ProjectFacts.restore_worktree SHA1 later st1' (hash new_commit)) as HW.
  destruct (restore SHA1 later st1' (hash new_commit)) as [st2 out]. cbn [fst] in *.
  assert (read_commit_object SHA1 later st1' (hash new_commit) = new_commit) as E
    by (rewrite <- Hread at 2; by apply ProjectFacts.read_commit_object_ext).
  rewrite E in HW.
  assert (hash new_commit ≠ "") as Hne by apply ProjectFacts.computeSHA1_nonempty.
  split; [exact HH |]. rewrite HW by done.
  apply map_eq. intros f. rewrite !lookup_fmap.
  destruct (staging_area_ st !! f) as [b|] eqn:Ef; cbn [tracked_files new_commit CommitNode_new];
    rewrite Ef; [| done].
  cbn. f_equal. unfold blob_content. f_equal.
  apply ProjectFacts.read_blob_ext. exact Hobj.
Qed.

(** *** [branch] *)

Lemma file_at_new_branch (st : repo) (b v path x : string) :
  heads st !! b = None → file_at st path = Some x →
  file_at (with_heads (<[b := v]> (heads st)) st) path = Some x.
Proof.
  intros Hb. unfold file_at. destruct (starts_with "refs/heads/" path); [| done].
  cbn [heads with_heads]. intros Hx.
  destruct (decide (b = substr_from 11 path)) as [E|E].
  - rewrite <- E in Hx. congruence.
  - by rewrite lookup_insert_ne.
Qed.

Lemma branch_created (st : repo) (b : string) :
  plain_name b = true → has_heads st = true → heads st !! b = None →
  (branch st b).1 ≠ st →
  let h := current_branch_head_hash st in
  h ≠ "" ∧ no_newline h = true
  ∧ branch st b
    = (with_heads (<[b := h +:+ nl]> (heads st)) st,
       [(cout, "Branch '" +:+ b +:+ "' created at " +:+ h)])
  ∧ current_branch_head_hash (with_heads (<[b := h +:+ nl]> (heads st)) st) = h.
Proof.
  intros Hb Hheads Hn. unfold branch, current_branch_head_hash.
  rewrite (ProjectFacts.branch_file_plain st b Hb), Hheads, Hb. cbn [andb].
  rewrite decide_False by (intros [? ?]; congruence).
  pose proof (get_head_commit_hash_line st) as Hline.
  assert (get_head_commit_hash (with_heads (<[b := current_branch_head_hash st +:+ nl]> (heads st)) st)
          = get_head_commit_hash st ∨ starts_with "ref: " (get_head_commit_hash st) = true
            ∧ file_at st (substr_from 5 (get_head_commit_hash st)) = None) as Hhead.
  { unfold get_head_commit_hash. cbn [HEAD with_heads].
    destruct (HEAD st) as [content|]; [| by left].
    destruct (starts_with "ref: " (first_line content)) eqn:E; [| by left].
    destruct (file_at st (substr_from 5 (first_line content))) as [ref|] eqn:Ef.
    - left. by rewrite (file_at_new_branch st b _ _ ref Hn Ef).
    - right. by rewrite E, Ef. }
  unfold current_branch_head_hash in Hhead.
  destruct (starts_with "ref: " (get_head_commit_hash st)) eqn:E.
  - destruct (file_at st (substr_from 5 (get_head_commit_hash st))) as [branch_file|] eqn:Ef.
    + destruct Hhead as [Hhead|[_ ?]]; [| done].
      destruct (decide (first_line branch_file = "")) as [E0|E0]; [done |].
      intros _. cbv zeta. split_and!; try done; [apply first_line_no_newline |].
      rewrite Hhead, E. by rewrite (file_at_new_branch st b _ _ branch_file Hn Ef).
    + rewrite decide_True by done. done.
  - destruct Hhead as [Hhead|[? _]]; [| done].
    destruct (decide (get_head_commit_hash st = "")) as [E0|E0]; [done |].
    intros _. cbv zeta. split_and!; try done. by rewrite Hhead, E.
Qed.

(** X6. In a repository that has the directory [refs/heads], a branch that
    [branch] has just created under a file name names the current commit:
    merging it is reported as up to date and changes nothing, and checking
    it out attaches [HEAD] to it and rebuilds the working directory from
    the files of the current commit, when their paths are file names with
    a fingerprint. *)
Theorem branch_then_merge_or_checkout
    (unordered_order : gset string → list string) (now : string) (st : repo) (b : string) :
  plain_name b = true → has_heads st = true →
  (branch st b).1 ≠ st →
  let st1 := (branch st b).1 in
  let h := current_branch_head_hash st in
  heads st1 = <[b := h +:+ nl]> (heads st)
  ∧ merge SHA1 unordered_order now st1 b = Some (st1, [(cout, "Already up to date.")])
  ∧ HEAD (checkout SHA1 now st1 b).1 = Some ("ref: refs/heads/" +:+ b +:+ nl)
  ∧ (hash (read_commit_object SHA1 now st h) ≠ "" →
     restorable (tracked_files (read_commit_object SHA1 now st h)) →
     worktree (checkout SHA1 now st1 b).1
     = blob_content st <$> tracked_files (read_commit_object SHA1 now st h)).
Proof.
  intros Hb Hheads Hch. cbv zeta.
  assert (heads st !! b = None) as Hn.
  { unfold branch in Hch. rewrite (ProjectFacts.branch_file_plain st b Hb) in Hch.
    destruct (decide (is_Some (heads st !! b))) as [?|Hno]; [done |].
    by apply eq_None_not_Some. }
  destruct (branch_created st b Hb Hheads Hn Hch) as (Hh & Hline & -> & Hcur). cbn [fst].
  set (h := current_branch_head_hash st) in *.
  set (st1 := with_heads (<[b := h +:+ nl]> (heads st)) st) in *.
  assert (heads st1 !! b = Some (h +:+ nl)) as Hlook
    by (unfold st1; cbn [heads with_heads]; by rewrite lookup_insert_eq).
  split; [done |]. split.
  - unfold merge. fold (current_branch_head_hash st1). rewrite Hcur, Hlook.
    rewrite first_line_nl by done. by rewrite decide_True.
  - unfold checkout. rewrite (ProjectFacts.branch_file_plain st1 b Hb), Hlook.
    rewrite first_line_nl by done.
    set (st2 := with_HEAD (Some ("ref: refs/heads/" +:+ b +:+ nl)) st1).
    pose proof (ProjectFacts.restore_HEAD SHA1 now st2 h) as HH.
    pose proof (ProjectFacts.restore_worktree SHA1 now st2 h) as HW.
    destruct (restore SHA1 now st2 h) as [st3 out]. cbn [fst] in *.
    split; [exact HH |]. intros Hc Hr.
    assert (read_commit_object SHA1 now st2 h = read_commit_object SHA1 now st h) as E
      by by apply ProjectFacts.read_commit_object_ext.
    rewrite E in HW. by rewrite HW.
Qed.

(** *** [log] *)



End Commands.

(** *** [find_common_ancestor] *)

Section CommonAncestor.
Variable SHA1 : string → nat → ascii.
Variable unordered_order : gset string → list string.
Hypothesis order_elements : ∀ (s : gset string) x, x ∈ unordered_order s ↔ x ∈ s.

Lemma common_ancestor_cases (now : string) (st : repo) (hash1 hash2 : string) :
  hashes_recorded SHA1 now st → hash1 ≠ "" → hash2 ≠ "" →
  let link := parent_link SHA1 now st in
  ∃ c, find_common_ancestor SHA1 unordered_order now st hash1 hash2 = Some c
       ∧ ((∃ anc, rtc link hash1 anc ∧ rtc link hash2 anc
                  ∧ c = read_commit_object SHA1 now st anc)
          ∨ ((∀ x, rtc link hash1 x → ¬ rtc link hash2 x)
             ∧ c = CommitNode_new SHA1 now "" "" ∅)).
Proof.
  intros Hrec H1 H2 link.
  destruct (ProjectFacts.getAncestors_reaches SHA1 now st hash1 H1 Hrec) as (A1 & E1 & _ & R1).
  destruct (ProjectFacts.getAncestors_reaches SHA1 now st hash2 H2 Hrec) as (A2 & E2 & _ & R2).
  unfold find_common_ancestor. rewrite E1, E2. cbn.
  destruct (filter (λ anc, anc ∈ A2) (unordered_order A1)) as [|anc l] eqn:Ef.
  - eexists. split; [done |]. right. split; [| done].
    intros x Hx1 Hx2.
    assert (x ∈ filter (λ anc, anc ∈ A2) (unordered_order A1)) as Hin.
    { apply list_elem_of_filter. split; [by apply R2 | by apply order_elements, R1]. }
    rewrite Ef in Hin. by apply elem_of_nil in Hin.
  - eexists. split; [done |]. left. exists anc.
    assert (anc ∈ filter (λ anc, anc ∈ A2) (unordered_order A1)) as Hin
      by (rewrite Ef; apply list_elem_of_here).
    apply list_elem_of_filter in Hin as [Hin2 Hin1].
    split_and!; [by apply R1, order_elements | by apply R2 | done].
Qed.

End CommonAncestor.

End ProjectCommands.


(** ** [MiniGit-Project.cpp]: the three-way merge *)

Module ProjectMerge.
Import Project.


Section Loops.
Variable st : repo.
Variable branch_name : string.
Variables ancestor_files current_files target_files : gmap string string.




Lemma printed_report_conflict what f c t m g :
  marked g ∈ printed (report_conflict st what f c t m) ↔ marked g ∈ printed m ∨ g = f.
Proof.
  unfold report_conflict.
  pose proof (ProjectFacts.read_blob_cerr st c) as He1.
  pose proof (ProjectFacts.read_blob_cerr st t) as He2.
  destruct (read_blob st c) as [c1 e1], (read_blob st t) as [c2 e2].
  cbn [add_conflict_markers printed snd] in *. fold (marked f).
  rewrite !elem_of_app, !list_elem_of_singleton. split.
  - intros [[?|[H|[H|H]]]|H]; [by left | done | | | right; by apply ProjectFacts.marked_inj].
    + by apply He1 in H.
    + by apply He2 in H.
  - intros [?|Hg]; [left; by left | subst g; by right].
Qed.

Lemma merge_target_file_marks m p g :
  target_files !! p.1 = Some p.2 →
  marked g ∈ printed (merge_target_file st branch_name ancestor_files current_files
                        target_files m p)
  ↔ marked g ∈ printed m
    ∨ (g = p.1 ∧ conflicting ancestor_files current_files target_files p.1).
Proof.
  intros Hp. unfold merge_target_file, conflicting. rewrite Hp.
  assert (is_Some (Some p.2)) as Hsome by by eexists.
  repeat case_decide; rewrite ?printed_report_conflict; cbn [printed set_merged];
    split; intros; destruct_or?; destruct_and?; subst; first [tauto | naive_solver].
Qed.

Lemma merge_current_file_marks m p g :
  current_files !! p.1 = Some p.2 →
  marked g ∈ printed (merge_current_file st branch_name ancestor_files target_files m p)
  ↔ marked g ∈ printed m
    ∨ (g = p.1 ∧ target_files !! p.1 = None
       ∧ conflicting ancestor_files current_files target_files p.1).
Proof.
  intros Hp. unfold merge_current_file, conflicting.
  assert (at_or_empty current_files p.1 = p.2) as Hc by (unfold at_or_empty; by rewrite Hp).
  rewrite Hc.
  repeat case_decide; rewrite ?printed_report_conflict; cbn [printed set_merged];
    destruct_and?; rewrite ?Hp;
    split; intros; destruct_or?; destruct_and?; subst;
    repeat match goal with H : target_files !! _ = None |- _ => rewrite H in * end;
    try tauto.
  all: try (right; split_and!; try done; by eexists).
  all: try (destruct (target_files !! p.1); [done | tauto]).
Qed.

End Loops.

Lemma foldl_marks {M} (printed' : M → list line) (step : M → string * string → M)
    (Q : string * string → Prop) (R : string → Prop) (l : list (string * string)) :
  (∀ m p g, Q p → marked g ∈ printed' (step m p) ↔ marked g ∈ printed' m ∨ (g = p.1 ∧ R p.1)) →
  Forall Q l →
  ∀ m g, marked g ∈ printed' (foldl step m l) ↔ marked g ∈ printed' m ∨ (g ∈ l.*1 ∧ R g).
Proof.
  intros Hstep. induction 1 as [|p l Hp Hl IH]; intros m g; cbn [foldl fmap list_fmap].
  - rewrite elem_of_nil. tauto.
  - rewrite IH, Hstep by done. rewrite elem_of_cons. split.
    + intros [[?|[-> ?]]|[? ?]]; tauto.
    + intros [?|[[->|?] ?]]; tauto.
Qed.

Lemma items_keys (m : gmap string string) (f : string) : f ∈ (items m).*1 ↔ is_Some (m !! f).
Proof.
  rewrite list_elem_of_fmap. split.
  - intros ([k v] & -> & Hin). apply items_elem in Hin. by eexists.
  - intros [v Hv]. exists (f, v). split; [done | by apply items_elem].
Qed.

Lemma merge_loops_marks (st : repo) (branch_name : string) (ca cur tgt : CommitNode) (f : string) :
  marked f ∈ printed (merge_loops st branch_name ca cur tgt)
  ↔ conflicting (tracked_files ca) (tracked_files cur) (tracked_files tgt) f.
Proof.
  unfold merge_loops.
  rewrite (foldl_marks printed _ (λ p, tracked_files cur !! p.1 = Some p.2)
             (λ g, tracked_files tgt !! g = None
                   ∧ conflicting (tracked_files ca) (tracked_files cur) (tracked_files tgt) g)).
  2:{ intros m p g Hp. by apply merge_current_file_marks. }
  2:{ apply Forall_forall. intros [k v] Hin. by apply items_elem. }
  rewrite (foldl_marks printed _ (λ p, tracked_files tgt !! p.1 = Some p.2)
             (conflicting (tracked_files ca) (tracked_files cur) (tracked_files tgt))).
  2:{ intros m p g Hp. by apply merge_target_file_marks. }
  2:{ apply Forall_forall. intros [k v] Hin. by apply items_elem. }
  cbn [printed]. rewrite elem_of_nil, !items_keys. split.
  - intros [[[]|[_ ?]]|[_ [_ ?]]]; done.
  - intros Hc. pose proof Hc as Hc'. unfold conflicting in Hc'.
    destruct (tracked_files tgt !! f) eqn:Et.
    + left. right. split; [by eexists | done].
    + right. split; [tauto | done].
Qed.


Lemma no_conflicting_path (A C T : gmap string string) :
  set_Forall (λ f, ¬ conflicting A C T f) (dom T ∪ dom C) → ∀ f, ¬ conflicting A C T f.
Proof. intros H f Hc. exact (H f (ProjectFacts.conflicting_keys A C T f Hc) Hc). Qed.


(** X9. A merge without conflicting path, where the merged paths are file
    names with a fingerprint and [update_head] can write.  The working
    directory is rebuilt from the merged file map and from nothing else; a
    record with the two heads for parents is stored and [HEAD] resolves to
    it; its hash is the one the constructor computed before the parents
    were added, so it does not cover them; the staging area and the index
    file are emptied. *)
Theorem merge_without_conflict SHA1 (unordered_order : gset string → list string)
    (now : string) (st : repo) (b tf : string) (ca : CommitNode) :
  let current_hash := current_branch_head_hash st in
  let target_hash := first_line tf in
  let cur := read_commit_object SHA1 now st current_hash in
  let tgt := read_commit_object SHA1 now st target_hash in
  let m := merge_loops st b ca cur tgt in
  let merge_message := "Merge branch '" +:+ b +:+ "' into " +:+ get_current_branch_name st in
  let built := CommitNode_new SHA1 now merge_message "" (merged_files m) in
  let merge_commit :=
    mkCommitNode (hash built) merge_message now current_hash [current_hash; target_hash]
      (merged_files m) in
  heads st !! b = Some tf →
  current_hash ≠ target_hash →
  find_common_ancestor SHA1 unordered_order now st current_hash target_hash = Some ca →
  hash ca ≠ "" →
  (∀ f, ¬ conflicting (tracked_files ca) (tracked_files cur) (tracked_files tgt) f) →
  restorable (merged_files m) → head_writable st →
  ∃ st' out,
    merge SHA1 unordered_order now st b = Some (st', out)
    ∧ worktree st' = blob_content st <$> merged_files m
    ∧ get_head_commit_hash st' = hash merge_commit
    ∧ commits st' = <[hash merge_commit := commit_text merge_commit]> (commits st)
    ∧ staging_area_ st' = ∅ ∧ index st' = Some "" ∧ objects st' = objects st
    ∧ last out = Some (cout, "Merge successful. New commit: " +:+ hash merge_commit).
Proof.
  cbv zeta. intros Hb Hne Hca Hh Hno Hr Hw.
  set (cur := read_commit_object SHA1 now st (current_branch_head_hash st)) in *.
  set (tgt := read_commit_object SHA1 now st (first_line tf)) in *.
  assert (conflict (merge_loops st b ca cur tgt) = false) as Hc.
  { destruct (conflict (merge_loops st b ca cur tgt)) eqn:E; [| done].
    destruct (ProjectFacts.merge_loops_inv st b ca cur tgt) as [[Hm _] _].
    destruct (Hm E) as [f Hf]. apply merge_loops_marks in Hf. by destruct (Hno f). }
  unfold merge. rewrite Hb. rewrite decide_False by done. rewrite Hca. cbn [mbind option_bind].
  rewrite decide_False by done. fold cur tgt. rewrite Hc.
  pose proof (ProjectFacts.write_files_spec "Warning: Could not write merged file " st
                (merged_files (merge_loops st b ca cur tgt))
                (ProjectFacts.restorable_plain _ Hr)) as Hwt.
  destruct (write_files _ st (items (merged_files (merge_loops st b ca cur tgt))) ∅)
    as [wt errs]. cbn [fst] in Hwt. subst wt.
  eexists _, _. split; [reflexivity |].
  set (m := merge_loops st b ca cur tgt).
  set (st1 := with_worktree (blob_content st <$> merged_files m) st).
  set (mc := add_parent (add_parent _ _) _).
  destruct (ProjectCommands.update_head_frame (save_commit_object st1 mc) (hash mc))
    as (H1 & H2 & H3 & H4 & H5 & H6).
  unfold save_staging_area.
  cbn [staging_area_ with_staging_area_ with_index index objects commits worktree].
  rewrite items_empty. split_and!; try done.
  - apply (ProjectCommands.update_head_resolves SHA1 (save_commit_object st1 mc)).
    exact Hw.
  - by rewrite !app_assoc, last_snoc.
Qed.

(** X10. [find_common_ancestor] always returns: the record of a commit reachable
    from both heads along parent links, or, when the two histories share no
    commit, a record the constructor has just built, whose hash is not empty
    and whose tree is.  So for two unrelated histories [merge] does not stop
    at its test for a missing ancestor: it merges against an empty tree and
    ends with the failure line of a conflict or with a merge commit. *)
Theorem common_ancestor_or_fresh_record SHA1 (unordered_order : gset string → list string)
    (now : string) (st : repo) (hash1 hash2 : string) :
  (∀ (s : gset string) x, x ∈ unordered_order s ↔ x ∈ s) →
  hashes_recorded SHA1 now st → hash1 ≠ "" → hash2 ≠ "" →
  let link := parent_link SHA1 now st in
  ∃ c, find_common_ancestor SHA1 unordered_order now st hash1 hash2 = Some c
       ∧ ((∃ anc, rtc link hash1 anc ∧ rtc link hash2 anc
                  ∧ c = read_commit_object SHA1 now st anc)
          ∨ ((∀ x, rtc link hash1 x → ¬ rtc link hash2 x)
             ∧ hash c ≠ "" ∧ tracked_files c = ∅
             ∧ ∀ b tf, heads st !! b = Some tf →
                 hash1 = current_branch_head_hash st → hash2 = first_line tf →
                 ∃ st' out, merge SHA1 unordered_order now st b = Some (st', out)
                   ∧ (last out = Some merge_failed
                      ∨ ∃ h, last out = Some (cout, "Merge successful. New commit: " +:+ h)))).
Proof.
  intros Hord Hrec H1 H2 link.
  destruct (ProjectCommands.common_ancestor_cases SHA1 unordered_order Hord now st hash1 hash2
              Hrec H1 H2) as (c & Hc & [Hfound|[Hnone ->]]).
  - exists c. split; [done |]. by left.
  - eexists. split; [done |]. right.
    assert (hash (CommitNode_new SHA1 now "" "" ∅) ≠ "") as Hne
      by apply ProjectFacts.computeSHA1_nonempty.
    split_and!; try done.
    intros b tf Hb -> ->.
    assert (current_branch_head_hash st ≠ first_line tf) as Hdiff.
    { intros E. apply (Hnone (first_line tf)); [rewrite E |]; apply rtc_refl. }
    unfold merge. rewrite Hb. rewrite decide_False by done. rewrite Hc.
    cbn [mbind option_bind]. rewrite decide_False by done.
    destruct (conflict _).
    + eexists _, _. split; [reflexivity |]. left. by rewrite last_snoc.
    + destruct (write_files _ _ _ _) as [wt errs].
      eexists _, _. split; [reflexivity |]. right. eexists.
      by rewrite !app_assoc, last_snoc.
Qed.

End ProjectMerge.


(** ** The edition with [generate_simple_hash]: objects, [commit], [checkout] *)

Module SimpleCommands.
Import Simple.

Section Hashing.
Variable hasher : string → N.

Lemma generate_simple_hash_shape clk content :
  generate_simple_hash hasher clk content ≠ ""
  ∧ (16 ≤ String.length (generate_simple_hash hasher clk content))%nat
  ∧ all_chars hex_digit (generate_simple_hash hasher clk content) = true.
Proof.
  unfold generate_simple_hash. cbv zeta.
  set (n := hasher _). destruct (to_hex_shape n) as [Hne Hhex].
  unfold setw_fill0.
  assert (∀ k, all_chars hex_digit (String.concat "" (replicate k "0")) = true
               ∧ String.length (String.concat "" (replicate k "0")) = k) as Hz.
  { induction k as [|k [IH1 IH2]]; [done |]. cbn [replicate].
    rewrite concat_cons_s. split; [by rewrite all_chars_app, IH1 |].
    rewrite length_app_s, IH2. done. }
  destruct (Hz (16 - String.length (to_hex n))%nat) as [Hz1 Hz2].
  split_and!.
  - intros E. apply (f_equal String.length) in E. rewrite length_app_s in E.
    destruct (to_hex n); [done |]. simpl in E. lia.
  - rewrite length_app_s, Hz2. lia.
  - by rewrite all_chars_app, Hz1, Hhex.
Qed.

Lemma generate_simple_hash_line clk content :
  first_line (generate_simple_hash hasher clk content +:+ nl)
  = generate_simple_hash hasher clk content.
Proof. apply first_line_nl, hex_no_newline, generate_simple_hash_shape. Qed.

Lemma generate_simple_hash_no_ref clk content :
  starts_with "ref: " (generate_simple_hash hasher clk content) = false.
Proof.
  destruct (starts_with "ref: " (generate_simple_hash hasher clk content)) eqn:E; [| done].
  apply ProjectCommands.starts_with_split in E.
  destruct (generate_simple_hash_shape clk content) as (_ & _ & H).
  rewrite E in H. discriminate H.
Qed.

(** What [save_blob] has stored is what [read_blob] returns under the name
    it was given, and no other object is touched. *)
Lemma save_then_read_blob clk (st : repo) (content : string) :
  let r := save_blob hasher clk st content in
  read_blob r.1 r.2 = (content, [])
  ∧ ∀ k, k ≠ r.2 → objects r.1 !! k = objects st !! k.
Proof.
  unfold save_blob, read_blob. cbn [fst snd objects with_objects].
  rewrite decide_False by apply generate_simple_hash_shape.
  rewrite lookup_insert_eq. split; [done |].
  intros k Hk. by rewrite lookup_insert_ne.
Qed.

Lemma get_head_hash_line (st : repo) : no_newline (get_head_hash st) = true.
Proof.
  unfold get_head_hash. destruct (HEAD st) as [content|]; [| done].
  destruct (starts_with "ref: " (first_line content)); [| apply first_line_no_newline].
  destruct (file_at st _); [apply first_line_no_newline | done].
Qed.

(** [update_head] followed by [get_head_hash], for a fingerprint. *)
Lemma update_head_then_get clk content (st : repo) :
  plain_HEAD st →
  let h := generate_simple_hash hasher clk content in
  let st' := (update_head st h).1 in
  get_head_hash st' = h ∧ (update_head st h).2 = []
  ∧ objects st' = objects st ∧ staging_area_ st' = staging_area_ st
  ∧ worktree st' = worktree st.
Proof.
  intros (c & Hc & Hplain). cbv zeta. unfold update_head. rewrite Hc.
  destruct (starts_with "ref: " (first_line c)) eqn:E.
  - specialize (Hplain eq_refl). apply ProjectCommands.starts_with_split in Hplain.
    set (x := substr_from (String.length "ref: refs/heads/") (first_line c)) in Hplain.
    rewrite Hplain.
    change (substr_from 5 ("ref: refs/heads/" +:+ x)) with ("refs/heads/" +:+ x).
    unfold write_at. rewrite starts_with_app.
    change (substr_from 11 ("refs/heads/" +:+ x)) with x.
    cbn [fst snd objects staging_area_ worktree with_heads]. split_and!; try done.
    unfold get_head_hash. cbn [HEAD with_heads]. rewrite Hc, Hplain.
    change (starts_with "ref: " ("ref: refs/heads/" +:+ x)) with true. cbv iota.
    change (substr_from 5 ("ref: refs/heads/" +:+ x)) with ("refs/heads/" +:+ x).
    unfold file_at. rewrite starts_with_app.
    change (substr_from 11 ("refs/heads/" +:+ x)) with x.
    cbn [heads with_heads]. rewrite lookup_insert_eq. apply generate_simple_hash_line.
  - cbn [fst snd objects staging_area_ worktree with_HEAD]. split_and!; try done.
    unfold get_head_hash. cbn [HEAD with_HEAD].
    by rewrite generate_simple_hash_line, generate_simple_hash_no_ref.
Qed.

Lemma simple_commit_made clk (st : repo) (message : string) :
  staging_area_ st ≠ ∅ → plain_HEAD st →
  let new_commit := CommitNode_new clk message (commit_parents st) (staging_area_ st) in
  let h := generate_simple_hash hasher clk (serialize new_commit) in
  let st' := (commit hasher clk st message).1 in
  get_head_hash st' = h
  ∧ objects st' = <[h := serialize new_commit]> (objects st)
  ∧ staging_area_ st' = ∅ ∧ worktree st' = worktree st
  ∧ (commit hasher clk st message).2
    = [(cout, "Committed: " +:+ substr_to 7 h +:+ " " +:+ message)].
Proof.
  intros Hs Hplain. cbv zeta. unfold commit. rewrite decide_False by done.
  fold (commit_parents st).
  set (new_commit := CommitNode_new clk message (commit_parents st) (staging_area_ st)).
  set (h := generate_simple_hash hasher clk (serialize new_commit)).
  cbn [hash with_hash].
  assert (plain_HEAD (save_commit st (with_hash h new_commit))) as Hplain' by exact Hplain.
  destruct (update_head_then_get clk (serialize new_commit) _ Hplain')
    as (H1 & H2 & H3 & H4 & H5).
  fold h in H1, H2, H3, H4, H5.
  destruct (update_head (save_commit st (with_hash h new_commit)) h) as [st2 errs].
  cbn [fst snd] in *. subst errs.
  cbn [staging_area_ with_staging_area_ objects worktree]. split_and!; try done.
Qed.

(** X11. After a commit made while [HEAD] names a branch or holds a hash,
    [HEAD] resolves to the new record and the record reads back as it was
    built: the whole message, also one of several lines, the time, the
    staged files and the former head as the one parent. *)
Theorem simple_commit_is_read_back clk later (st : repo) (message : string) :
  staging_area_ st ≠ ∅ → plain_HEAD st →
  wf_timestamp (local_time clk) →
  map_Forall (λ f h, wf_entry (f, h)) (staging_area_ st) →
  let st' := (commit hasher clk st message).1 in
  let c := read_commit later st' (get_head_hash st') in
  hash c = get_head_hash st'
  ∧ Simple.message c = message ∧ timestamp c = local_time clk
  ∧ parent_hashes c = commit_parents st
  ∧ tracked_files c = staging_area_ st
  ∧ staging_area_ st' = ∅.
Proof.
  intros Hs Hplain Ht Hf. cbv zeta.
  destruct (simple_commit_made clk st message Hs Hplain) as (-> & Hobj & Hst & _).
  set (new_commit := CommitNode_new clk message (commit_parents st) (staging_area_ st)) in *.
  set (h := generate_simple_hash hasher clk (serialize new_commit)) in *.
  unfold read_commit. rewrite decide_False by apply generate_simple_hash_shape.
  rewrite Hobj, lookup_insert_eq.
  rewrite (simple_roundtrip later h new_commit); [by split_and! |].
  split_and!; [exact Ht | | exact Hf].
  cbn [parent_hashes new_commit CommitNode_new]. unfold commit_parents.
  case_decide; [constructor |]. repeat constructor. apply get_head_hash_line.
Qed.

End Hashing.

(** *** [checkout] *)

Lemma checkout_files_spec (st : repo) (files : gmap string string) :
  let st' := (checkout_files st files).1 in
  (∀ f, worktree st' !! f
        = match files !! f with
          | Some blob_hash => Some (read_blob st blob_hash).1
          | None => worktree st !! f
          end)
  ∧ HEAD st' = HEAD st ∧ heads st' = heads st ∧ objects st' = objects st
  ∧ staging_area_ st' = staging_area_ st.
Proof.
  unfold checkout_files.
  assert (∀ l acc,
            (foldl (λ (acc : gmap string string * list line) (p : string * string),
                      let (content, e) := read_blob st p.2 in
                      (<[p.1 := content]> acc.1, acc.2 ++ e)) acc l).1
            = foldl (λ a p, <[p.1 := (λ h, (read_blob st h).1) p.2]> a) acc.1 l) as E.
  { induction l as [|p l IH]; intros acc; [done |]. cbn [foldl]. rewrite IH.
    by destruct (read_blob st p.2). }
  specialize (E (items files) (worktree st, [])).
  destruct (foldl _ (worktree st, []) (items files)) as [wt errs]. cbn [fst] in *. subst wt.
  cbn [worktree with_worktree HEAD heads objects staging_area_]. split; [| done].
  intros f.
  etransitivity;
    [exact (foldl_insert_lookup (λ h, (read_blob st h).1) (items files) (worktree st) f
              (items_NoDup files)) |].
  by rewrite items_to_map.
Qed.

Lemma simple_checkout_tracked_aux clk (st : repo) (name h : string) :
  name ≠ "" → checkout_resolves st name h →
  let st' := (checkout clk st name).1 in
  let out := (checkout clk st name).2 in
  HEAD st' = Some (new_head st name)
  ∧ heads st' = heads st ∧ objects st' = objects st
  ∧ (objects st !! h = None →
     worktree st' = worktree st ∧ out = [(cerr, "Failed to read commit " +:+ h)])
  ∧ (is_Some (objects st !! h) →
     ∀ f, worktree st' !! f
          = match tracked_files (read_commit clk st h) !! f with
            | Some blob_hash => Some (read_blob st blob_hash).1
            | None => worktree st !! f
            end).
Proof.
  intros Hname Hres. cbv zeta. unfold checkout_resolves, new_head in *. unfold checkout.
  rewrite decide_False by done.
  assert (h ≠ "") as Hh.
  { destruct (heads st !! name); [tauto |]. destruct Hres as [_ ->]. done. }
  assert (∀ head,
            let st1 := with_HEAD (Some head) st in
            let r := checkout_commit clk st1 name h in
            HEAD r.1 = Some head ∧ heads r.1 = heads st ∧ objects r.1 = objects st
            ∧ (objects st !! h = None →
               worktree r.1 = worktree st ∧ r.2 = [(cerr, "Failed to read commit " +:+ h)])
            ∧ (is_Some (objects st !! h) →
               ∀ f, worktree r.1 !! f
                    = match tracked_files (read_commit clk st h) !! f with
                      | Some blob_hash => Some (read_blob st blob_hash).1
                      | None => worktree st !! f
                      end)) as Hend.
  { intros head. cbv zeta. unfold checkout_commit.
    assert (read_commit clk (with_HEAD (Some head) st) h = read_commit clk st h) as -> by done.
    unfold read_commit. destruct (decide (h = "")) as [?|_]; [done |].
    destruct (objects st !! h) as [content|] eqn:Eo.
    - assert (hash (deserialize clk h content) = h) as Ehash
        by (unfold deserialize; by case_decide).
      rewrite decide_False by by rewrite Ehash.
      pose proof (checkout_files_spec (with_HEAD (Some head) st)
                    (tracked_files (deserialize clk h content))) as (Hw & H1 & H2 & H3 & _).
      destruct (checkout_files _ _) as [st2 errs]. cbn [fst snd] in *.
      split_and!; done.
    - rewrite decide_True by done. cbn [fst snd]. split_and!; try done. }
  destruct (heads st !! name) as [branch_file|] eqn:Hb.
  - destruct Hres as [-> Hne]. rewrite decide_False by done. apply Hend.
  - destruct Hres as [[content Ho] ->].
    pose proof (Hend (name +:+ nl)) as H. cbv zeta in H.
    rewrite Ho in H |- *. exact H.
Qed.


(** *** [branch] and [log] *)

Lemma get_head_hash_new_branch (st : repo) (b : string) :
  get_head_hash st ≠ "" →
  get_head_hash (with_heads (<[b := get_head_hash st +:+ nl]> (heads st)) st)
  = get_head_hash st.
Proof.
  intros Hne. pose proof (get_head_hash_line st) as Hline.
  unfold get_head_hash in *. cbn [HEAD with_heads].
  destruct (HEAD st) as [content|]; [| done].
  destruct (starts_with "ref: " (first_line content)); [| done].
  unfold file_at in *. cbn [heads objects HEAD with_heads].
  destruct (starts_with "refs/heads/" (substr_from 5 (first_line content))); [| done].
  destruct (decide (b = substr_from 11 (substr_from 5 (first_line content)))) as [<-|Hb].
  - rewrite lookup_insert_eq. destruct (heads st !! b) as [ref|]; [| done].
    apply first_line_nl, first_line_no_newline.
  - by rewrite lookup_insert_ne.
Qed.

(** X13. [branch] with a file name on one line makes that branch name the
    current commit, also when the branch existed and named another one; the
    current commit stays the same, and after [checkout] of the branch
    [HEAD] is attached to it and still resolves to that commit.  Without a
    current commit nothing is written. *)
Theorem simple_branch_names_current_commit clk (st : repo) (b : string) :
  plain_name b = true → no_newline b = true →
  let h := get_head_hash st in
  let st1 := (branch st b).1 in
  let st2 := (checkout clk st1 b).1 in
  (h = "" → st1 = st)
  ∧ (h ≠ "" →
     heads st1 = <[b := h +:+ nl]> (heads st)
     ∧ get_head_hash st1 = h
     ∧ HEAD st2 = Some ("ref: refs/heads/" +:+ b +:+ nl)
     ∧ get_head_hash st2 = h).
Proof.
  intros Hplain Hline. pose proof (plain_name_nonempty b Hplain) as Hb.
  cbv zeta. unfold branch. split.
  - intros E. by rewrite decide_True.
  - intros Hne. rewrite decide_False by done. rewrite Hplain. cbn [fst].
    set (st1 := with_heads (<[b := get_head_hash st +:+ nl]> (heads st)) st).
    pose proof (get_head_hash_new_branch st b Hne) as Hh. fold st1 in Hh.
    pose proof (get_head_hash_line st) as Hhl.
    assert (checkout_resolves st1 b (get_head_hash st)) as Hres.
    { unfold checkout_resolves, st1. cbn [heads with_heads]. rewrite lookup_insert_eq.
      by rewrite first_line_nl. }
    destruct (simple_checkout_tracked_aux clk st1 b (get_head_hash st) Hb Hres)
      as (HH & Hheads & _).
    assert (new_head st1 b = "ref: refs/heads/" +:+ b +:+ nl) as Enh
      by (unfold new_head, st1; cbn [heads with_heads]; by rewrite lookup_insert_eq).
    rewrite Enh in HH.
    split_and!; try done.
    unfold get_head_hash. rewrite HH.
    rewrite <- (app_assoc_s "ref: refs/heads/" b), first_line_nl.
    2:{ rewrite ProjectStore.no_newline_app. by rewrite Hline. }
    change (starts_with "ref: " ("ref: refs/heads/" +:+ b)) with true. cbv iota.
    change (substr_from 5 ("ref: refs/heads/" +:+ b)) with ("refs/heads/" +:+ b).
    unfold file_at. rewrite starts_with_app.
    change (substr_from 11 ("refs/heads/" +:+ b)) with b.
    rewrite Hheads. unfold st1. cbn [heads with_heads]. rewrite lookup_insert_eq.
    by rewrite first_line_nl.
Qed.

Lemma simple_log_loop_history clk (st : repo) (cs : list CommitNode) : ∀ h fuel,
  history clk st h cs → (length cs ≤ fuel)%nat →
  log_loop fuel clk st h = Some (concat (map log_entry cs)).
Proof.
  induction cs as [|c cs IH]; intros h fuel Hh Hfuel; [done |].
  destruct Hh as (Hne & -> & Hc & Hrest).
  destruct fuel as [|fuel]; [simpl in Hfuel; lia |].
  cbn [log_loop]. rewrite !decide_False by done.
  destruct cs as [|c' cs].
  - cbn [map concat]. rewrite app_nil_r.
    destruct (parent_hashes (read_commit clk st h)) as [|p ps]; [done |].
    destruct Hrest as [?|Hp]; [done |]. cbn in Hp. injection Hp as ->.
    destruct fuel; cbn; by rewrite ?app_nil_r.
  - destruct Hrest as (p & Hp & Hhist).
    destruct (parent_hashes (read_commit clk st h)) as [|p' ps]; [done |].
    cbn in Hp. injection Hp as ->.
    rewrite (IH p fuel Hhist) by (simpl in Hfuel; simpl; lia).
    done.
Qed.

(** X14. [log] prints the history of the commit [HEAD] resolves to, newest
    first and along first parents only, and it ends within as many turns as
    the history has records; where [HEAD] resolves to nothing it reports
    that there is no commit. *)
Theorem simple_log_prints_first_parent_history clk (st : repo) :
  (∀ cs fuel, history clk st (get_head_hash st) cs → (length cs ≤ fuel)%nat →
     log fuel clk st = Some (concat (map log_entry cs)))
  ∧ (∀ fuel, get_head_hash st = "" → log fuel clk st = Some [(cout, "No commits yet.")]).
Proof.
  split.
  - intros cs fuel Hh Hfuel. unfold log.
    rewrite decide_False by (destruct cs; [done | by destruct Hh]).
    by apply simple_log_loop_history.
  - intros fuel E. unfold log. by rewrite decide_True.
Qed.

End SimpleCommands.


(** ** The edition with [find_lca] and [merge_file_maps]: the merge *)

Module SimpleMerge.
Import Simple.

Section Maps.
Variable unordered_order : gset string → list string.
Hypothesis order_elements : ∀ (s : gset string) x, x ∈ unordered_order s ↔ x ∈ s.
Variables base ours theirs : gmap string string.

Lemma merge_file_entry (m : merging) (f k : string) :
  merged (merge_file base ours theirs m f) !! k
  = if decide (k = f) then Some (merged_hash base ours theirs f) else merged m !! k.
Proof.
  unfold merge_file, merged_hash.
  repeat case_decide; subst;
    repeat match goal with
           | |- context [let (_, _) := ?x in _] => destruct x
           end;
    cbn [merged];
    rewrite ?lookup_insert_eq, ?lookup_insert_ne by done; done.
Qed.

Lemma merge_file_flag (m : merging) (f : string) :
  has_conflict (merge_file base ours theirs m f) = true
  ↔ has_conflict m = true ∨ conflicts base ours theirs f.
Proof.
  unfold merge_file, conflicts.
  repeat case_decide;
    repeat match goal with
           | |- context [let (_, _) := ?x in _] => destruct x
           end;
    cbn [has_conflict]; split; intros; destruct_or?; destruct_and?; try done; tauto.
Qed.

Lemma merge_files_entry (l : list string) : ∀ (m : merging) (k : string),
  merged (foldl (merge_file base ours theirs) m l) !! k
  = if decide (k ∈ l) then Some (merged_hash base ours theirs k) else merged m !! k.
Proof.
  induction l as [|f l IH]; intros m k; cbn [foldl].
  - rewrite decide_False; [done | apply not_elem_of_nil].
  - rewrite IH, merge_file_entry.
    destruct (decide (k ∈ l)) as [Hin|Hin].
    + rewrite decide_True; [done | by right].
    + destruct (decide (k = f)) as [->|Hne].
      * rewrite decide_True; [done | by left].
      * rewrite decide_False; [done |]. by intros [?|?]%elem_of_cons.
Qed.

Lemma merge_files_flag (l : list string) : ∀ (m : merging),
  has_conflict (foldl (merge_file base ours theirs) m l) = true
  ↔ has_conflict m = true ∨ ∃ f, f ∈ l ∧ conflicts base ours theirs f.
Proof.
  induction l as [|f l IH]; intros m; cbn [foldl].
  - split; [by left | intros [?|[f [?%elem_of_nil _]]]; done].
  - rewrite IH, merge_file_flag. split.
    + intros [[?|?]|(g & ? & ?)]; [by left | right; exists f; split; [by left | done] |].
      right. exists g. split; [by right | done].
    + intros [?|(g & [->|?]%elem_of_cons & ?)]; [left; by left | left; by right |].
      right. by exists g.
Qed.

Lemma conflicts_in_files (f : string) :
  conflicts base ours theirs f → f ∈ dom base ∪ dom ours ∪ dom theirs.
Proof.
  intros (H1 & _ & _). unfold at_or_empty in H1.
  destruct (ours !! f) eqn:Eo; [apply elem_of_union_l, elem_of_union_r, elem_of_dom; by eexists |].
  destruct (theirs !! f) eqn:Et; [apply elem_of_union_r, elem_of_dom; by eexists |].
  done.
Qed.

Lemma merge_file_maps_spec (st : repo) :
  let m := merge_file_maps unordered_order st base ours theirs in
  (∀ f, merged m !! f
        = if decide (f ∈ dom base ∪ dom ours ∪ dom theirs)
          then Some (merged_hash base ours theirs f) else None)
  ∧ (has_conflict m = true ↔ ∃ f, conflicts base ours theirs f).
Proof.
  unfold merge_file_maps. split.
  - intros f. rewrite merge_files_entry. cbn [merged].
    destruct (decide (f ∈ dom base ∪ dom ours ∪ dom theirs)) as [Hin|Hin].
    + rewrite decide_True; [done | by apply order_elements].
    + rewrite decide_False; [done |]. by rewrite order_elements.
  - rewrite merge_files_flag. cbn [has_conflict]. split.
    + intros [?|(f & _ & ?)]; [done | by exists f].
    + intros [f Hf]. right. exists f. split; [| done].
      by apply order_elements, conflicts_in_files.
Qed.

End Maps.

Lemma merged_hash_sym (base ours theirs : gmap string string) (f : string) :
  merged_hash base theirs ours f = merged_hash base ours theirs f.
Proof. unfold merged_hash. repeat case_decide; congruence. Qed.

Lemma conflicts_sym (base ours theirs : gmap string string) (f : string) :
  conflicts base theirs ours f ↔ conflicts base ours theirs f.
Proof. unfold conflicts. split; intros (? & ? & ?); split_and!; done. Qed.

(** X15. [merge_file_maps] is a three-way merge that never drops a path.  Every
    path of one of the three maps has an entry in the merged map; a path in
    conflict gets the empty fingerprint; any other path gets their
    fingerprint when ours is the one of the base, and ours otherwise, where
    a side without the path counts as the empty fingerprint: a file that one
    side deleted stays in the merged map, with an empty fingerprint.  The
    flag is raised exactly when some path is in conflict.  The merged map
    and the flag do not depend on which side is ours. *)
Theorem merge_file_maps_three_way (unordered_order : gset string → list string)
    (st : repo) (base ours theirs : gmap string string) :
  (∀ (s : gset string) x, x ∈ unordered_order s ↔ x ∈ s) →
  let m := merge_file_maps unordered_order st base ours theirs in
  dom (merged m) = dom base ∪ dom ours ∪ dom theirs
  ∧ (has_conflict m = true ↔ ∃ f, conflicts base ours theirs f)
  ∧ (∀ f, f ∈ dom base ∪ dom ours ∪ dom theirs →
       (conflicts base ours theirs f → merged m !! f = Some "")
       ∧ (¬ conflicts base ours theirs f →
          merged m !! f
          = Some (if decide (at_or_empty ours f = at_or_empty base f)
                  then at_or_empty theirs f else at_or_empty ours f)))
  ∧ merged (merge_file_maps unordered_order st base theirs ours) = merged m
  ∧ has_conflict (merge_file_maps unordered_order st base theirs ours) = has_conflict m.
Proof.
  intros Hord. cbv zeta.
  destruct (merge_file_maps_spec unordered_order Hord base ours theirs st) as [Hm Hc].
  destruct (merge_file_maps_spec unordered_order Hord base theirs ours st) as [Hm' Hc'].
  split_and!.
  - apply set_eq. intros f. rewrite elem_of_dom, Hm. case_decide; [| by split; [intros [? ?] |]].
    split; [done | by eexists].
  - exact Hc.
  - intros f Hf. rewrite Hm, decide_True by done. unfold merged_hash, conflicts. split.
    + intros (H1 & H2 & H3). by rewrite !decide_False.
    + intros Hno. f_equal. repeat case_decide; try congruence. exfalso. apply Hno.
      split_and!; congruence.
  - apply map_eq. intros f. rewrite Hm, Hm', merged_hash_sym.
    destruct (decide (f ∈ dom base ∪ dom ours ∪ dom theirs)) as [Hin|Hin].
    + rewrite decide_True; [done | set_solver].
    + rewrite decide_False; [done | set_solver].
  - assert (has_conflict (merge_file_maps unordered_order st base theirs ours) = true
            ↔ has_conflict (merge_file_maps unordered_order st base ours theirs) = true) as Hiff.
    { rewrite Hc, Hc'. split; intros [f Hf]; exists f; by apply conflicts_sym. }
    destruct (has_conflict _), (has_conflict _); try done;
      first [exact (proj2 Hiff eq_refl) | symmetry; exact (proj1 Hiff eq_refl)].
Qed.

(** *** [find_lca] *)

Lemma search_loop_sound clk (st : repo) (visited : gset string) : ∀ fuel q a,
  search_loop fuel clk st visited q = Some a → a ≠ "" →
  a ∈ visited ∧ ∃ x, x ∈ q ∧ rtc (parent_link clk st) x a.
Proof.
  induction fuel as [|fuel IH]; intros q a Hs Ha.
  - destruct q; simpl in Hs; [congruence | done].
  - destruct q as [|cur q]; simpl in Hs; [congruence |].
    destruct (decide (cur ∈ visited)) as [Hin|Hin].
    + injection Hs as <-. split; [done |]. exists cur. split; [by left | apply rtc_refl].
    + destruct (IH _ _ Hs Ha) as (Hv & x & Hx & Hr). split; [done |].
      apply elem_of_app in Hx as [Hx|Hx].
      * exists x. split; [by right | done].
      * apply list_elem_of_filter in Hx as [Hne Hx].
        exists cur. split; [by left |]. eapply rtc_l; [| exact Hr]. by split.
Qed.

(** X16. What [find_lca] returns, when it is not the empty string, is reachable
    along parent links from both hashes.  It need not be the nearest such
    commit: it is the first one the breadth-first walk from the second hash
    meets.  When the second hash is itself reachable from the first,
    [find_lca] returns and the result is the second hash. *)
Theorem find_lca_is_common_ancestor clk (st : repo) (hash1 hash2 : string) :
  hash1 ≠ "" → hash2 ≠ "" →
  (∀ fuel a, find_lca fuel clk st hash1 hash2 = Some a → a ≠ "" →
     rtc (parent_link clk st) hash1 a ∧ rtc (parent_link clk st) hash2 a)
  ∧ (rtc (parent_link clk st) hash1 hash2 →
     ∃ fuel0, ∀ fuel, (fuel0 ≤ fuel)%nat → find_lca fuel clk st hash1 hash2 = Some hash2).
Proof.
  intros H1 H2.
  destruct (SimpleFacts.find_lca_visits clk st hash1 H1) as (fuel1 & A & HA & _ & Hreach).
  split.
  - intros fuel a Hf Ha. unfold find_lca in Hf.
    rewrite decide_False in Hf by (intros [?|?]; done).
    destruct (visit_loop fuel clk st ∅ [hash1]) as [V|] eqn:EV; [| done]. cbn in Hf.
    assert (V = A) as ->.
    { pose proof (SimpleFacts.visit_loop_enough clk st fuel (fuel `max` fuel1) _ _ _ EV
                    (Nat.le_max_l _ _)) as E1.
      pose proof (SimpleFacts.visit_loop_enough clk st fuel1 (fuel `max` fuel1) _ _ _ HA
                    (Nat.le_max_r _ _)) as E2.
      congruence. }
    destruct (search_loop_sound clk st A fuel [hash2] a Hf Ha) as (Hv & x & Hx & Hr).
    apply list_elem_of_singleton in Hx as ->. split; [by apply Hreach | done].
  - intros Hr. exists (S fuel1). intros fuel Hle. unfold find_lca.
    rewrite decide_False by (intros [?|?]; done).
    rewrite (SimpleFacts.visit_loop_enough clk st fuel1 fuel _ _ _ HA) by lia. cbn.
    destruct fuel as [|fuel]; [lia |]. simpl.
    rewrite decide_True; [done | by apply Hreach].
Qed.

End SimpleMerge.


(** ** The edition with [generate_simple_hash]: [init] and [main] *)

Module SimpleMain.
Import Simple.

Section Processes.
Variable hasher : string → N.
Variable unordered_order : gset string → list string.

(** X17. The staging area lives in the [MiniGit] object and no command writes it
    to a file: a process starts with an empty one.  So [commit], run from
    [main], never makes a commit, whatever an earlier process has added: it
    reports that there is nothing to commit and leaves the directory as the
    process found it. *)
Theorem main_commit_finds_nothing_staged (fuel : nat) (clk : clock) (d : directory)
    (program message : string) (more : list string) :
  main hasher unordered_order fuel clk d (program :: "commit" :: message :: more)
  = Some (MiniGit_new d, [(cout, "Nothing to commit.")], 0%Z).
Proof.
  unfold Simple.main. rewrite decide_False by done. rewrite decide_False by done.
  rewrite decide_True by done. destruct d as [wt|st]; [done |].
  unfold MiniGit_new, run. unfold commit.
  by rewrite decide_True.
Qed.

(** The repository right after [init]. *)
Lemma init_creates (working_files : gmap string string) :
  init (no_repository working_files)
  = (mkRepo (Some ("ref: refs/heads/main" +:+ nl)) {[ "main" := "" ]} ∅ ∅ working_files,
     [(cout, "Initialized empty MiniGit repository in .minigit")]).
Proof. reflexivity. Qed.


End Processes.

End SimpleMain.


(** ** [Branching.cpp]: [commit] and [log] *)

Module BranchingCommands.
Import Branching.

Section Hashing.
Variable hasher : string → N.

Lemma branching_hash_shape clk content :
  generate_simple_hash hasher clk content ≠ ""
  ∧ (32 ≤ String.length (generate_simple_hash hasher clk content))%nat
  ∧ all_chars hex_digit (generate_simple_hash hasher clk content) = true.
Proof.
  unfold generate_simple_hash. cbv zeta.
  set (n := hasher _). destruct (to_hex_shape n) as [Hne Hhex].
  unfold setw_fill0.
  assert (∀ k, all_chars hex_digit (String.concat "" (replicate k "0")) = true
               ∧ String.length (String.concat "" (replicate k "0")) = k) as Hz.
  { induction k as [|k [IH1 IH2]]; [done |]. cbn [replicate].
    rewrite concat_cons_s. split; [by rewrite all_chars_app, IH1 |].
    rewrite length_app_s, IH2. done. }
  destruct (Hz (32 - String.length (to_hex n))%nat) as [Hz1 Hz2].
  split_and!.
  - intros E. apply (f_equal String.length) in E. rewrite length_app_s in E.
    destruct (to_hex n); [done |]. simpl in E. lia.
  - rewrite length_app_s, Hz2. lia.
  - by rewrite all_chars_app, Hz1, Hhex.
Qed.

Lemma branching_head_line (st : repo) : no_newline (get_head_commit_hash st) = true.
Proof.
  unfold get_head_commit_hash. destruct (HEAD st) as [content|]; [| done].
  destruct (starts_with "ref: " (first_line content)); [| apply first_line_no_newline].
  destruct (file_at st _); [apply first_line_no_newline | done].
Qed.

Lemma branching_update_head clk content (st : repo) :
  plain_HEAD st →
  let h := generate_simple_hash hasher clk content in
  let st' := (update_head st h).1 in
  get_head_commit_hash st' = h ∧ (update_head st h).2 = []
  ∧ objects st' = objects st ∧ staging_area_ st' = staging_area_ st
  ∧ worktree st' = worktree st.
Proof.
  intros (c & l & Hc & Hl & Hplain). cbv zeta.
  destruct (branching_hash_shape clk content) as (Hne & _ & Hhex).
  assert (first_line (generate_simple_hash hasher clk content +:+ nl)
          = generate_simple_hash hasher clk content) as Hfl
    by by apply first_line_nl, hex_no_newline.
  assert (first_line c = l) as Hfirst by (unfold first_line; destruct (lines c); by simplify_eq/=).
  unfold update_head. rewrite Hc, Hl.
  destruct (starts_with "ref: " l) eqn:E.
  - destruct (Hplain eq_refl) as [Hp Hx]. apply ProjectCommands.starts_with_split in Hp.
    set (x := substr_from (String.length "ref: refs/heads/") l) in Hp.
    change (substr_from 16 l) with x in Hx.
    assert (substr_from 5 l = "refs/heads/" +:+ x) as -> by by rewrite Hp.
    unfold write_at. rewrite starts_with_app.
    change (substr_from 11 ("refs/heads/" +:+ x)) with x.
    rewrite decide_False by done.
    cbn [fst snd objects staging_area_ worktree with_heads]. split_and!; try done.
    unfold get_head_commit_hash. cbn [HEAD with_heads]. rewrite Hc, Hfirst, E.
    assert (substr_from 5 l = "refs/heads/" +:+ x) as -> by by rewrite Hp.
    unfold file_at. rewrite starts_with_app.
    change (substr_from 11 ("refs/heads/" +:+ x)) with x.
    cbn [heads with_heads]. by rewrite lookup_insert_eq.
  - cbn [fst snd objects staging_area_ worktree with_HEAD]. split_and!; try done.
    unfold get_head_commit_hash. cbn [HEAD with_HEAD]. rewrite Hfl.
    destruct (starts_with "ref: " (generate_simple_hash hasher clk content)) eqn:E'; [| done].
    apply ProjectCommands.starts_with_split in E'. rewrite E' in Hhex. discriminate Hhex.
Qed.

Lemma serialize_not_empty (c : CommitNode) : serialize c ≠ "".
Proof. unfold serialize. discriminate. Qed.

(** X20. After a commit made while [HEAD] names a branch or holds a hash,
    [HEAD] resolves to the new record, and the record reads back as it was
    built: the whole message, the time, the staged files, and for parent
    the hash [HEAD] resolved to before (empty for a first commit). *)
Theorem branching_commit_is_read_back clk later (st : repo) (message : string) :
  staging_area_ st ≠ ∅ → plain_HEAD st →
  wf_timestamp (local_time clk) →
  map_Forall (λ f h, wf_entry (f, h)) (staging_area_ st) →
  ∃ st',
    (commit hasher clk (repository st) message).1 = repository st'
    ∧ let c := read_commit_object later st' (get_head_commit_hash st') in
      hash c = get_head_commit_hash st'
      ∧ Branching.message c = message ∧ timestamp c = local_time clk
      ∧ parent_hash c = get_head_commit_hash st
      ∧ tracked_files c = staging_area_ st
      ∧ staging_area_ st' = ∅.
Proof.
  intros Hs Hplain Ht Hf. unfold commit. rewrite decide_False by done.
  set (new_commit := CommitNode_new clk message (get_head_commit_hash st) (staging_area_ st)).
  set (h := generate_simple_hash hasher clk (serialize new_commit)).
  cbn [hash with_hash].
  assert (plain_HEAD (save_commit_object st (with_hash h new_commit))) as Hplain'
    by exact Hplain.
  destruct (branching_update_head clk (serialize new_commit) _ Hplain')
    as (H1 & H2 & H3 & H4 & H5).
  fold h in H1, H2, H3, H4, H5.
  destruct (update_head (save_commit_object st (with_hash h new_commit)) h) as [st2 errs].
  cbn [fst snd] in *. subst errs.
  eexists. split; [reflexivity |]. cbv zeta.
  assert (get_head_commit_hash (with_staging_area_ ∅ st2) = h) as -> by exact H1.
  unfold read_commit_object. cbn [objects with_staging_area_]. rewrite H3.
  cbn [objects save_commit_object with_objects hash with_hash]. rewrite lookup_insert_eq.
  cbn [default].
  assert (serialize (with_hash h new_commit) = serialize new_commit) as -> by done.
  rewrite decide_False by apply serialize_not_empty.
  unfold id. rewrite (branching_roundtrip later h new_commit); [by split_and! |].
  split_and!; [exact Ht | apply branching_head_line | exact Hf].
Qed.

(** X21. When the file [HEAD] is missing or empty, [commit] still stores the new
    record and reports success after the diagnostic of [update_head], but
    no reference names the record: [HEAD] resolves to nothing as before. *)
Theorem branching_commit_without_head clk (st : repo) (message : string) :
  staging_area_ st ≠ ∅ → HEAD st = None ∨ HEAD st = Some "" →
  let new_commit := CommitNode_new clk message "" (staging_area_ st) in
  let h := generate_simple_hash hasher clk (serialize new_commit) in
  commit hasher clk (repository st) message
  = (repository
       (with_staging_area_ ∅ (with_objects (<[h := serialize new_commit]> (objects st)) st)),
     [(cerr, "Error: HEAD file not found during update.");
      (cout, "Committed successfully: " +:+ substr_to 7 h +:+ " " +:+ message)])
  ∧ get_head_commit_hash
      (with_staging_area_ ∅ (with_objects (<[h := serialize new_commit]> (objects st)) st))
    = "".
Proof.
  intros Hs Hhead. cbv zeta. unfold commit. rewrite decide_False by done.
  assert (get_head_commit_hash st = "") as ->
    by (unfold get_head_commit_hash; by destruct Hhead as [-> | ->]).
  unfold update_head, save_commit_object, get_head_commit_hash.
  cbn [HEAD with_objects with_staging_area_ hash with_hash].
  by destruct Hhead as [-> | ->].
Qed.

End Hashing.

Lemma branching_log_loop_history clk (st : repo) (cs : list CommitNode) : ∀ h fuel,
  history clk st h cs → (length cs ≤ fuel)%nat →
  log_loop fuel clk st h = Some (concat (map log_entry cs)).
Proof.
  induction cs as [|c cs IH]; intros h fuel Hh Hfuel.
  - cbn in Hh. subst h. by destruct fuel.
  - destruct Hh as (Hne & -> & Hc & Hrest).
    destruct fuel as [|fuel]; [simpl in Hfuel; lia |].
    cbn [log_loop]. rewrite !decide_False by done.
    rewrite (IH _ fuel Hrest) by (simpl in Hfuel; lia). done.
Qed.

(** X22. [log] prints its heading and then the history of the commit [HEAD]
    resolves to, newest first along [parent_hash], and it ends within as
    many turns as the history has records; where [HEAD] resolves to nothing
    it prints the heading and reports that there is no commit. *)
Theorem branching_log_prints_history clk (st : repo) :
  (∀ cs fuel, get_head_commit_hash st ≠ "" →
     history clk st (get_head_commit_hash st) cs → (length cs ≤ fuel)%nat →
     log fuel clk (repository st)
     = Some ((cout, "Commit History:") :: concat (map log_entry cs)))
  ∧ (∀ fuel, get_head_commit_hash st = "" →
       log fuel clk (repository st)
       = Some [(cout, "Commit History:"); (cout, "No commits yet.")]).
Proof.
  split.
  - intros cs fuel Hne Hh Hfuel. unfold log. rewrite decide_False by done.
    by rewrite (branching_log_loop_history clk st cs).
  - intros fuel E. unfold log. by rewrite decide_True.
Qed.

Lemma branching_branch_head (st : repo) (b : string) :
  get_head_commit_hash
    (with_heads (<[b := get_head_commit_hash st +:+ nl]> (heads st)) st)
  = get_head_commit_hash st.
Proof.
  pose proof (branching_head_line st) as Hl.
  remember (get_head_commit_hash st) as h eqn:Eh.
  unfold get_head_commit_hash in Eh |- *. cbn [HEAD with_heads].
  destruct (HEAD st) as [content|]; [| done].
  destruct (starts_with "ref: " (first_line content)); [| done].
  unfold file_at in Eh |- *. cbn [heads objects HEAD with_heads].
  destruct (starts_with "refs/heads/" (substr_from 5 (first_line content))); [| done].
  destruct (decide (b = substr_from 11 (substr_from 5 (first_line content)))) as [->|Hb].
  - rewrite lookup_insert_eq. by apply first_line_nl.
  - by rewrite lookup_insert_ne.
Qed.

(** X23. [branch] with a file name writes the hash [HEAD] resolves to under
    that name, also over a reference that exists (then with a warning), and
    never moves the current commit: [HEAD] is left as it is and resolves to
    the same hash afterwards, even when the reference overwritten is the
    one [HEAD] names.  Before the first commit it creates nothing. *)
Theorem branching_branch_keeps_current_commit (st : repo) (b : string) :
  plain_name b = true →
  let h := get_head_commit_hash st in
  (h = "" →
   branch (repository st) b
   = (repository st,
      [(cerr, "Error: Cannot create a branch when no commits exist. Make an initial commit first.")]))
  ∧ (h ≠ "" →
     ∃ st',
       (branch (repository st) b).1 = repository st'
       ∧ heads st' = <[b := h +:+ nl]> (heads st)
       ∧ HEAD st' = HEAD st ∧ objects st' = objects st
       ∧ get_head_commit_hash st' = h
       ∧ (branch (repository st) b).2
         = (if decide (is_Some (heads st !! b)) then
              [(cout, "Warning: Branch '" +:+ b
                        +:+ "' already exists. Its reference will be updated.")]
            else [])
           ++ [(cout, "Branch '" +:+ b +:+ "' created, pointing to commit "
                        +:+ substr_to 7 h)]).
Proof.
  intros Hplain. pose proof (plain_name_nonempty b Hplain) as Hb.
  pose proof (ProjectFacts.plain_name_no_directory b Hplain) as Hdir.
  cbv zeta. unfold branch. rewrite decide_False by done. split.
  - intros E. by rewrite decide_True.
  - intros Hh. rewrite decide_False by done. rewrite Hplain. cbn [fst snd].
    eexists. split; [reflexivity |]. split_and!; try done.
    + apply branching_branch_head.
    + f_equal. rewrite Hdir.
      destruct (decide (false = true ∨ is_Some (heads st !! b))) as [[?|?]|Hn];
        destruct (decide (is_Some (heads st !! b))); try done.
      exfalso. apply Hn. by right.
Qed.

End BranchingCommands.


(** ** Object names and stored files, for every digest function *)

(** X24. An object name of [MiniGit-Project.cpp] has forty characters, all of
    them lowercase hexadecimal digits, whatever the digest: it has no
    white space, no line break, no colon and no comma, and it passes the
    length test of [checkout]. *)
Theorem project_fingerprint_is_forty_hex_digits SHA1 (content : string) :
  String.length (Project.computeSHA1 SHA1 content) = 2 * Project.SHA_DIGEST_LENGTH
  ∧ all_chars hex_digit (Project.computeSHA1 SHA1 content) = true.
Proof. apply ProjectStore.computeSHA1_shape. Qed.

(** X25. The index file carries the staging area from one process to the next:
    what [save_staging_area] writes, [load_staging_area] reads back to the
    same staging area, when paths and fingerprints are not empty and hold no
    white space.  The loop of [load_staging_area] reads a text within as
    many turns as the text has characters. *)
Theorem project_index_file_roundtrip (st : Project.repo) :
  map_Forall (λ f h, wf_entry (f, h)) (Project.staging_area_ st) →
  Project.load_staging_area (Project.save_staging_area st) = Project.save_staging_area st
  ∧ Project.staging_area_ (Project.load_staging_area (Project.save_staging_area st))
    = Project.staging_area_ st
  ∧ ∀ text fuel, (String.length text ≤ fuel)%nat →
      Project.load_entries fuel text ∅ = Project.load_entries (String.length text) text ∅.
Proof.
  intros Hwf. rewrite ProjectStore.save_load_staging_area by done. split_and!; try done.
  intros text fuel Hfuel. by apply ProjectStore.load_entries_fuel.
Qed.

Lemma project_index_file_roundtrip_witness :
  Project.load_staging_area (Project.save_staging_area Sample.diverged_staged)
  = Project.save_staging_area Sample.diverged_staged
  ∧ Project.staging_area_
      (Project.load_staging_area (Project.save_staging_area Sample.diverged_staged))
    = Project.staging_area_ Sample.diverged_staged
  ∧ ∀ text fuel, (String.length text ≤ fuel)%nat →
      Project.load_entries fuel text ∅ = Project.load_entries (String.length text) text ∅.
Proof.
  apply (project_index_file_roundtrip Sample.diverged_staged).
  apply (bool_decide_unpack _). vm_compute. exact I.
Defined.

(** X26. The commit file carries a record field by field: a record that is
    [storable] is read back unchanged from the file [save_commit_object]
    wrote for it. *)
Theorem project_commit_file_roundtrip SHA1 (now : string) (st : Project.repo)
    (c : Project.CommitNode) :
  Project.storable c →
  Project.read_commit_object SHA1 now (Project.save_commit_object st c) (Project.hash c) = c.
Proof. apply ProjectStore.storable_read_back. Qed.

Lemma main_commit_storable : Project.storable Sample.main_commit.
Proof.
  unfold Project.storable, Sample.main_commit.
  cbn [Project.hash Project.message Project.timestamp Project.parent_hash
       Project.parent_hashes Project.tracked_files].
  split_and!; try done.
  - by repeat constructor.
  - apply (bool_decide_unpack _). vm_compute. exact I.
Qed.

Lemma project_commit_file_roundtrip_witness :
  Project.read_commit_object Sample.digest Sample.noon
    (Project.save_commit_object Sample.broken Sample.main_commit) "c1"
  = Sample.main_commit.
Proof.
  apply (project_commit_file_roundtrip Sample.digest Sample.noon Sample.broken
           Sample.main_commit).
  exact main_commit_storable.
Defined.

(** ** Witnesses for [MiniGit-Project.cpp] *)

Lemma diverged_staged_not_empty : Project.staging_area_ Sample.diverged_staged ≠ ∅.
Proof. apply (bool_decide_unpack _). vm_compute. exact I. Qed.

Lemma diverged_staged_entries :
  map_Forall (λ f h, free_of ":" f = true ∧ no_newline f = true ∧ no_newline h = true)
    (Project.staging_area_ Sample.diverged_staged).
Proof. apply (bool_decide_unpack _). vm_compute. exact I. Qed.


Lemma diverged_staged_head_writable : Project.head_writable Sample.diverged_staged.
Proof. intros _. split; reflexivity. Qed.

Lemma diverged_staged_restorable :
  Project.restorable (Project.staging_area_ Sample.diverged_staged).
Proof. apply (bool_decide_unpack _). vm_compute. exact I. Qed.

Lemma initialized_staged_not_empty : Project.staging_area_ Sample.initialized_staged ≠ ∅.
Proof. apply (bool_decide_unpack _). vm_compute. exact I. Qed.

Lemma commit_moves_head_witness :
  (let st := Sample.diverged_staged in
   let new_commit :=
     Project.CommitNode_new Sample.digest Sample.noon "second" (Project.commit_parent st)
       (Project.staging_area_ st) in
   let st' := (Project.commit Sample.digest Sample.noon st "second").1 in
   Project.commits st'
   = <[Project.hash new_commit := Project.commit_text new_commit]> (Project.commits st)
   ∧ Project.get_head_commit_hash st' = Project.hash new_commit)
  ∧ (let st := Sample.initialized_staged in
     let new_commit :=
       Project.CommitNode_new Sample.digest Sample.noon "first" (Project.commit_parent st)
         (Project.staging_area_ st) in
     let st' := (Project.commit Sample.digest Sample.noon st "first").1 in
     Project.commits st'
     = <[Project.hash new_commit := Project.commit_text new_commit]> (Project.commits st)
     ∧ Project.HEAD st' = Some ("ref: refs/heads/master" +:+ nl)
     ∧ Project.heads st' = ∅
     ∧ Project.get_head_commit_hash st' = "ref: refs/heads/master").
Proof.
  split.
  - destruct (ProjectCommands.commit_moves_head Sample.digest Sample.noon
                Sample.diverged_staged "second" diverged_staged_not_empty)
      as (_ & H2 & _ & _ & _ & _ & H7 & _).
    split; [exact H2 | exact (H7 diverged_staged_head_writable)].
  - destruct (ProjectCommands.commit_moves_head Sample.digest Sample.noon
                Sample.initialized_staged "first" initialized_staged_not_empty)
      as (_ & H2 & _ & _ & _ & _ & _ & H8).
    destruct (H8 eq_refl eq_refl) as (Ha & Hb & Hc).
    split; [exact H2 |]. split; [exact Ha |]. split; [exact Hb | exact Hc].
Defined.

Lemma commit_is_read_back_witness :
  let st := Sample.diverged_staged in
  let st' := (Project.commit Sample.digest Sample.noon st "second").1 in
  let c := Project.read_commit_object Sample.digest "2024-05-02 09:00:00" st'
             (Project.get_head_commit_hash st') in
  Project.message c = "second" ∧ Project.timestamp c = Sample.noon
  ∧ Project.tracked_files c = Project.staging_area_ st
  ∧ Project.parent_hashes c
    = (if decide (Project.commit_parent st = "") then [] else [Project.commit_parent st]).
Proof.
  apply (ProjectCommands.commit_is_read_back Sample.digest Sample.noon "2024-05-02 09:00:00"
           Sample.diverged_staged "second").
  - exact diverged_staged_not_empty.
  - exact diverged_staged_head_writable.
  - reflexivity.
  - reflexivity.
  - vm_compute. reflexivity.
  - exact diverged_staged_entries.
Defined.

Lemma commit_then_checkout_restores_staged_witness :
  let st := Sample.diverged_staged in
  let st1 := (Project.commit Sample.digest Sample.noon st "second").1 in
  let h := Project.get_head_commit_hash st1 in
  let st2 := (Project.checkout Sample.digest "2024-05-02 09:00:00" st1 h).1 in
  Project.HEAD st2 = Some (h +:+ nl)
  ∧ Project.worktree st2 = Project.blob_content st <$> Project.staging_area_ st.
Proof.
  apply (ProjectCommands.commit_then_checkout_restores_staged Sample.digest Sample.noon
           "2024-05-02 09:00:00" Sample.diverged_staged "second").
  - exact diverged_staged_not_empty.
  - exact diverged_staged_head_writable.
  - reflexivity.
  - reflexivity.
  - vm_compute. reflexivity.
  - exact diverged_staged_entries.
  - exact diverged_staged_restorable.
  - vm_compute. reflexivity.
Defined.

Lemma branch_then_merge_or_checkout_witness :
  let st := Sample.diverged in
  let st1 := (Project.branch st "topic").1 in
  let h := Project.current_branch_head_hash st in
  Project.heads st1 = <["topic" := h +:+ nl]> (Project.heads st)
  ∧ Project.merge Sample.digest Sample.elements_order Sample.noon st1 "topic"
    = Some (st1, [(cout, "Already up to date.")])
  ∧ Project.HEAD (Project.checkout Sample.digest Sample.noon st1 "topic").1
    = Some ("ref: refs/heads/" +:+ "topic" +:+ nl)
  ∧ (Project.hash (Project.read_commit_object Sample.digest Sample.noon st h) ≠ "" →
     Project.restorable
       (Project.tracked_files (Project.read_commit_object Sample.digest Sample.noon st h)) →
     Project.worktree (Project.checkout Sample.digest Sample.noon st1 "topic").1
     = Project.blob_content st
         <$> Project.tracked_files (Project.read_commit_object Sample.digest Sample.noon st h)).
Proof.
  apply (ProjectCommands.branch_then_merge_or_checkout Sample.digest Sample.elements_order
           Sample.noon Sample.diverged "topic"); [reflexivity | reflexivity |].
  intros E. apply (f_equal (λ st, Project.heads st !! "topic")) in E.
  vm_compute in E. discriminate E.
Defined.




Lemma merge_without_conflict_witness :
  let st := Sample.apart in
  let m := Project.merge_loops st "feat" Sample.base_commit Sample.apart_main
             Sample.apart_feat in
  let built :=
    Project.CommitNode_new Sample.digest Sample.noon "Merge branch 'feat' into main" ""
      (Project.merged_files m) in
  let merge_commit :=
    Project.mkCommitNode (Project.hash built) "Merge branch 'feat' into main" Sample.noon
      "c1" ["c1"; "c2"] (Project.merged_files m) in
  ∃ st' out,
    Project.merge Sample.digest Sample.elements_order Sample.noon st "feat" = Some (st', out)
    ∧ Project.worktree st' = Project.blob_content st <$> Project.merged_files m
    ∧ Project.get_head_commit_hash st' = Project.hash merge_commit
    ∧ Project.commits st'
      = <[Project.hash merge_commit := Project.commit_text merge_commit]> (Project.commits st)
    ∧ Project.staging_area_ st' = ∅ ∧ Project.index st' = Some ""
    ∧ Project.objects st' = Project.objects st
    ∧ last out = Some (cout, "Merge successful. New commit: " +:+ Project.hash merge_commit).
Proof.
  apply (ProjectMerge.merge_without_conflict Sample.digest Sample.elements_order Sample.noon
           Sample.apart "feat" ("c2" +:+ nl) Sample.base_commit).
  - reflexivity.
  - vm_compute. discriminate.
  - vm_compute. reflexivity.
  - discriminate.
  - apply ProjectMerge.no_conflicting_path, (bool_decide_unpack _). vm_compute. exact I.
  - apply (bool_decide_unpack _). vm_compute. exact I.
  - intros _. split; reflexivity.
Defined.

Lemma elements_order_elements (s : gset string) (x : string) :
  x ∈ Sample.elements_order s ↔ x ∈ s.
Proof. apply elem_of_elements. Qed.

Lemma diverged_hashes_recorded :
  Project.hashes_recorded Sample.digest Sample.noon Sample.diverged.
Proof.
  apply hashes_recorded_by_list, (bool_decide_unpack _). vm_compute. exact I.
Qed.

Lemma common_ancestor_or_fresh_record_witness :
  let st := Sample.diverged in
  let link := Project.parent_link Sample.digest Sample.noon st in
  ∃ c, Project.find_common_ancestor Sample.digest Sample.elements_order Sample.noon st
         "c1" "c2" = Some c
       ∧ ((∃ anc, rtc link "c1" anc ∧ rtc link "c2" anc
                  ∧ c = Project.read_commit_object Sample.digest Sample.noon st anc)
          ∨ ((∀ x, rtc link "c1" x → ¬ rtc link "c2" x)
             ∧ Project.hash c ≠ "" ∧ Project.tracked_files c = ∅
             ∧ ∀ b tf, Project.heads st !! b = Some tf →
                 "c1" = Project.current_branch_head_hash st → "c2" = first_line tf →
                 ∃ st' out,
                   Project.merge Sample.digest Sample.elements_order Sample.noon st b
                   = Some (st', out)
                   ∧ (last out = Some Project.merge_failed
                      ∨ ∃ h, last out
                             = Some (cout, "Merge successful. New commit: " +:+ h)))).
Proof.
  apply (ProjectMerge.common_ancestor_or_fresh_record Sample.digest Sample.elements_order
           Sample.noon Sample.diverged "c1" "c2").
  - exact elements_order_elements.
  - exact diverged_hashes_recorded.
  - discriminate.
  - discriminate.
Defined.

(** ** The files of the paths in conflict *)




(** ** The edition with [generate_simple_hash] *)

(** X27. What [save_blob] has stored is what [read_blob] returns under the name
    [save_blob] gave it, without a diagnostic, and no other object changes.
    The name is not empty: it has at least sixteen characters, all of them
    lowercase hexadecimal digits. *)
Theorem simple_blob_is_read_back (hasher : string → N) (clk : clock) (st : Simple.repo)
    (content : string) :
  let r := Simple.save_blob hasher clk st content in
  Simple.read_blob r.1 r.2 = (content, [])
  ∧ (∀ k, k ≠ r.2 → Simple.objects r.1 !! k = Simple.objects st !! k)
  ∧ (16 ≤ String.length r.2)%nat ∧ all_chars hex_digit r.2 = true.
Proof.
  cbv zeta. destruct (SimpleCommands.save_then_read_blob hasher clk st content) as [H1 H2].
  destruct (SimpleCommands.generate_simple_hash_shape hasher clk content) as (_ & H3 & H4).
  split_and!; done.
Qed.

Lemma staged_not_empty : Simple.staging_area_ Sample.staged ≠ ∅.
Proof. apply (bool_decide_unpack _). vm_compute. exact I. Qed.

Lemma staged_plain_HEAD : Simple.plain_HEAD Sample.staged.
Proof. eexists. split; [reflexivity |]. intros _. reflexivity. Qed.

Lemma simple_commit_is_read_back_witness :
  let st := Sample.staged in
  let st' := (Simple.commit Sample.fnv1a Sample.clk1 st ("first" +:+ nl +:+ nl +:+ "note")).1 in
  let c := Simple.read_commit Sample.clk2 st' (Simple.get_head_hash st') in
  Simple.hash c = Simple.get_head_hash st'
  ∧ Simple.message c = "first" +:+ nl +:+ nl +:+ "note"
  ∧ Simple.timestamp c = local_time Sample.clk1
  ∧ Simple.parent_hashes c = Simple.commit_parents st
  ∧ Simple.tracked_files c = Simple.staging_area_ st
  ∧ Simple.staging_area_ st' = ∅.
Proof.
  apply (SimpleCommands.simple_commit_is_read_back Sample.fnv1a Sample.clk1 Sample.clk2
           Sample.staged ("first" +:+ nl +:+ nl +:+ "note")).
  - exact staged_not_empty.
  - exact staged_plain_HEAD.
  - split; reflexivity.
  - apply (bool_decide_unpack _). vm_compute. exact I.
Defined.


Lemma simple_branch_names_current_commit_witness :
  let st := Sample.committed in
  let h := Simple.get_head_hash st in
  let st1 := (Simple.branch st "topic").1 in
  let st2 := (Simple.checkout Sample.clk2 st1 "topic").1 in
  (h = "" → st1 = st)
  ∧ (h ≠ "" →
     Simple.heads st1 = <["topic" := h +:+ nl]> (Simple.heads st)
     ∧ Simple.get_head_hash st1 = h
     ∧ Simple.HEAD st2 = Some ("ref: refs/heads/" +:+ "topic" +:+ nl)
     ∧ Simple.get_head_hash st2 = h).
Proof.
  apply (SimpleCommands.simple_branch_names_current_commit Sample.clk2 Sample.committed
           "topic").
  - reflexivity.
  - reflexivity.
Defined.

Lemma committed_history :
  Simple.history Sample.clk2 Sample.committed (Simple.get_head_hash Sample.committed)
    [Simple.read_commit Sample.clk2 Sample.committed "8f483326b13c8cd6"].
Proof.
  cbn [Simple.history]. split_and!.
  - vm_compute. discriminate.
  - vm_compute. reflexivity.
  - vm_compute. discriminate.
  - left. vm_compute. reflexivity.
Qed.

Lemma simple_log_prints_first_parent_history_witness :
  Simple.log 1 Sample.clk2 Sample.committed
  = Some (concat (map Simple.log_entry
                    [Simple.read_commit Sample.clk2 Sample.committed "8f483326b13c8cd6"])).
Proof.
  apply (proj1 (SimpleCommands.simple_log_prints_first_parent_history Sample.clk2
                  Sample.committed)).
  - exact committed_history.
  - simpl. lia.
Defined.

Lemma merge_file_maps_three_way_witness :
  let base := Simple.tracked_files Sample.simple_base in
  let ours := Simple.tracked_files Sample.simple_ours in
  let theirs := Simple.tracked_files Sample.simple_theirs in
  let m := Simple.merge_file_maps Sample.elements_order Sample.simple_diverged
             base ours theirs in
  dom (Simple.merged m) = dom base ∪ dom ours ∪ dom theirs
  ∧ (Simple.has_conflict m = true ↔ ∃ f, Simple.conflicts base ours theirs f)
  ∧ (∀ f, f ∈ dom base ∪ dom ours ∪ dom theirs →
       (Simple.conflicts base ours theirs f → Simple.merged m !! f = Some "")
       ∧ (¬ Simple.conflicts base ours theirs f →
          Simple.merged m !! f
          = Some (if decide (at_or_empty ours f = at_or_empty base f)
                  then at_or_empty theirs f else at_or_empty ours f)))
  ∧ Simple.merged (Simple.merge_file_maps Sample.elements_order Sample.simple_diverged
                     base theirs ours)
    = Simple.merged m
  ∧ Simple.has_conflict (Simple.merge_file_maps Sample.elements_order Sample.simple_diverged
                           base theirs ours)
    = Simple.has_conflict m.
Proof.
  apply (SimpleMerge.merge_file_maps_three_way Sample.elements_order Sample.simple_diverged).
  exact elements_order_elements.
Defined.

Lemma find_lca_is_common_ancestor_witness :
  let st := Sample.simple_diverged in
  (∀ fuel a, Simple.find_lca fuel Sample.clk2 st "s1" "s0" = Some a → a ≠ "" →
     rtc (Simple.parent_link Sample.clk2 st) "s1" a
     ∧ rtc (Simple.parent_link Sample.clk2 st) "s0" a)
  ∧ (rtc (Simple.parent_link Sample.clk2 st) "s1" "s0" →
     ∃ fuel0, ∀ fuel, (fuel0 ≤ fuel)%nat →
       Simple.find_lca fuel Sample.clk2 st "s1" "s0" = Some "s0").
Proof.
  apply (SimpleMerge.find_lca_is_common_ancestor Sample.clk2 Sample.simple_diverged "s1" "s0").
  - discriminate.
  - discriminate.
Defined.

(** Concrete runs of [Branching.cpp]. *)

Lemma branching_staged_not_empty : Branching.staging_area_ Sample.branching_staged ≠ ∅.
Proof. apply (bool_decide_unpack _). vm_compute. exact I. Qed.

Lemma branching_commit_is_read_back_witness :
  ∃ st',
    (Branching.commit Sample.fnv1a Sample.clk1
       (Branching.repository Sample.branching_staged) ("first" +:+ nl +:+ "note")).1
    = Branching.repository st'
    ∧ let c := Branching.read_commit_object Sample.clk2 st'
                 (Branching.get_head_commit_hash st') in
      Branching.hash c = Branching.get_head_commit_hash st'
      ∧ Branching.message c = "first" +:+ nl +:+ "note"
      ∧ Branching.timestamp c = local_time Sample.clk1
      ∧ Branching.parent_hash c = Branching.get_head_commit_hash Sample.branching_staged
      ∧ Branching.tracked_files c = Branching.staging_area_ Sample.branching_staged
      ∧ Branching.staging_area_ st' = ∅.
Proof.
  apply (BranchingCommands.branching_commit_is_read_back Sample.fnv1a Sample.clk1 Sample.clk2
           Sample.branching_staged ("first" +:+ nl +:+ "note")).
  - exact branching_staged_not_empty.
  - eexists _, _. split; [reflexivity |]. split; [reflexivity |].
    intros _. split; [reflexivity | discriminate].
  - split; reflexivity.
  - apply (bool_decide_unpack _). vm_compute. exact I.
Defined.

Lemma branching_commit_without_head_witness :
  let st := Sample.branching_headless in
  let new_commit := Branching.CommitNode_new Sample.clk1 "first" "" (Branching.staging_area_ st) in
  let h := Branching.generate_simple_hash Sample.fnv1a Sample.clk1
             (Branching.serialize new_commit) in
  Branching.commit Sample.fnv1a Sample.clk1 (Branching.repository st) "first"
  = (Branching.repository
       (Branching.with_staging_area_ ∅
          (Branching.with_objects
             (<[h := Branching.serialize new_commit]> (Branching.objects st)) st)),
     [(cerr, "Error: HEAD file not found during update.");
      (cout, "Committed successfully: " +:+ substr_to 7 h +:+ " " +:+ "first")])
  ∧ Branching.get_head_commit_hash
      (Branching.with_staging_area_ ∅
         (Branching.with_objects
            (<[h := Branching.serialize new_commit]> (Branching.objects st)) st))
    = "".
Proof.
  apply (BranchingCommands.branching_commit_without_head Sample.fnv1a Sample.clk1
           Sample.branching_headless "first").
  - exact branching_staged_not_empty.
  - left. reflexivity.
Defined.

Lemma branching_branch_keeps_current_commit_witness :
  let st := Sample.branching_committed in
  let h := Branching.get_head_commit_hash st in
  (h = "" →
   Branching.branch (Branching.repository st) "main"
   = (Branching.repository st,
      [(cerr, "Error: Cannot create a branch when no commits exist. Make an initial commit first.")]))
  ∧ (h ≠ "" →
     ∃ st',
       (Branching.branch (Branching.repository st) "main").1 = Branching.repository st'
       ∧ Branching.heads st' = <["main" := h +:+ nl]> (Branching.heads st)
       ∧ Branching.HEAD st' = Branching.HEAD st
       ∧ Branching.objects st' = Branching.objects st
       ∧ Branching.get_head_commit_hash st' = h
       ∧ (Branching.branch (Branching.repository st) "main").2
         = (if decide (is_Some (Branching.heads st !! "main")) then
              [(cout, "Warning: Branch '" +:+ "main"
                        +:+ "' already exists. Its reference will be updated.")]
            else [])
           ++ [(cout, "Branch '" +:+ "main" +:+ "' created, pointing to commit "
                        +:+ substr_to 7 h)]).
Proof.
  apply (BranchingCommands.branching_branch_keeps_current_commit Sample.branching_committed
           "main").
  reflexivity.
Defined.

Lemma branching_committed_history :
  Branching.history Sample.clk2 Sample.branching_committed
    (Branching.get_head_commit_hash Sample.branching_committed)
    [Branching.read_commit_object Sample.clk2 Sample.branching_committed
       (Branching.get_head_commit_hash Sample.branching_committed)].
Proof.
  cbn [Branching.history]. split_and!.
  - vm_compute. discriminate.
  - reflexivity.
  - vm_compute. discriminate.
  - vm_compute. reflexivity.
Qed.

Lemma branching_log_prints_history_witness :
  Branching.log 1 Sample.clk2 (Branching.repository Sample.branching_committed)
  = Some ((cout, "Commit History:")
          :: concat (map Branching.log_entry
                       [Branching.read_commit_object Sample.clk2 Sample.branching_committed
                          (Branching.get_head_commit_hash Sample.branching_committed)])).
Proof.
  apply (proj1 (BranchingCommands.branching_log_prints_history Sample.clk2
                  Sample.branching_committed)).
  - vm_compute. discriminate.
  - exact branching_committed_history.
  - simpl. lia.
Defined.


